(** * bitcask: a shallow embedding of the store and its codecs

    The development follows the layout of the Go sources:
    - [Binary] and [Crc32]: the parts of Go's [encoding/binary] and
      [hash/crc32] the store calls;
    - [Codec]: [internal/codec/codec.go];
    - [Data]: the [data] package (segment codec and [datafile]);
    - [Internal]: the [internal] package ([Item] and the index codec);
    - the top level: [options.go], [bitcask.go] and [dtypes.go].

    Go integers are [Z] with the wrap-around of their width written out,
    byte slices are [list byte], maps are [gmap]s, and every function that
    returns an [error] returns a [result] or an [option error] here. *)

From Stdlib Require Import ZArith Lia List.
From Stdlib.Strings Require Import Byte.
From stdpp Require Import gmap list fin_maps sorting.

Local Open Scope Z_scope.

(** ** Bytes and machine integers *)

Abbreviation bytes := (list byte).

#[global] Instance byte_eq_dec : EqDecision byte := Byte.byte_eq_dec.
#[global] Instance byte_countable : Countable byte :=
  inj_countable Byte.to_N Byte.of_N Byte.of_to_N.

Definition Z_of_byte (b : byte) : Z := Z.of_N (Byte.to_N b).

(** Go's [byte(x)]: the low eight bits. *)
Definition byte_of_Z (z : Z) : byte :=
  default Byte.x00 (Byte.of_N (Z.to_N (z mod 256))).

Definition len (b : bytes) : Z := Z.of_nat (length b).

Definition max_int64 : Z := 2 ^ 63 - 1.
Definition wrap_uint32 (z : Z) : Z := z mod 2 ^ 32.
Definition wrap_uint64 (z : Z) : Z := z mod 2 ^ 64.
(** Conversion to a signed 64-bit integer ([int], [int64]). *)
Definition wrap_int64 (z : Z) : Z := (z + 2 ^ 63) mod 2 ^ 64 - 2 ^ 63.

(** ** Errors and results *)

(** The messages the segment and record codecs hand to [errors.Wrap]. *)
Inductive message : Type :=
  | FailedReadingSavedData   (* "failed reading saved data" *)
  | FailedFlushingData.      (* "failed flushing data" *)

#[global] Instance message_eq_dec : EqDecision message.
Proof. solve_decision. Defined.

Inductive error : Type :=
  | ErrKeyNotFound
  | ErrKeyTooLarge
  | ErrValueTooLarge
  | ErrChecksumFailed
  | ErrDatabaseLocked
  | ErrMaxConcurrencyLowerEqZero
  | ErrDecodeError
  | ErrEncodeError
  | ErrReadonly
  | ErrReadError
  | ErrIndexCorruption
  | EOF                 (* io.EOF *)
  | ErrUnexpectedEOF    (* io.ErrUnexpectedEOF *)
  | EFBIG               (* the file system refuses to grow a file *)
  | EINVAL              (* the file system refuses a negative offset *)
  | ENOENT              (* the file system has no such file *)
  | Wrap (cause : error) (msg : message).
                        (* errors.Wrap(cause, msg): a new error value,
                           equal to no sentinel *)

#[global] Instance error_eq_dec : EqDecision error.
Proof. solve_decision. Defined.

(** The outcome of a call: a value, a returned [error], or a run-time
    panic (slice bounds, nil dereference, index out of range). *)
Inductive result (A : Type) : Type :=
  | Ok (a : A)
  | Err (e : error)
  | Panic.
Arguments Ok {A} a.
Arguments Err {A} e.
Arguments Panic {A}.

#[global] Instance result_bind : MBind result := fun A B k r =>
  match r with
  | Ok a => k a
  | Err e => Err e
  | Panic => Panic
  end.

(** Go's slice expression [b[lo:hi]] on a slice whose capacity is its
    length: out-of-range bounds panic. *)
Definition slice (b : bytes) (lo hi : Z) : result bytes :=
  if (0 <=? lo) && (lo <=? hi) && (hi <=? len b)
  then Ok (take (Z.to_nat (hi - lo)) (drop (Z.to_nat lo) b))
  else Panic.

(** [io.ReadFull(r, buf)] with [len(buf) = n] on a reader whose remaining
    input is [r]: the bytes read and the rest of the stream, [io.EOF] when
    nothing could be read, [io.ErrUnexpectedEOF] on a short read. *)
Definition ReadFull (r : bytes) (n : Z) : bytes * result bytes :=
  if n <=? 0 then (r, Ok [])
  else if n <=? len r then (drop (Z.to_nat n) r, Ok (take (Z.to_nat n) r))
  else match r with
       | [] => ([], Err EOF)
       | _ => ([], Err ErrUnexpectedEOF)
       end.

(** [translateError] of the two codec packages. *)
Definition translateError (err : error) : error :=
  match err with
  | EOF => ErrUnexpectedEOF
  | _ => err
  end.

(** ** encoding/binary *)

Module Binary.

(** [binary.BigEndian.PutUint32], [PutUint64]: the [n] low bytes of [v],
    most significant first. *)
Fixpoint be_bytes (n : nat) (v : Z) : bytes :=
  match n with
  | O => []
  | S n' => be_bytes n' (Z.shiftr v 8) ++ [byte_of_Z v]
  end.

(** [binary.BigEndian.Uint32], [Uint64]. *)
Definition be_value (b : bytes) : Z :=
  fold_left (fun acc x => Z.lor (Z.shiftl acc 8) (Z_of_byte x)) b 0.

Definition PutUint32 (v : Z) : bytes := be_bytes 4 v.
Definition PutUint64 (v : Z) : bytes := be_bytes 8 v.
Definition Uint32 (b : bytes) : Z := be_value (take 4 b).
Definition Uint64 (b : bytes) : Z := be_value (take 8 b).

Definition MaxVarintLen64 : Z := 10.

(** [binary.PutUvarint(buf, x)]: the loop writes [buf[i]] for growing
    [i]; writing past the end of [buf] panics.  The buffer after the
    call and the number of bytes written. *)
Fixpoint PutUvarint (buf : bytes) (x : Z) : result (bytes * Z) :=
  match buf with
  | [] => Panic
  | b :: rest =>
      if 0x80 <=? x then
        '(rest', n) ← PutUvarint rest (Z.shiftr x 7);
        Ok (byte_of_Z (Z.lor (Z.land x 0xff) 0x80) :: rest', n + 1)
      else Ok (byte_of_Z x :: rest, 1)
  end.

(** [binary.Uvarint(buf)], with its loop state: index [i], shift [s],
    accumulator [x]. *)
Fixpoint Uvarint_loop (buf : bytes) (i s x : Z) : Z * Z :=
  match buf with
  | [] => (0, 0)
  | b :: rest =>
      if i =? MaxVarintLen64 then (0, - (i + 1))
      else if Z_of_byte b <? 0x80 then
        if (i =? MaxVarintLen64 - 1) && (1 <? Z_of_byte b) then (0, - (i + 1))
        else (Z.lor x (wrap_uint64 (Z.shiftl (Z_of_byte b) s)), i + 1)
      else
        Uvarint_loop rest (i + 1) (s + 7)
          (Z.lor x (wrap_uint64 (Z.shiftl (Z.land (Z_of_byte b) 0x7f) s)))
  end.

Definition Uvarint (buf : bytes) : Z * Z := Uvarint_loop buf 0 0 0.

(** [binary.PutVarint]: zig-zag, then [PutUvarint]. *)
Definition PutVarint (buf : bytes) (x : Z) : result (bytes * Z) :=
  let ux := wrap_uint64 (Z.shiftl (wrap_uint64 x) 1) in
  let ux := if x <? 0 then Z.lxor ux (2 ^ 64 - 1) else ux in
  PutUvarint buf ux.

(** [binary.Varint]. *)
Definition Varint (buf : bytes) : Z * Z :=
  let '(ux, n) := Uvarint buf in
  let x := wrap_int64 (Z.shiftr ux 1) in
  let x := if Z.land ux 1 =? 0 then x else Z.lnot x in
  (x, n).

End Binary.

(** ** hash/crc32 *)

Module Crc32.

Definition IEEE : Z := 0xedb88320.

Definition step (c : Z) : Z :=
  if Z.testbit c 0 then Z.lxor (Z.shiftr c 1) IEEE else Z.shiftr c 1.

Definition update (c : Z) (b : byte) : Z :=
  Nat.iter 8 step (Z.lxor c (Z_of_byte b)).

(** [crc32.ChecksumIEEE]. *)
Definition ChecksumIEEE (data : bytes) : Z :=
  Z.lxor (fold_left update data 0xffffffff) 0xffffffff.

End Crc32.

(** ** The record codec: internal/codec/codec.go *)

(** [model.Entry] / [internal.Entry]. *)
Record Entry : Type := mkEntry {
  Checksum : Z;   (* uint32 *)
  Key : bytes;
  EOffset : Z;    (* int64, the field [Offset] *)
  Value : bytes;
}.

Module Codec.

Definition KeySize : Z := 4.
Definition ValueSize : Z := 8.
Definition checksumSize : Z := 4.

(** [Encoder.Encode] on a writer that keeps what was written ([w] is
    the output so far): the output after the call and the count
    returned. *)
Definition Encode (w : bytes) (msg : Entry) : bytes * result Z :=
  let bufKeySize := Binary.PutUint32 (wrap_uint32 (len (Key msg))) in
  let bufValueSize := Binary.PutUint64 (wrap_uint64 (len (Value msg))) in
  let bufChecksumSize := Binary.PutUint32 (Checksum msg) in
  (w ++ bufKeySize ++ bufValueSize ++ Key msg ++ Value msg ++ bufChecksumSize,
   Ok (wrap_int64 (KeySize + ValueSize + len (Key msg) + len (Value msg)
                   + checksumSize))).

(** [GetKeyValueSizes]: [buf[:KeySize]] and [buf[KeySize:]] panic on a
    buffer that is too short, as does [Uint64] on fewer than 8 bytes. *)
Definition GetKeyValueSizes (buf : bytes) : result (Z * Z) :=
  ks ← slice buf 0 KeySize;
  vs ← slice buf KeySize (len buf);
  if len vs <? ValueSize then Panic
  else Ok (Binary.Uint32 ks, Binary.Uint64 vs).

Definition DecodeWithoutPrefix (buf : bytes) (valueOffset : Z) (v : Entry)
    : result Entry :=
  key ← slice buf 0 valueOffset;
  value ← slice buf valueOffset (len buf - checksumSize);
  sum ← slice buf (len buf - checksumSize) (len buf);
  Ok {| Checksum := Binary.Uint32 sum; Key := key;
        EOffset := EOffset v; Value := value |}.

(** [Decoder.Decode] on a reader with remaining input [r]. *)
Definition Decode (r : bytes) (v : Entry) : bytes * result (Entry * Z) :=
  let '(r1, prefix) := ReadFull r (KeySize + ValueSize) in
  match prefix with
  | Ok prefixBuf =>
      match GetKeyValueSizes prefixBuf with
      | Ok (actualKeySize, actualValueSize) =>
          let size :=
            wrap_uint64 (actualKeySize + actualValueSize + checksumSize) in
          if max_int64 <? size then (r1, Panic)  (* makeslice: len out of range *)
          else
            let '(r2, payload) := ReadFull r1 size in
            match payload with
            | Ok buf =>
                (r2,
                 e ← DecodeWithoutPrefix buf actualValueSize v;
                 Ok (e, wrap_int64 (wrap_uint64
                          (KeySize + ValueSize + actualKeySize
                           + actualValueSize + checksumSize))))
            | Err e =>
                (r2, Err (Wrap (translateError e) FailedReadingSavedData))
            | Panic => (r2, Panic)
            end
      | Err e => (r1, Err e)
      | Panic => (r1, Panic)
      end
  | Err e => (r1, Err e)
  | Panic => (r1, Panic)
  end.

End Codec.

(** ** The internal package: items and the index codec *)

Module Internal.

Record Item : Type := mkItem {
  FileID : Z;   (* int *)
  Offset : Z;   (* int64 *)
  Size : Z;     (* int64 *)
}.

(** Modelled from the spec: [internal.NewEntry], whose source is not in
    the tree.  The entry carries the CRC-32 (IEEE) of the value bytes
    and a zero offset. *)
Definition NewEntry (key value : bytes) : Entry :=
  {| Checksum := Crc32.ChecksumIEEE value; Key := key; EOffset := 0;
     Value := value |}.

Definition int32Size : Z := 4.
Definition int64Size : Z := 8.
Definition fileIDSize : Z := int32Size.
Definition offsetSize : Z := int64Size.
Definition sizeSize : Z := int64Size.

Definition ReadBytes (r : bytes) : bytes * result bytes :=
  let '(r1, s) := ReadFull r int32Size in
  match s with
  | Ok s => ReadFull r1 (Binary.Uint32 s)
  | Err e => (r1, Err e)
  | Panic => (r1, Panic)
  end.

(** The writer keeps what was written; the count returned is dropped by
    every caller. *)
Definition WriteBytes (b : bytes) (w : bytes) : bytes :=
  w ++ Binary.PutUint32 (wrap_uint32 (len b)) ++ b.

Definition ReadItem (r : bytes) : bytes * result Item :=
  let '(r1, buf) := ReadFull r (fileIDSize + offsetSize + sizeSize) in
  (r1,
   buf ← buf;
   Ok {| FileID := Binary.Uint32 (take 4 buf);
         Offset := wrap_int64 (Binary.Uint64 (take 8 (drop 4 buf)));
         Size := wrap_int64 (Binary.Uint64 (drop 12 buf)) |}).

Definition WriteItem (item : Item) (w : bytes) : bytes :=
  w ++ Binary.PutUint32 (wrap_uint32 (FileID item))
    ++ Binary.PutUint64 (wrap_uint64 (Offset item))
    ++ Binary.PutUint64 (wrap_uint64 (Size item)).

(** [ReadIndex]: the loop reads bindings until [io.EOF] at a key
    boundary.  Every round consumes at least four bytes, so [fuel]
    larger than the input never runs out. *)
Fixpoint ReadIndex_loop (fuel : nat) (r : bytes) (t : gmap bytes Item)
    : result (gmap bytes Item) :=
  match fuel with
  | O => Err ErrUnexpectedEOF
  | S fuel' =>
      let '(r1, key) := ReadBytes r in
      match key with
      | Err EOF => Ok t
      | Err e => Err e
      | Panic => Panic
      | Ok key =>
          let '(r2, item) := ReadItem r1 in
          match item with
          | Ok item => ReadIndex_loop fuel' r2 (<[key := item]> t)
          | Err e => Err e
          | Panic => Panic
          end
      end
  end.

Definition ReadIndex (r : bytes) (t : gmap bytes Item)
    : result (gmap bytes Item) :=
  ReadIndex_loop (S (length r)) r t.

(** [WriteIndex]: [t.ForEach] visits every binding; the tree's
    enumeration order is that of [map_to_list]. *)
Definition WriteIndex (t : gmap bytes Item) (w : bytes) : bytes :=
  fold_left (fun w node => WriteItem node.2 (WriteBytes node.1 w))
            (map_to_list t) w.

End Internal.

Export Internal.

(** ** The index package *)

Module Index.

(** Modelled from the spec: [index.ReadFromFile], whose source is not in
    the tree.  An absent [index] file gives an empty tree and
    [found = false].  Otherwise bindings are read as [Internal.ReadIndex]
    reads them, and each key length must be at most the maximum key size
    and each [Size] at most the frame overhead plus the maximum key and
    value sizes; a violation, or an end of file inside a binding, is
    index corruption. *)
Fixpoint readIndex (fuel : nat) (r : bytes) (t : gmap bytes Item)
    (maxKeySize maxValueSize : Z) : result (gmap bytes Item) :=
  match fuel with
  | O => Err ErrIndexCorruption
  | S fuel' =>
      match r with
      | [] => Ok t
      | _ =>
          let '(r1, key) := Internal.ReadBytes r in
          match key with
          | Ok key =>
              if maxKeySize <? len key then Err ErrIndexCorruption
              else
                let '(r2, item) := Internal.ReadItem r1 in
                match item with
                | Ok item =>
                    if 16 + maxKeySize + maxValueSize <? Size item
                    then Err ErrIndexCorruption
                    else readIndex fuel' r2 (<[key := item]> t)
                                   maxKeySize maxValueSize
                | Err _ => Err ErrIndexCorruption
                | Panic => Panic
                end
          | Err _ => Err ErrIndexCorruption
          | Panic => Panic
          end
      end
  end.

Definition ReadFromFile (index_file : option bytes)
    (maxKeySize maxValueSize : Z) : result (gmap bytes Item * bool) :=
  match index_file with
  | None => Ok (∅, false)
  | Some r =>
      t ← readIndex (S (length r)) r ∅ maxKeySize maxValueSize;
      Ok (t, true)
  end.

End Index.

(** ** The data package: segment codec and datafile *)

Module Data.

Definition keySize : Z := 4.
Definition valueSize : Z := 8.
Definition checksumSize : Z := 4.

(** The frame [encoder.encode] hands to its buffered writer. *)
Definition frame (msg : Entry) : bytes :=
  Binary.PutUint32 (wrap_uint32 (len (Key msg)))
    ++ Binary.PutUint64 (wrap_uint64 (len (Value msg)))
    ++ Key msg ++ Value msg ++ Binary.PutUint32 (Checksum msg).

(** [encoder.encode] on the append-mode handle of a file whose content
    is [w].  The file system holds no file longer than [max_int64]
    bytes: a flush that would pass it fails and leaves the file as it
    was. *)
Definition encode (w : bytes) (msg : Entry) : bytes * result Z :=
  if max_int64 <? len w + len (frame msg)
  then (w, Err (Wrap EFBIG FailedFlushingData))
  else
    (w ++ frame msg,
     Ok (wrap_int64 (keySize + valueSize + len (Key msg) + len (Value msg)
                     + checksumSize))).

Definition getKeyValueSizes (buf : bytes) : result (Z * Z) :=
  ks ← slice buf 0 keySize;
  vs ← slice buf keySize (len buf);
  if len vs <? valueSize then Panic
  else Ok (Binary.Uint32 ks, Binary.Uint64 vs).

Definition decodeWithoutPrefix (buf : bytes) (valueOffset : Z) (v : Entry)
    : result Entry :=
  key ← slice buf 0 valueOffset;
  value ← slice buf valueOffset (len buf - checksumSize);
  sum ← slice buf (len buf - checksumSize) (len buf);
  Ok {| Checksum := Binary.Uint32 sum; Key := key;
        EOffset := EOffset v; Value := value |}.

(** [decoder.decode] on a reader with remaining input [r]. *)
Definition decode (r : bytes) (v : Entry) : bytes * result (Entry * Z) :=
  let '(r1, prefix) := ReadFull r (keySize + valueSize) in
  match prefix with
  | Ok prefixBuf =>
      match getKeyValueSizes prefixBuf with
      | Ok (actualKeySize, actualValueSize) =>
          let size :=
            wrap_uint64 (actualKeySize + actualValueSize + checksumSize) in
          if max_int64 <? size then (r1, Panic)  (* makeslice: len out of range *)
          else
            let '(r2, payload) := ReadFull r1 size in
            match payload with
            | Ok buf =>
                (r2,
                 e ← decodeWithoutPrefix buf actualKeySize v;
                 Ok (e, wrap_int64 (wrap_uint64
                          (keySize + valueSize + actualKeySize
                           + actualValueSize + checksumSize))))
            | Err e =>
                (r2, Err (Wrap (translateError e) FailedReadingSavedData))
            | Panic => (r2, Panic)
            end
      | Err e => (r1, Err e)
      | Panic => (r1, Panic)
      end
  | Err e => (r1, Err e)
  | Panic => (r1, Panic)
  end.

(** A [datafile] handle.  [w] tells whether the write handle is there
    ([df.w != nil]); [rpos] is the position of the read handle [r] the
    sequential decoder advances.  The bytes live in the directory, under
    the file's id (its name is the id printed with [%09d.data]). *)
Record datafile : Type := mkDatafile {
  id : Z;
  w : bool;
  offset : Z;
  rpos : Z;
}.

(** [NewDatafile(path, id, readonly)] on the segment files [fs] of
    [path].  Without [readonly] the file is created when missing. *)
Definition NewDatafile (fs : gmap Z bytes) (id : Z) (readonly : bool)
    : gmap Z bytes * result datafile :=
  match fs !! id with
  | Some c =>
      (fs, Ok {| id := id; w := negb readonly; offset := len c; rpos := 0 |})
  | None =>
      if readonly then (fs, Err ENOENT)
      else (<[id := []]> fs,
            Ok {| id := id; w := true; offset := 0; rpos := 0 |})
  end.

Definition FileID (df : datafile) : Z := id df.

(** [Close] and [Sync] flush and release handles; on the model's file
    system they return [nil] and change no byte.  A handle has no closed
    state here: where the source closes a handle and returns no error,
    it replaces the handle before the next use ([put] opens the sealed
    and the new active datafile, [Merge] ends with [reopen]); what a
    closed handle does after a failed call is not modelled. *)
Definition Close (df : datafile) : result unit := Ok tt.
Definition Sync (df : datafile) : result unit := Ok tt.

Definition Size (df : datafile) : Z := offset df.

(** [Read]: the next entry from the sequential decoder. *)
Definition Read (df : datafile) (fs : gmap Z bytes)
    : datafile * result (Entry * Z) :=
  match fs !! id df with
  | None => (df, Err ENOENT)
  | Some c =>
      let '(rest, r) :=
        decode (drop (Z.to_nat (rpos df)) c) (mkEntry 0 [] 0 []) in
      ({| id := id df; w := w df; offset := offset df;
          rpos := len c - len rest |}, r)
  end.

(** [ReadAt(index, size)]: [make] panics on a negative size; the file
    and the memory map refuse a negative offset and report [io.EOF] on a
    short read. *)
Definition ReadAt (df : datafile) (fs : gmap Z bytes) (index size : Z)
    : result Entry :=
  if size <? 0 then Panic
  else
    match fs !! id df with
    | None => Err ENOENT
    | Some c =>
        if index <? 0 then Err EINVAL
        else if len c <? index + size then Err EOF
        else
          let b := take (Z.to_nat size) (drop (Z.to_nat index) c) in
          '(valueOffset, _) ← getKeyValueSizes b;
          rest ← slice b (keySize + valueSize) (len b);
          decodeWithoutPrefix rest valueOffset (mkEntry 0 [] 0 [])
    end.

(** [Write]: the pre-write tail and the frame length. *)
Definition Write (df : datafile) (fs : gmap Z bytes) (e : Entry)
    : datafile * gmap Z bytes * result (Z * Z) :=
  if negb (w df) then (df, fs, Err ErrReadonly)
  else
    let e := {| Checksum := Checksum e; Key := Key e; EOffset := offset df;
                Value := Value e |} in
    match fs !! id df with
    | None => (df, fs, Err ENOENT)
    | Some c =>
        match encode c e with
        | (c', Ok n) =>
            ({| id := id df; w := w df;
                offset := wrap_int64 (offset df + n); rpos := rpos df |},
             <[id df := c']> fs, Ok (EOffset e, n))
        | (c', Err err) => (df, <[id df := c']> fs, Err err)
        | (c', Panic) => (df, <[id df := c']> fs, Panic)
        end
    end.

End Data.

(** ** options.go *)

Definition DefaultMaxDatafileSize : Z := Z.shiftl 1 20.
Definition DefaultMaxKeySize : Z := 64.
Definition DefaultMaxValueSize : Z := Z.shiftl 1 16.

(** The struct [config]; [sync] is the field [Put] reads. *)
Record configT : Type := mkConfig {
  maxDatafileSize : Z;
  maxKeySize : Z;
  maxValueSize : Z;
  maxConcurrency : option Z;
  sync : bool;
}.

(** The type [Option], a function on a pointer to a [config] returning an
    [error]: the configuration after the call and the error returned. *)
Definition Option : Type := configT -> configT * result unit.

Definition newDefaultConfig : configT :=
  {| maxDatafileSize := DefaultMaxDatafileSize;
     maxKeySize := DefaultMaxKeySize;
     maxValueSize := DefaultMaxValueSize;
     maxConcurrency := None;
     sync := false |}.

Definition WithMaxDatafileSize (size : Z) : Option := fun cfg =>
  ({| maxDatafileSize := size; maxKeySize := maxKeySize cfg;
      maxValueSize := maxValueSize cfg; maxConcurrency := maxConcurrency cfg;
      sync := sync cfg |}, Ok tt).

Definition WithMaxKeySize (size : Z) : Option := fun cfg =>
  ({| maxDatafileSize := maxDatafileSize cfg; maxKeySize := size;
      maxValueSize := maxValueSize cfg; maxConcurrency := maxConcurrency cfg;
      sync := sync cfg |}, Ok tt).

Definition WithMaxValueSize (size : Z) : Option := fun cfg =>
  ({| maxDatafileSize := maxDatafileSize cfg; maxKeySize := maxKeySize cfg;
      maxValueSize := size; maxConcurrency := maxConcurrency cfg;
      sync := sync cfg |}, Ok tt).

Definition WithMemPool (maxConcurrency' maxTotalPoolSize : Z) : Option :=
  fun cfg =>
    if maxConcurrency' <=? 0 then (cfg, Err ErrMaxConcurrencyLowerEqZero)
    else
      ({| maxDatafileSize := maxDatafileSize cfg; maxKeySize := maxKeySize cfg;
          maxValueSize := maxValueSize cfg;
          maxConcurrency := Some maxConcurrency'; sync := sync cfg |}, Ok tt).

(** ** The database directory *)

(** What the directory at the database path holds: the segment files by
    id, the [index] file, [config.json] (kept as the configuration it
    stores) and whether the advisory lock on [lock] is held. *)
Record Dir : Type := mkDir {
  files : gmap Z bytes;
  index_file : option bytes;
  config_file : option configT;
  lock_file : bool;
}.

Definition empty_dir : Dir :=
  {| files := ∅; index_file := None; config_file := None;
     lock_file := false |}.

Definition set_files (d : Dir) (fs : gmap Z bytes) : Dir :=
  {| files := fs; index_file := index_file d; config_file := config_file d;
     lock_file := lock_file d |}.

(** Go's [range] over a map visits the keys in an order the language
    leaves unspecified; [mapiter] is the order the run time picks for a
    given (ascending) list of keys. *)
Definition mapiterT : Type := list Z -> list Z.

(** Modelled from the spec: [internal.GetDatafiles] and
    [internal.ParseIds], whose sources are not in the tree: the ids of the
    [*.data] files of the directory, sorted ascending. *)
Definition ParseIds (d : Dir) : list Z :=
  merge_sort Z.le (map fst (map_to_list (files d))).

(** Modelled from the spec: [getConfig], whose source is not in the tree:
    the persisted configuration, an error when there is none. *)
Definition getConfig (d : Dir) : result configT :=
  match config_file d with
  | Some cfg => Ok cfg
  | None => Err ENOENT
  end.

(** The sum of [f] over the values of a map. *)
Definition sum_map {K : Type} `{Countable K} {V : Type} (f : V -> Z)
    (m : gmap K V) : Z :=
  map_fold (fun _ v acc => f v + acc) 0 m.

(** Modelled from the spec: the size [Stats] reports through
    [internal.DirSize], whose source is not in the tree: the total bytes
    of the [.data] files under the directory. *)
Definition data_bytes (d : Dir) : Z := sum_map len (files d).

(** ** bitcask.go *)

(** The struct [Bitcask]; [dir] stands for the directory [path] names. *)
Record Bitcask : Type := mkBitcask {
  config : configT;
  options : list Option;
  dir : Dir;
  curr : Data.datafile;
  datafiles : gmap Z Data.datafile;
  trie : gmap bytes Item;
}.

Definition set_dir (b : Bitcask) (d : Dir) : Bitcask :=
  {| config := config b; options := options b; dir := d; curr := curr b;
     datafiles := datafiles b; trie := trie b |}.

Definition set_trie (b : Bitcask) (t : gmap bytes Item) : Bitcask :=
  {| config := config b; options := options b; dir := dir b; curr := curr b;
     datafiles := datafiles b; trie := t |}.

(** [Get]. A file id without a handle in [b.datafiles] yields a nil
    [Datafile], and the call on it panics. *)
Definition Get (b : Bitcask) (key : bytes) : result bytes :=
  match trie b !! key with
  | None => Err ErrKeyNotFound
  | Some item =>
      match (if FileID item =? Data.FileID (curr b) then Some (curr b)
             else datafiles b !! FileID item) with
      | None => Panic
      | Some df =>
          e ← Data.ReadAt df (files (dir b)) (Offset item) (Size item);
          if Crc32.ChecksumIEEE (Value e) =? Checksum e then Ok (Value e)
          else Err ErrChecksumFailed
      end
  end.

Definition Has (b : Bitcask) (key : bytes) : bool :=
  bool_decide (is_Some (trie b !! key)).

Definition Len (b : Bitcask) : Z := Z.of_nat (size (trie b)).

(** [put]: rotation when the active segment is at or past the maximum
    datafile size, then the write. *)
Definition put (b : Bitcask) (key value : bytes)
    : Bitcask * result (Z * Z) :=
  let size := Data.Size (curr b) in
  let rotated : Bitcask * result unit :=
    if maxDatafileSize (config b) <=? size then
      match Data.Close (curr b) with
      | Ok _ =>
          let id := Data.FileID (curr b) in
          match Data.NewDatafile (files (dir b)) id true with
          | (fs, Ok df) =>
              let datafiles' := <[id := df]> (datafiles b) in
              let id := wrap_int64 (Data.FileID (curr b) + 1) in
              match Data.NewDatafile fs id false with
              | (fs', Ok curr') =>
                  ({| config := config b; options := options b;
                      dir := set_files (dir b) fs'; curr := curr';
                      datafiles := datafiles'; trie := trie b |}, Ok tt)
              | (fs', Err e) =>
                  ({| config := config b; options := options b;
                      dir := set_files (dir b) fs'; curr := curr b;
                      datafiles := datafiles'; trie := trie b |}, Err e)
              | (fs', Panic) => (b, Panic)
              end
          | (_, Err e) => (b, Err e)
          | (_, Panic) => (b, Panic)
          end
      | Err e => (b, Err e)
      | Panic => (b, Panic)
      end
    else (b, Ok tt) in
  match rotated with
  | (b1, Ok _) =>
      let e := NewEntry key value in
      let '(curr', fs', r) := Data.Write (curr b1) (files (dir b1)) e in
      ({| config := config b1; options := options b1;
          dir := set_files (dir b1) fs'; curr := curr';
          datafiles := datafiles b1; trie := trie b1 |}, r)
  | (b1, Err e) => (b1, Err e)
  | (b1, Panic) => (b1, Panic)
  end.

Definition Put (b : Bitcask) (key value : bytes) : Bitcask * result unit :=
  if maxKeySize (config b) <? len key then (b, Err ErrKeyTooLarge)
  else if maxValueSize (config b) <? len value then (b, Err ErrValueTooLarge)
  else
    match put b key value with
    | (b1, Ok (offset, n)) =>
        match (if sync (config b1) then Data.Sync (curr b1) else Ok tt) with
        | Ok _ =>
            let item := {| FileID := Data.FileID (curr b1); Offset := offset;
                           Size := n |} in
            (set_trie b1 (<[key := item]> (trie b1)), Ok tt)
        | Err e => (b1, Err e)
        | Panic => (b1, Panic)
        end
    | (b1, Err e) => (b1, Err e)
    | (b1, Panic) => (b1, Panic)
    end.

Definition Delete (b : Bitcask) (key : bytes) : Bitcask * result unit :=
  match put b key [] with
  | (b1, Ok _) => (set_trie b1 (delete key (trie b1)), Ok tt)
  | (b1, Err e) => (b1, Err e)
  | (b1, Panic) => (b1, Panic)
  end.

(** [art.Tree.ForEach]: the callback is applied to the nodes in turn until
    it returns [false]; a panic inside it unwinds. *)
Fixpoint ForEach {S : Type} (nodes : list (bytes * Item))
    (callback : bytes * Item -> S -> S * result bool) (s : S)
    : S * result unit :=
  match nodes with
  | [] => (s, Ok tt)
  | node :: rest =>
      match callback node s with
      | (s', Ok true) => ForEach rest callback s'
      | (s', Ok false) => (s', Ok tt)
      | (s', Err e) => (s', Err e)
      | (s', Panic) => (s', Panic)
      end
  end.

Definition has_prefix (prefix key : bytes) : bool :=
  bool_decide (take (length prefix) key = prefix).

(** [art.Tree.ForEachPrefix]. *)
Definition ForEachPrefix {S : Type} (nodes : list (bytes * Item))
    (prefix : bytes) (callback : bytes * Item -> S -> S * result bool)
    (s : S) : S * result unit :=
  ForEach (filter (fun node => has_prefix prefix node.1 = true) nodes)
          callback s.

(** [Scan]. The visitor [f] works on a state [S] of the caller; the
    function's named result [err] is part of the loop state. *)
Definition Scan {S : Type} (b : Bitcask) (prefix : bytes)
    (f : bytes -> S -> S * result unit) (s : S) : S * result unit :=
  let '((s', err), r) :=
    ForEachPrefix (map_to_list (trie b)) prefix
      (fun node '(s, err) =>
         if len node.1 =? 0 then ((s, err), Ok true)
         else
           match f node.1 s with
           | (s', Ok _) => ((s', Ok tt), Ok true)
           | (s', Err e) => ((s', Err e), Ok false)
           | (s', Panic) => ((s', err), Panic)
           end)
      (s, Ok tt) in
  (s', _ ← r; err).

(** [Fold]. *)
Definition Fold {S : Type} (b : Bitcask)
    (f : bytes -> S -> S * result unit) (s : S) : S * result unit :=
  let '(s', r) :=
    ForEach (map_to_list (trie b))
      (fun node s =>
         match f node.1 s with
         | (s', Ok _) => (s', Ok true)
         | (s', Err e) => (s', Ok false)
         | (s', Panic) => (s', Panic)
         end)
      s in
  (s', _ ← r; Ok tt).

(** [reopen]: the replay of one segment.  [i] is the key of the segment in
    the map [datafiles], [ids] the sorted id slice that [ids[i]] indexes.
    Every decoded entry is at least sixteen bytes long, so [fuel] larger
    than the file never runs out. *)
Fixpoint replay (fuel : nat) (ids : list Z) (i : Z) (df : Data.datafile)
    (fs : gmap Z bytes) (offset : Z) (t : gmap bytes Item)
    : Data.datafile * result (gmap bytes Item) :=
  match fuel with
  | O => (df, Err ErrUnexpectedEOF)
  | S fuel' =>
      match Data.Read df fs with
      | (df1, Ok (e, n)) =>
          if len (Value e) =? 0 then
            replay fuel' ids i df1 fs (wrap_int64 (offset + n))
                   (delete (Key e) t)
          else
            match (if i <? 0 then None else ids !! Z.to_nat i) with
            | None => (df1, Panic)   (* index out of range *)
            | Some fileID =>
                let item := {| FileID := fileID; Offset := offset;
                               Size := n |} in
                replay fuel' ids i df1 fs (wrap_int64 (offset + n))
                       (<[Key e := item]> t)
            end
      | (df1, Err EOF) => (df1, Ok t)
      | (df1, Err err) => (df1, Err err)
      | (df1, Panic) => (df1, Panic)
      end
  end.

(** The loop [for i, df := range datafiles], in the order [order]. *)
Fixpoint replay_all (order : list Z) (ids : list Z)
    (datafiles : gmap Z Data.datafile) (fs : gmap Z bytes)
    (t : gmap bytes Item)
    : gmap Z Data.datafile * result (gmap bytes Item) :=
  match order with
  | [] => (datafiles, Ok t)
  | i :: rest =>
      match datafiles !! i with
      | None => replay_all rest ids datafiles fs t
      | Some df =>
          let fuel := S (length (default [] (fs !! Data.id df))) in
          match replay fuel ids i df fs 0 t with
          | (df1, Ok t1) => replay_all rest ids (<[i := df1]> datafiles) fs t1
          | (df1, Err e) => (<[i := df1]> datafiles, Err e)
          | (df1, Panic) => (<[i := df1]> datafiles, Panic)
          end
      end
  end.

(** The loop that opens a sealed handle for every id. *)
Fixpoint open_sealed (ids : list Z) (fs : gmap Z bytes)
    (datafiles : gmap Z Data.datafile) : result (gmap Z Data.datafile) :=
  match ids with
  | [] => Ok datafiles
  | id :: rest =>
      match Data.NewDatafile fs id true with
      | (_, Ok df) => open_sealed rest fs (<[id := df]> datafiles)
      | (_, Err e) => Err e
      | (_, Panic) => Panic
      end
  end.

Definition reopen (mapiter : mapiterT) (b : Bitcask) : Bitcask * result unit :=
  let fs := files (dir b) in
  let ids := ParseIds (dir b) in
  match open_sealed ids fs ∅ with
  | Ok datafiles0 =>
      match Index.ReadFromFile (index_file (dir b)) (maxKeySize (config b))
                               (maxValueSize (config b)) with
      | Ok (t0, found) =>
          let '(datafiles1, rt) :=
            if found then (datafiles0, Ok t0)
            else replay_all (mapiter ids) ids datafiles0 fs t0 in
          match rt with
          | Ok t =>
              let id := match ids with [] => 0 | _ => List.last ids 0 end in
              match Data.NewDatafile fs id false with
              | (fs', Ok curr') =>
                  ({| config := config b; options := options b;
                      dir := set_files (dir b) fs'; curr := curr';
                      datafiles := datafiles1; trie := t |}, Ok tt)
              | (_, Err e) => (b, Err e)
              | (_, Panic) => (b, Panic)
              end
          | Err e => (b, Err e)
          | Panic => (b, Panic)
          end
      | Err e => (b, Err e)
      | Panic => (b, Panic)
      end
  | Err e => (b, Err e)
  | Panic => (b, Panic)
  end.

(** [Close]: the index is written to the [index] file, every handle is
    closed, the lock is released and its file removed. *)
Definition Close (b : Bitcask) : Bitcask * result unit :=
  (set_dir b {| files := files (dir b);
                index_file := Some (WriteIndex (trie b) []);
                config_file := config_file (dir b);
                lock_file := false |},
   Ok tt).

Definition Sync (b : Bitcask) : result unit := Data.Sync (curr b).

(** The loop of [Open] over the option functions. *)
Fixpoint apply_options (opts : list Option) (cfg : configT)
    : configT * result unit :=
  match opts with
  | [] => (cfg, Ok tt)
  | opt :: rest =>
      match opt cfg with
      | (cfg', Ok _) => apply_options rest cfg'
      | (cfg', r) => (cfg', r)
      end
  end.

(** The zero [Bitcask] that [Open] builds before [reopen] fills it;
    [nil_datafile] stands for the nil [curr]. *)
Definition nil_datafile : Data.datafile :=
  {| Data.id := 0; Data.w := false; Data.offset := 0; Data.rpos := 0 |}.

(** [Open] on the directory [d] at the given path: the directory after the
    call and the handle. *)
Definition Open (mapiter : mapiterT) (d : Dir) (opts : list Option)
    : Dir * result Bitcask :=
  let cfg := match getConfig d with Ok cfg => cfg | _ => newDefaultConfig end in
  match apply_options opts cfg with
  | (cfg, Ok _) =>
      if lock_file d then (d, Err ErrDatabaseLocked)
      else
        let d1 := {| files := files d; index_file := index_file d;
                     config_file := Some cfg; lock_file := true |} in
        let bitcask := {| config := cfg; options := opts; dir := d1;
                          curr := nil_datafile; datafiles := ∅; trie := ∅ |} in
        match reopen mapiter bitcask with
        | (b, Ok _) => (dir b, Ok b)
        | (b, Err e) => (dir b, Err e)
        | (b, Panic) => (dir b, Panic)
        end
  | (_, Err e) => (d, Err e)
  | (_, Panic) => (d, Panic)
  end.

(** [Merge].  The merged database lives in a fresh temporary directory;
    after both databases are closed every file of the original directory
    is removed and every file of the temporary one is moved in. *)
Definition Merge (mapiter : mapiterT) (b : Bitcask) : Bitcask * result unit :=
  match Open mapiter empty_dir (options b) with
  | (_, Ok mdb) =>
      let '(mdb, r) :=
        Fold b (fun key mdb =>
                  match Get b key with
                  | Ok value => Put mdb key value
                  | Err e => (mdb, Err e)
                  | Panic => (mdb, Panic)
                  end) mdb in
      match r with
      | Ok _ =>
          match Close mdb with
          | (mdb, Ok _) =>
              match Close b with
              | (b1, Ok _) => reopen mapiter (set_dir b1 (dir mdb))
              | (b1, Err e) => (b1, Err e)
              | (b1, Panic) => (b1, Panic)
              end
          | (_, Err e) => (b, Err e)
          | (_, Panic) => (b, Panic)
          end
      | Err e => (b, Err e)
      | Panic => (b, Panic)
      end
  | (_, Err e) => (b, Err e)
  | (_, Panic) => (b, Panic)
  end.

(** ** dtypes.go *)

Definition GetInt (b : Bitcask) (key : bytes) : result Z :=
  buf ← Get b key;
  let '(value, n) := Binary.Varint buf in
  if n <? 0 then Err ErrDecodeError else Ok value.

Definition PutInt (b : Bitcask) (key : bytes) (value : Z)
    : Bitcask * result unit :=
  let buf := repeat Byte.x00 (Z.to_nat Binary.MaxVarintLen64) in
  match Binary.PutVarint buf value with
  | Ok (buf, _) => Put b key buf
  | Err e => (b, Err e)
  | Panic => (b, Panic)
  end.

Definition GetUint (b : Bitcask) (key : bytes) : result Z :=
  buf ← Get b key;
  let '(value, n) := Binary.Uvarint buf in
  if negb (n =? len buf) then Err ErrDecodeError else Ok value.

Definition PutUint (b : Bitcask) (key : bytes) (value : Z)
    : Bitcask * result unit :=
  let buf := repeat Byte.x00 (Z.to_nat Binary.MaxVarintLen64) in
  match Binary.PutUvarint buf value with
  | Ok (buf, _) => Put b key buf
  | Err e => (b, Err e)
  | Panic => (b, Panic)
  end.

(** ** Sequences of writes, and what the index points to *)

Inductive op : Type :=
  | OpPut (key value : bytes)
  | OpDelete (key : bytes).

Definition op_key (o : op) : bytes :=
  match o with
  | OpPut key _ => key
  | OpDelete key => key
  end.

Definition apply_op (b : Bitcask) (o : op) : Bitcask :=
  match o with
  | OpPut key value => (Put b key value).1
  | OpDelete key => (Delete b key).1
  end.

Definition run (ops : list op) (b : Bitcask) : Bitcask :=
  fold_left apply_op ops b.

(** The frame [put] writes for a key and a value. *)
Definition record (key value : bytes) : bytes :=
  Data.frame (NewEntry key value).

(** The item [it] locates the record of [key] and [value] in the segment
    files [fs]. *)
Definition record_at (fs : gmap Z bytes) (it : Item) (key value : bytes)
    : Prop :=
  exists c,
    fs !! FileID it = Some c
    /\ 0 <= Offset it
    /\ Size it = len (record key value)
    /\ Offset it + Size it <= len c
    /\ take (Z.to_nat (Size it)) (drop (Z.to_nat (Offset it)) c)
       = record key value.

(** [Get] finds a handle for the segment of [it]. *)
Definition handle_for (b : Bitcask) (it : Item) : Prop :=
  FileID it = Data.id (curr b)
  \/ exists df, datafiles b !! FileID it = Some df /\ Data.id df = FileID it.

(** The index of [b] binds [key] to a record that holds [value]. *)
Definition live (b : Bitcask) (key value : bytes) : Prop :=
  exists it,
    trie b !! key = Some it
    /\ handle_for b it
    /\ record_at (files (dir b)) it key value
    /\ len key < 2 ^ 32
    /\ len value < 2 ^ 64.

(** The active segment is writable and its tail is the end of its file. *)
Definition curr_ok (b : Bitcask) : Prop :=
  Data.w (curr b) = true
  /\ exists c,
       files (dir b) !! Data.id (curr b) = Some c
       /\ Data.offset (curr b) = len c.

(** The rotation branch of [put], on its own: [put] is this step followed
    by the write (lemma [put_rotate]). *)
Definition rotate (b : Bitcask) : Bitcask * result unit :=
  if maxDatafileSize (config b) <=? Data.Size (curr b) then
    let id := Data.FileID (curr b) in
    match Data.NewDatafile (files (dir b)) id true with
    | (fs, Ok df) =>
        let datafiles' := <[id := df]> (datafiles b) in
        let id := wrap_int64 (Data.FileID (curr b) + 1) in
        match Data.NewDatafile fs id false with
        | (fs', Ok curr') =>
            ({| config := config b; options := options b;
                dir := set_files (dir b) fs'; curr := curr';
                datafiles := datafiles'; trie := trie b |}, Ok tt)
        | (fs', Err e) =>
            ({| config := config b; options := options b;
                dir := set_files (dir b) fs'; curr := curr b;
                datafiles := datafiles'; trie := trie b |}, Err e)
        | (fs', Panic) => (b, Panic)
        end
    | (_, Err e) => (b, Err e)
    | (_, Panic) => (b, Panic)
    end
  else (b, Ok tt).

(** Every file of [fs] is still in [fs'], with bytes appended at most. *)
Definition grows (fs fs' : gmap Z bytes) : Prop :=
  forall i c, fs !! i = Some c -> exists c', fs' !! i = Some (c ++ c').

(** ** A small database for the examples *)

Definition asc : mapiterT := fun ids => ids.

(** The database [Open] returns on an empty directory when the options
    [opts] produce the configuration [cfg]. *)
Definition empty_db (cfg : configT) (opts : list Option) : Bitcask :=
  {| config := cfg; options := opts;
     dir := {| files := {[ 0 := [] ]}; index_file := None;
               config_file := Some cfg; lock_file := true |};
     curr := {| Data.id := 0; Data.w := true; Data.offset := 0;
                Data.rpos := 0 |};
     datafiles := ∅; trie := ∅ |}.

(** The same without options. *)
Definition fresh_db : Bitcask := empty_db newDefaultConfig [].

Definition key_a : bytes := [Byte.x61].
Definition key_b : bytes := [Byte.x62].
Definition val_1 : bytes := [Byte.x31].
Definition val_2 : bytes := [Byte.x32].

(** The database [Open] returns on an empty directory with a maximum
    datafile size of one byte, and the same after a first [Put]. *)
Definition tiny_db : Bitcask :=
  empty_db (WithMaxDatafileSize 1 newDefaultConfig).1 [WithMaxDatafileSize 1].

Definition tiny_db_a : Bitcask := (Put tiny_db key_a val_1).1.

(** A record whose key and value differ in length: key [a], value [12]. *)
Definition sample_entry : Entry := NewEntry key_a [Byte.x31; Byte.x32].

Definition zero_entry : Entry := mkEntry 0 [] 0 [].

(** A run time whose [range] visits the keys of a map from the largest
    to the smallest. *)
Definition desc : mapiterT := fun ids => rev ids.

(** The directory without its [index] file. *)
Definition remove_index (d : Dir) : Dir :=
  {| files := files d; index_file := None; config_file := config_file d;
     lock_file := lock_file d |}.

(** [tiny_db] after [Put(a, 1)] and [Put(a, 2)]: the second write rotates,
    so the two records are in the segments 0 and 1. *)
Definition tiny_db_a2 : Bitcask := (Put tiny_db_a key_a val_2).1.

(** ** Two inputs for Merge *)

Definition val_12 : bytes := [Byte.x31; Byte.x32].

(** The directory of a database that holds the key [a] with the two-byte
    value [12], was closed, and has lost its [index] file. *)
Definition narrowed_dir : Dir :=
  remove_index (dir (Close (Put fresh_db key_a val_12).1).1).

(** The database after [Put(a, 1)] when the value byte of the record in
    segment 0 has been overwritten on disk: the record now holds the
    value [2] with the checksum of [1]. *)
Definition corrupted_db : Bitcask :=
  let b := (Put fresh_db key_a val_1).1 in
  set_dir b
    (set_files (dir b)
       {[ 0 := take 13 (record key_a val_1) ++ val_2
               ++ drop 14 (record key_a val_1) ]}).

(** ** The invariant of an open database *)

(** The bytes of the records the index points to. *)
Definition live_bytes (t : gmap bytes Item) : Z := sum_map Size t.

(** The limits leave room for the frame: the key length fits the four
    bytes of its prefix, and a segment that was below the rotation
    threshold can take one more record of the largest size. *)
Definition config_sane (cfg : configT) : Prop :=
  maxKeySize cfg < 2 ^ 32
  /\ Z.max 0 (maxDatafileSize cfg) + 16 + maxKeySize cfg + maxValueSize cfg
     <= max_int64.

(** Every binding of the index locates a record of its key, within the
    configured sizes, in a segment [Get] has a handle for; the records
    the index points to are no more than the bytes of the segments; and
    the configuration is the one the options of the handle produce. *)
Definition wf (b : Bitcask) : Prop :=
  curr_ok b
  /\ (forall key it, trie b !! key = Some it ->
      exists value,
        handle_for b it /\ record_at (files (dir b)) it key value
        /\ len key <= maxKeySize (config b)
        /\ len value <= maxValueSize (config b))
  /\ live_bytes (trie b) <= data_bytes (dir b)
  /\ config_sane (config b)
  /\ apply_options (options b) newDefaultConfig = (config b, Ok tt).

(** ** Merge, step by step *)

(** The bytes [WriteIndex] writes for one binding. *)
Definition binding (node : bytes * Item) : bytes :=
  Binary.PutUint32 (wrap_uint32 (len node.1)) ++ node.1
  ++ Binary.PutUint32 (wrap_uint32 (FileID node.2))
  ++ Binary.PutUint64 (wrap_uint64 (Offset node.2))
  ++ Binary.PutUint64 (wrap_uint64 (Size node.2)).

(** A binding that survives the write and the validated read of the
    index: its key and record sizes are within the limits and its numbers
    fit the widths of the index codec. *)
Definition binding_ok (maxKeySize maxValueSize : Z) (node : bytes * Item)
    : Prop :=
  len node.1 <= maxKeySize /\ len node.1 < 2 ^ 32
  /\ 0 <= FileID node.2 < 2 ^ 32
  /\ - 2 ^ 63 <= Offset node.2 < 2 ^ 63
  /\ - 2 ^ 63 <= Size node.2 < 2 ^ 63
  /\ Size node.2 <= 16 + maxKeySize + maxValueSize.

(** The callback [Fold] hands to the tree when [Merge] calls it. *)
Definition merge_callback (b : Bitcask) (node : bytes * Item) (mdb : Bitcask)
    : Bitcask * result bool :=
  match (match Get b node.1 with
         | Ok value => Put mdb node.1 value
         | Err e => (mdb, Err e)
         | Panic => (mdb, Panic)
         end) with
  | (s', Ok _) => (s', Ok true)
  | (s', Err e) => (s', Ok false)
  | (s', Panic) => (s', Panic)
  end.

(** What holds of the merged database after [Merge] has copied the keys
    [done]: its segments hold one record a key and nothing else, the ids
    of its segments are the numbers up to the active one, and every key
    copied locates the value [Get] returned for it. *)
Definition merge_inv (b mdb : Bitcask) (done : list bytes) : Prop :=
  config mdb = config b /\ curr_ok mdb
  /\ 0 <= Data.id (curr mdb) <= Z.of_nat (length done)
  /\ (forall i c, files (dir mdb) !! i = Some c ->
      0 <= i <= Data.id (curr mdb) /\ len c <= max_int64)
  /\ data_bytes (dir mdb) = live_bytes (trie mdb)
  /\ (forall k, is_Some (trie mdb !! k) <-> k ∈ done)
  /\ (forall k it, trie mdb !! k = Some it ->
      exists v itb,
        trie b !! k = Some itb /\ Size it = Size itb /\ Get b k = Ok v
        /\ record_at (files (dir mdb)) it k v
        /\ len k <= maxKeySize (config b)
        /\ len v <= maxValueSize (config b)).

(** ** internal/keydir.go *)

Module Keydir.

(** The struct [Keydir]: a map from keys (Go strings, that is byte
    sequences) to items, behind a lock. *)
Record Keydir : Type := mkKeydir {
  kv : gmap bytes Item;
}.

Definition NewKeydir : Keydir := {| kv := ∅ |}.

Definition Add (k : Keydir) (key : bytes) (fileid offset size : Z)
    : Keydir * Item :=
  let item := {| FileID := fileid; Offset := offset; Size := size |} in
  ({| kv := <[key := item]> (kv k) |}, item).

(** A missing key gives the zero [Item] and [false]. *)
Definition Get (k : Keydir) (key : bytes) : Item * bool :=
  match kv k !! key with
  | Some item => (item, true)
  | None => ({| FileID := 0; Offset := 0; Size := 0 |}, false)
  end.

Definition Delete (k : Keydir) (key : bytes) : Keydir :=
  {| kv := delete key (kv k) |}.

Definition Len (k : Keydir) : Z := Z.of_nat (size (kv k)).

(** [Keys]: the keys sent on the channel, in the order [iter] in which
    the run time ranges over the map. *)
Definition Keys (iter : list bytes -> list bytes) (k : Keydir) : list bytes :=
  iter (map fst (map_to_list (kv k))).

End Keydir.

(** ** Enumerating the keys of the store *)

(** [Keys] of bitcask.go: the keys sent on the channel, the key of length
    zero left out. *)
Definition Keys (b : Bitcask) : list bytes :=
  filter (fun key => len key <> 0) (map fst (map_to_list (trie b))).

(** Calling a visitor on keys in turn, up to its first error. *)
Fixpoint visit {S : Type} (keys : list bytes)
    (f : bytes -> S -> S * result unit) (s : S) : S * result unit :=
  match keys with
  | [] => (s, Ok tt)
  | key :: rest =>
      match f key s with
      | (s', Ok _) => visit rest f s'
      | (s', Err e) => (s', Err e)
      | (s', Panic) => (s', Panic)
      end
  end.

(** The keys of the index in the order the tree enumerates them. *)
Definition tree_keys (b : Bitcask) : list bytes :=
  map fst (map_to_list (trie b)).

(** The keys [Scan] hands to its visitor: those with the prefix, the key
    of length zero left out. *)
Definition scanned (b : Bitcask) (prefix : bytes) : list bytes :=
  filter (fun key => len key <> 0)
    (filter (fun key => has_prefix prefix key = true) (tree_keys b)).

(** ** A frame that was cut *)

(** The error the two decoders return for a frame of which only the first
    [n] bytes are there: a cut inside the twelve bytes of the length
    prefixes is the error of the first [io.ReadFull], returned as it is;
    a cut after them is the error of the second one, translated and
    wrapped. *)
Definition cut_error (n : Z) : error :=
  if n <? 12 then ErrUnexpectedEOF
  else Wrap ErrUnexpectedEOF FailedReadingSavedData.

(** ** What the index codec can hold *)

(** A binding whose numbers fit the widths of the index codec. *)
Definition fits_index (node : bytes * Item) : Prop :=
  len node.1 < 2 ^ 32
  /\ 0 <= FileID node.2 < 2 ^ 32
  /\ - 2 ^ 63 <= Offset node.2 < 2 ^ 63
  /\ - 2 ^ 63 <= Size node.2 < 2 ^ 63.

(** Every segment has an id the index codec can hold and a size the file
    system allows. *)
Definition segments_fit (b : Bitcask) : Prop :=
  forall i c, files (dir b) !! i = Some c ->
    0 <= i < 2 ^ 32 /\ len c <= max_int64.

(** ** The segments as logs of records *)

(** The bytes of a segment that holds the records [recs], a record being
    a key and a value. *)
Definition encode_log (recs : list (bytes * bytes)) : bytes :=
  concat (map (fun r => record r.1 r.2) recs).

(** What the replay of [reopen] does with the record [r] found at
    [offset] of the segment [fileID]: a record with an empty value erases
    the key, any other record binds it. *)
Definition index_record (fileID offset : Z) (r : bytes * bytes)
    (t : gmap bytes Item) : gmap bytes Item :=
  if len r.2 =? 0 then delete r.1 t
  else <[r.1 := {| FileID := fileID; Offset := offset;
                   Size := len (record r.1 r.2) |}]> t.

(** The same for the records of one segment, from [offset] on. *)
Fixpoint index_segment (fileID : Z) (recs : list (bytes * bytes)) (offset : Z)
    (t : gmap bytes Item) : gmap bytes Item :=
  match recs with
  | [] => t
  | r :: rest =>
      index_segment fileID rest (offset + len (record r.1 r.2))
                    (index_record fileID offset r t)
  end.

(** The same for the segments [i], [i + 1], ... in this order. *)
Fixpoint index_from (i : Z) (logs : list (list (bytes * bytes)))
    (t : gmap bytes Item) : gmap bytes Item :=
  match logs with
  | [] => t
  | recs :: rest => index_from (i + 1) rest (index_segment i recs 0 t)
  end.

(** The segment files of [b] are the logs [logs], numbered from zero, the
    last one being the active segment; every sealed segment has a
    handle. *)
Definition seg_inv (b : Bitcask) (logs : list (list (bytes * bytes))) : Prop :=
  curr_ok b
  /\ Z.of_nat (length logs) = Data.id (curr b) + 1
  /\ files (dir b) = map_seqZ 0 (encode_log <$> logs)
  /\ (forall i, 0 <= i < Data.id (curr b) ->
      exists df, datafiles b !! i = Some df /\ Data.id df = i)
  /\ Forall (Forall (fun r : bytes * bytes => len r.1 < 2 ^ 32)) logs
  /\ Forall (fun recs => len (encode_log recs) <= max_int64) logs.

(** Moreover the index of [b] is the one a replay of the logs in id
    order builds. *)
Definition logged (b : Bitcask) (logs : list (list (bytes * bytes))) : Prop :=
  seg_inv b logs
  /\ trie b = index_from 0 logs ∅
  /\ (forall k it, trie b !! k = Some it ->
      0 <= FileID it < Z.of_nat (length logs)).

(** The writes whose record the replay reads as the write meant it: the
    key length fits its four-byte prefix, and a [Put] has a value that is
    not empty. *)
Definition op_ok (o : op) : Prop :=
  match o with
  | OpPut key value => len key < 2 ^ 32 /\ value <> []
  | OpDelete key => len key < 2 ^ 32
  end.

(** * Properties *)

Example crc32_check :
  Crc32.ChecksumIEEE
    [Byte.x31; Byte.x32; Byte.x33; Byte.x34; Byte.x35; Byte.x36; Byte.x37;
     Byte.x38; Byte.x39] = 0xcbf43926.
Proof. vm_compute. reflexivity. Qed.

(** ** Bytes and big-endian integers *)

Section BytesFacts.

Lemma Z_of_byte_range (b : byte) : 0 <= Z_of_byte b < 256.
Proof.
  unfold Z_of_byte. pose proof (Byte.to_N_bounded b). lia.
Qed.

Lemma Z_of_byte_of_Z (z : Z) : Z_of_byte (byte_of_Z z) = z mod 256.
Proof.
  unfold Z_of_byte, byte_of_Z.
  assert (Hr : 0 <= z mod 256 < 256) by (apply Z.mod_pos_bound; lia).
  destruct (Byte.of_N (Z.to_N (z mod 256))) as [b|] eqn:E.
  - apply Byte.to_of_N in E. simpl. rewrite E. lia.
  - apply Byte.of_N_None_iff in E. lia.
Qed.

Lemma len_app (a b : bytes) : len (a ++ b) = len a + len b.
Proof. unfold len. rewrite length_app. lia. Qed.

Lemma len_nonneg (a : bytes) : 0 <= len a.
Proof. unfold len. lia. Qed.

Lemma lor_shiftl_8 (acc x : Z) :
  0 <= x < 256 -> Z.lor (Z.shiftl acc 8) x = acc * 256 + x.
Proof.
  intros Hx. rewrite <- Z.add_nocarry_lor.
  - rewrite Z.shiftl_mul_pow2 by lia. reflexivity.
  - apply Z.bits_inj'. intros n Hn.
    rewrite Z.land_spec, Z.bits_0.
    destruct (Z.ltb_spec n 8).
    + rewrite Z.shiftl_spec_low by lia. reflexivity.
    + replace (Z.testbit x n) with false; [apply andb_false_r|].
      symmetry. destruct (Z.eq_dec x 0) as [->|].
      * apply Z.bits_0.
      * apply Z.bits_above_log2; [lia|].
        apply Z.log2_lt_pow2; [lia|].
        apply Z.lt_le_trans with (2 ^ 8); [simpl; lia|].
        apply Z.pow_le_mono_r; lia.
Qed.

Lemma be_value_snoc (l : bytes) (x : byte) :
  Binary.be_value (l ++ [x]) = Binary.be_value l * 256 + Z_of_byte x.
Proof.
  unfold Binary.be_value. rewrite fold_left_app. simpl.
  apply lor_shiftl_8, Z_of_byte_range.
Qed.

Lemma be_bytes_length (n : nat) (v : Z) : length (Binary.be_bytes n v) = n.
Proof.
  revert v. induction n as [|n IH]; intros v; simpl; [reflexivity|].
  rewrite length_app, IH. simpl. lia.
Qed.

Lemma be_value_be_bytes (n : nat) (v : Z) :
  Binary.be_value (Binary.be_bytes n v) = v mod 2 ^ (8 * Z.of_nat n).
Proof.
  revert v. induction n as [|n IH]; intros v.
  - simpl. rewrite Z.mod_1_r. reflexivity.
  - cbn [Binary.be_bytes]. rewrite be_value_snoc, IH, Z_of_byte_of_Z.
    rewrite Z.shiftr_div_pow2 by lia.
    replace (8 * Z.of_nat (S n)) with (8 + 8 * Z.of_nat n) by lia.
    rewrite Z.pow_add_r by lia.
    change (2 ^ 8) with 256.
    rewrite (Z.rem_mul_r v 256 (2 ^ (8 * Z.of_nat n))) by lia.
    lia.
Qed.

Lemma Uint32_PutUint32 (v : Z) :
  0 <= v < 2 ^ 32 -> Binary.Uint32 (Binary.PutUint32 v) = v.
Proof.
  intros Hv. unfold Binary.Uint32, Binary.PutUint32.
  rewrite firstn_all2 by (rewrite be_bytes_length; lia).
  rewrite be_value_be_bytes. apply Z.mod_small. simpl. lia.
Qed.

Lemma Uint64_PutUint64 (v : Z) :
  0 <= v < 2 ^ 64 -> Binary.Uint64 (Binary.PutUint64 v) = v.
Proof.
  intros Hv. unfold Binary.Uint64, Binary.PutUint64.
  rewrite firstn_all2 by (rewrite be_bytes_length; lia).
  rewrite be_value_be_bytes. apply Z.mod_small. simpl. lia.
Qed.

Lemma len_PutUint32 (v : Z) : len (Binary.PutUint32 v) = 4.
Proof. unfold len, Binary.PutUint32. rewrite be_bytes_length. reflexivity. Qed.

Lemma len_PutUint64 (v : Z) : len (Binary.PutUint64 v) = 8.
Proof. unfold len, Binary.PutUint64. rewrite be_bytes_length. reflexivity. Qed.

Lemma slice_app_mid (a b c : bytes) (lo hi : Z) :
  lo = len a -> hi = len a + len b -> slice (a ++ b ++ c) lo hi = Ok b.
Proof.
  intros -> ->. unfold slice.
  pose proof (len_nonneg a). pose proof (len_nonneg b).
  pose proof (len_nonneg c).
  rewrite !len_app.
  replace ((0 <=? len a) && (len a <=? len a + len b)
           && (len a + len b <=? len a + (len b + len c))) with true
    by (symmetry; rewrite !andb_true_iff, !Z.leb_le; lia).
  f_equal. unfold len.
  rewrite Nat2Z.id, drop_app_length.
  replace (Z.to_nat (Z.of_nat (length a) + Z.of_nat (length b) - Z.of_nat (length a)))
    with (length b) by lia.
  apply take_app_length.
Qed.

Lemma slice_app_fst (b c : bytes) (hi : Z) :
  hi = len b -> slice (b ++ c) 0 hi = Ok b.
Proof. intros ->. apply (slice_app_mid [] b c); reflexivity. Qed.

Lemma slice_app_snd (a b : bytes) (lo hi : Z) :
  lo = len a -> hi = len a + len b -> slice (a ++ b) lo hi = Ok b.
Proof.
  intros. rewrite <- (app_nil_r b) at 1. apply slice_app_mid; assumption.
Qed.

End BytesFacts.

(** ** The checksum fits thirty-two bits *)

Section Crc32Facts.

Lemma lxor_range (n a b : Z) :
  0 <= n -> 0 <= a < 2 ^ n -> 0 <= b < 2 ^ n -> 0 <= Z.lxor a b < 2 ^ n.
Proof.
  intros Hn Ha Hb.
  assert (Hnn : 0 <= Z.lxor a b) by (apply Z.lxor_nonneg; lia).
  split; [assumption|].
  destruct (Z.eq_dec (Z.lxor a b) 0) as [->|Hx]; [lia|].
  apply Z.log2_lt_pow2; [lia|].
  eapply Z.le_lt_trans; [apply Z.log2_lxor; lia|].
  destruct (Z.eq_dec a 0) as [->|]; destruct (Z.eq_dec b 0) as [->|].
  - rewrite Z.lxor_0_l in Hx. lia.
  - rewrite Z.max_r by (apply Z.log2_nonneg). apply Z.log2_lt_pow2; lia.
  - rewrite Z.max_l by (apply Z.log2_nonneg). apply Z.log2_lt_pow2; lia.
  - apply Z.max_lub_lt; apply Z.log2_lt_pow2; lia.
Qed.

Lemma step_range (c : Z) : 0 <= c < 2 ^ 32 -> 0 <= Crc32.step c < 2 ^ 32.
Proof.
  intros Hc. unfold Crc32.step.
  assert (Hs : 0 <= Z.shiftr c 1 < 2 ^ 32).
  { rewrite Z.shiftr_div_pow2 by lia. change (2 ^ 1) with 2.
    split; [apply Z.div_pos; lia|].
    apply Z.div_lt_upper_bound; lia. }
  destruct (Z.testbit c 0); [|assumption].
  apply lxor_range; [lia|assumption|].
  unfold Crc32.IEEE. simpl. lia.
Qed.

Lemma update_range (c : Z) (b : byte) :
  0 <= c < 2 ^ 32 -> 0 <= Crc32.update c b < 2 ^ 32.
Proof.
  intros Hc. unfold Crc32.update.
  assert (H0 : 0 <= Z.lxor c (Z_of_byte b) < 2 ^ 32).
  { apply lxor_range; [lia|assumption|].
    pose proof (Z_of_byte_range b). simpl. lia. }
  generalize dependent (Z.lxor c (Z_of_byte b)). intros x Hx.
  do 8 (try apply step_range). exact Hx.
Qed.

Lemma ChecksumIEEE_range (data : bytes) :
  0 <= Crc32.ChecksumIEEE data < 2 ^ 32.
Proof.
  unfold Crc32.ChecksumIEEE.
  apply lxor_range; [lia| |simpl; lia].
  assert (H : 0 <= 0xffffffff < 2 ^ 32) by (simpl; lia).
  revert H. generalize 0xffffffff. induction data as [|b data IH]; intros c Hc.
  - exact Hc.
  - simpl. apply IH, update_range, Hc.
Qed.

End Crc32Facts.

(** ** Reading a record back *)

Section RecordFacts.

Lemma len_record (key value : bytes) :
  len (record key value) = 16 + len key + len value.
Proof.
  unfold record, Data.frame. cbn [Key Value Checksum NewEntry].
  rewrite !len_app, !len_PutUint32, len_PutUint64. lia.
Qed.

Lemma getKeyValueSizes_record (key value : bytes) (sum : bytes) :
  len key < 2 ^ 32 -> len value < 2 ^ 64 ->
  Data.getKeyValueSizes
    (Binary.PutUint32 (wrap_uint32 (len key))
     ++ Binary.PutUint64 (wrap_uint64 (len value)) ++ key ++ value ++ sum)
  = Ok (len key, len value).
Proof.
  intros Hk Hv. unfold Data.getKeyValueSizes.
  pose proof (len_nonneg key). pose proof (len_nonneg value).
  rewrite slice_app_fst by (rewrite len_PutUint32; reflexivity).
  cbn [mbind result_bind].
  rewrite slice_app_snd
    by (rewrite ?len_app, ?len_PutUint32; reflexivity).
  cbn [mbind result_bind].
  rewrite !len_app, len_PutUint64.
  pose proof (len_nonneg sum).
  destruct (Z.ltb_spec (8 + (len key + (len value + len sum))) Data.valueSize)
    as [Hlt|_]; [unfold Data.valueSize in Hlt; lia|].
  f_equal. f_equal.
  - unfold wrap_uint32. rewrite Z.mod_small by lia.
    apply Uint32_PutUint32. lia.
  - unfold Binary.Uint64.
    rewrite take_app_length'
      by (unfold Binary.PutUint64; symmetry; apply be_bytes_length).
    unfold wrap_uint64. rewrite Z.mod_small by lia.
    pose proof (Uint64_PutUint64 (len value)) as Hu.
    unfold Binary.Uint64 in Hu.
    rewrite firstn_all2 in Hu
      by (unfold Binary.PutUint64; rewrite be_bytes_length; lia).
    apply Hu. lia.
Qed.

Lemma decodeWithoutPrefix_payload (key value : bytes) (sum v0 : Z) (e0 : Entry) :
  0 <= sum < 2 ^ 32 ->
  Data.decodeWithoutPrefix (key ++ value ++ Binary.PutUint32 sum) (len key) e0
  = Ok {| Checksum := sum; Key := key; EOffset := EOffset e0; Value := value |}.
Proof.
  intros Hs. unfold Data.decodeWithoutPrefix.
  rewrite slice_app_fst by reflexivity. cbn [mbind result_bind].
  rewrite !len_app, len_PutUint32. unfold Data.checksumSize.
  rewrite (slice_app_mid key value _ (len key)) by lia.
  cbn [mbind result_bind].
  rewrite app_assoc.
  rewrite slice_app_snd by (rewrite ?len_app, ?len_PutUint32; lia).
  cbn [mbind result_bind].
  rewrite Uint32_PutUint32 by assumption. reflexivity.
Qed.

Lemma ReadAt_record (df : Data.datafile) (fs : gmap Z bytes) (it : Item)
    (key value : bytes) :
  Data.id df = FileID it -> record_at fs it key value ->
  len key < 2 ^ 32 -> len value < 2 ^ 64 ->
  Data.ReadAt df fs (Offset it) (Size it)
  = Ok {| Checksum := Crc32.ChecksumIEEE value; Key := key; EOffset := 0;
          Value := value |}.
Proof.
  intros Hid (c & Hc & Hoff & Hsz & Hend & Hrec) Hk Hv.
  unfold Data.ReadAt. rewrite Hid, Hc.
  pose proof (len_record key value) as Hlen.
  pose proof (len_nonneg key). pose proof (len_nonneg value).
  destruct (Z.ltb_spec (Size it) 0); [lia|].
  destruct (Z.ltb_spec (Offset it) 0); [lia|].
  destruct (Z.ltb_spec (len c) (Offset it + Size it)); [lia|].
  rewrite Hrec. unfold record, Data.frame. cbn [Key Value Checksum NewEntry].
  rewrite getKeyValueSizes_record by assumption.
  cbn [mbind result_bind].
  rewrite (app_assoc (Binary.PutUint32 _) (Binary.PutUint64 _)).
  rewrite slice_app_snd.
  - cbn [mbind result_bind].
    apply (decodeWithoutPrefix_payload key value _ 0 (mkEntry 0 [] 0 [])).
    apply ChecksumIEEE_range.
  - rewrite len_app, len_PutUint32, len_PutUint64. reflexivity.
  - rewrite !len_app, len_PutUint32, len_PutUint64. lia.
Qed.

Lemma Get_live (b : Bitcask) (key value : bytes) :
  live b key value -> Get b key = Ok value.
Proof.
  intros (it & Hit & Hh & Hrec & Hk & Hv). unfold Get. rewrite Hit.
  assert (Hdf : exists df,
             (if FileID it =? Data.FileID (curr b) then Some (curr b)
              else datafiles b !! FileID it) = Some df
             /\ Data.id df = FileID it).
  { unfold Data.FileID.
    destruct (Z.eqb_spec (FileID it) (Data.id (curr b))) as [E|NE].
    - eexists; split; [reflexivity|]. symmetry; exact E.
    - destruct Hh as [E|(df & Hdf & Hid)]; [contradiction|].
      exists df. split; assumption. }
  destruct Hdf as (df & -> & Hid).
  rewrite (ReadAt_record df _ it key value) by assumption.
  cbn [mbind result_bind Value Checksum].
  rewrite Z.eqb_refl. reflexivity.
Qed.

End RecordFacts.

(** ** Writes: rotation, append, and what they keep *)

Lemma wrap_int64_small (z : Z) : - 2 ^ 63 <= z <= max_int64 -> wrap_int64 z = z.
Proof.
  intros H. unfold wrap_int64, max_int64 in *. rewrite Z.mod_small; lia.
Qed.

Lemma Write_spec (df : Data.datafile) (fs : gmap Z bytes) (e : Entry) df' fs' r :
  Data.Write df fs e = (df', fs', r) ->
  Data.id df' = Data.id df /\ Data.w df' = Data.w df /\
  (forall i c, fs !! i = Some c -> exists c', fs' !! i = Some (c ++ c')) /\
  (forall i, fs' !! i = None -> fs !! i = None) /\
  match r with
  | Ok (off, n) =>
      Data.w df = true /\ off = Data.offset df /\ n = len (Data.frame e)
      /\ exists c, fs !! Data.id df = Some c
           /\ fs' = <[Data.id df := c ++ Data.frame e]> fs
           /\ len c + len (Data.frame e) <= max_int64
           /\ Data.offset df' = wrap_int64 (Data.offset df + n)
  | Err _ => df' = df /\ forall i, fs' !! i = fs !! i
  | Panic => False
  end.
Proof.
  unfold Data.Write, Data.encode. intros H.
  assert (Hnil : forall (m : gmap Z bytes) i c, m !! i = Some c ->
                   exists c', m !! i = Some (c ++ c')).
  { intros m i c Hc. exists []. by rewrite app_nil_r. }
  destruct (Data.w df) eqn:Hw; cbn [negb] in H.
  2:{ injection H as <- <- <-. repeat split; eauto. }
  destruct (fs !! Data.id df) as [c|] eqn:Hc.
  2:{ injection H as <- <- <-. repeat split; eauto. }
  unfold Data.frame in *. cbn [Key Value Checksum] in *.
  set (fr := Binary.PutUint32 _ ++ _) in *.
  destruct (Z.ltb_spec max_int64 (len c + len fr)) as [Hbig|Hfit];
    injection H as <- <- <-.
  - rewrite insert_id by assumption. repeat split; eauto.
  - cbn [Data.id Data.w Data.offset].
    assert (Hn : wrap_int64 (Data.keySize + Data.valueSize + len (Key e)
                             + len (Value e) + Data.checksumSize) = len fr).
    { subst fr. rewrite !len_app, !len_PutUint32, len_PutUint64.
      pose proof (len_nonneg (Key e)). pose proof (len_nonneg (Value e)).
      pose proof (len_nonneg c).
      rewrite !len_app, !len_PutUint32, len_PutUint64 in Hfit.
      unfold Data.keySize, Data.valueSize, Data.checksumSize.
      rewrite wrap_int64_small; unfold max_int64 in *; lia. }
    rewrite Hn.
    split; [reflexivity|]. split; [reflexivity|].
    split.
    { intros i c' Hc'.
      destruct (decide (i = Data.id df)) as [->|].
      - rewrite lookup_insert_eq. exists fr. congruence.
      - rewrite lookup_insert_ne by congruence. eauto. }
    split.
    { intros i.
      destruct (decide (i = Data.id df)) as [->|].
      - rewrite lookup_insert_eq. discriminate.
      - rewrite lookup_insert_ne by congruence. done. }
    repeat split; eauto 10.
Qed.

Lemma grows_refl (fs : gmap Z bytes) : grows fs fs.
Proof. intros i c Hc. exists []. by rewrite app_nil_r. Qed.

Lemma grows_trans (fs1 fs2 fs3 : gmap Z bytes) :
  grows fs1 fs2 -> grows fs2 fs3 -> grows fs1 fs3.
Proof.
  intros H12 H23 i c Hc.
  destruct (H12 i c Hc) as (c1 & Hc1).
  destruct (H23 i _ Hc1) as (c2 & Hc2).
  exists (c1 ++ c2). by rewrite app_assoc.
Qed.

Lemma grows_insert_new (fs : gmap Z bytes) (i : Z) (c : bytes) :
  fs !! i = None -> grows fs (<[i := c]> fs).
Proof.
  intros Hi j cj Hj. exists [].
  rewrite app_nil_r, lookup_insert_ne; [assumption|congruence].
Qed.

Lemma record_at_grows (fs fs' : gmap Z bytes) (it : Item) (key value : bytes) :
  grows fs fs' -> record_at fs it key value -> record_at fs' it key value.
Proof.
  intros Hg (c & Hc & Hoff & Hsz & Hend & Hrec).
  destruct (Hg _ _ Hc) as (c' & Hc').
  exists (c ++ c'). repeat split; try assumption.
  - rewrite len_app. pose proof (len_nonneg c'). lia.
  - rewrite <- Hrec. pose proof (len_nonneg (record key value)).
    unfold len in Hend.
    rewrite drop_app_le by lia.
    rewrite take_app_le; [reflexivity|].
    rewrite length_drop. lia.
Qed.

Lemma put_rotate (b : Bitcask) (key value : bytes) :
  put b key value =
  match rotate b with
  | (b1, Ok _) =>
      let '(curr', fs', r) :=
        Data.Write (curr b1) (files (dir b1)) (NewEntry key value) in
      ({| config := config b1; options := options b1;
          dir := set_files (dir b1) fs'; curr := curr';
          datafiles := datafiles b1; trie := trie b1 |}, r)
  | (b1, Err e) => (b1, Err e)
  | (b1, Panic) => (b1, Panic)
  end.
Proof.
  unfold put, rotate, Data.Close.
  repeat case_match; simplify_eq; reflexivity.
Qed.

Ltac split_all :=
  repeat match goal with |- _ /\ _ => split end.

(** What every rotation step keeps. *)
Lemma rotate_keeps (b b1 : Bitcask) (r1 : result unit) :
  rotate b = (b1, r1) ->
  trie b1 = trie b /\ config b1 = config b /\ options b1 = options b
  /\ index_file (dir b1) = index_file (dir b)
  /\ config_file (dir b1) = config_file (dir b)
  /\ lock_file (dir b1) = lock_file (dir b)
  /\ grows (files (dir b)) (files (dir b1))
  /\ (forall it, handle_for b it -> handle_for b1 it)
  /\ (curr_ok b -> curr_ok b1 /\ r1 = Ok tt).
Proof.
  unfold rotate, Data.NewDatafile, Data.FileID. intros H.
  destruct (maxDatafileSize (config b) <=? Data.Size (curr b)).
  2:{ injection H as <- <-. split_all; auto using grows_refl. }
  destruct (files (dir b) !! Data.id (curr b)) as [c|] eqn:Hc; cbn [negb] in H.
  2:{ injection H as <- <-. split_all; auto using grows_refl.
      intros (_ & c & Hc' & _). congruence. }
  assert (Hh : forall curr' fs',
             forall it, handle_for b it ->
             handle_for {| config := config b; options := options b;
                           dir := set_files (dir b) fs'; curr := curr';
                           datafiles := <[Data.id (curr b) :=
                              {| Data.id := Data.id (curr b); Data.w := false;
                                 Data.offset := len c; Data.rpos := 0 |}]>
                              (datafiles b);
                           trie := trie b |} it).
  { intros curr' fs' it [E|(df & Hdf & Hid)]; right; cbn [datafiles].
    - rewrite E, lookup_insert_eq. eexists; split; reflexivity.
    - destruct (decide (FileID it = Data.id (curr b))) as [E|NE].
      + rewrite E, lookup_insert_eq. eexists; split; reflexivity.
      + rewrite lookup_insert_ne by congruence. eauto. }
  destruct (files (dir b) !! wrap_int64 (Data.id (curr b) + 1)) as [c'|] eqn:Hc';
    injection H as <- <-; cbn [trie config options dir set_files files
                                 index_file config_file lock_file].
  - split_all; auto using grows_refl.
    intros _. unfold curr_ok. split_all; auto.
    exists c'. cbn [curr Data.id Data.offset dir set_files files]. auto.
  - split_all; auto using grows_insert_new.
    intros _. unfold curr_ok. split_all; auto.
    exists []. cbn [curr Data.id Data.offset dir set_files files].
    rewrite lookup_insert_eq. auto.
Qed.

(** What every [put] keeps, and where a successful one leaves its record. *)
Lemma put_keeps (b b' : Bitcask) (key value : bytes) (r : result (Z * Z)) :
  put b key value = (b', r) ->
  trie b' = trie b /\ config b' = config b /\ options b' = options b
  /\ index_file (dir b') = index_file (dir b)
  /\ config_file (dir b') = config_file (dir b)
  /\ lock_file (dir b') = lock_file (dir b)
  /\ grows (files (dir b)) (files (dir b'))
  /\ (forall it, handle_for b it -> handle_for b' it)
  /\ (curr_ok b -> curr_ok b')
  /\ (curr_ok b -> forall off n, r = Ok (off, n) ->
      exists c,
        files (dir b') !! Data.id (curr b') = Some (c ++ record key value)
        /\ off = len c /\ n = len (record key value)
        /\ len c + len (record key value) <= max_int64).
Proof.
  rewrite put_rotate. intros H.
  destruct (rotate b) as [b1 r1] eqn:Hrot.
  apply rotate_keeps in Hrot
    as (Ht & Hcfg & Hopt & Hidx & Hcf & Hlk & Hg & Hh & Hok).
  destruct r1 as [[]|e|].
  2,3: injection H as <- <-; split_all; auto;
       [intros Hc; apply Hok, Hc
       |intros Hc off n Hr; destruct (Hok Hc) as [_ Hr']; discriminate].
  destruct (Data.Write (curr b1) (files (dir b1)) (NewEntry key value))
    as [[curr' fs'] r'] eqn:Hw.
  injection H as <- <-.
  apply Write_spec in Hw as (Hid & Hww & Hg' & _ & Hr).
  cbn [trie config options dir set_files files index_file config_file
       lock_file curr datafiles].
  split_all; auto.
  - eapply grows_trans; eassumption.
  - intros it Hit. apply Hh in Hit. unfold handle_for in *.
    cbn [curr datafiles]. rewrite Hid. exact Hit.
  - intros Hc. destruct (Hok Hc) as [(Hw1 & c & Hc1 & Hoff1) _].
    unfold curr_ok. cbn [curr dir set_files files]. rewrite Hww, Hid.
    split; [assumption|].
    destruct r' as [[off n]|e|]; [|destruct Hr as [-> Hfs]|contradiction].
    + destruct Hr as (_ & _ & Hn & c' & Hc' & -> & Hfit & Hoff').
      assert (c' = c) as -> by congruence.
      exists (c ++ Data.frame (NewEntry key value)).
      rewrite lookup_insert_eq. split; [reflexivity|].
      rewrite Hoff', Hoff1, Hn, len_app.
      pose proof (len_nonneg c).
      pose proof (len_nonneg (Data.frame (NewEntry key value))).
      apply wrap_int64_small. unfold max_int64 in *. lia.
    + exists c. rewrite Hfs. auto.
  - intros Hc off n ->.
    destruct (Hok Hc) as [(Hw1 & c & Hc1 & Hoff1) _].
    destruct Hr as (_ & -> & -> & c' & Hc' & -> & Hfit & _).
    assert (c' = c) as -> by congruence.
    exists c. rewrite Hid, lookup_insert_eq. auto.
Qed.

Lemma live_keeps (b b' : Bitcask) (key value : bytes) :
  trie b' !! key = trie b !! key ->
  grows (files (dir b)) (files (dir b')) ->
  (forall it, handle_for b it -> handle_for b' it) ->
  live b key value -> live b' key value.
Proof.
  intros Ht Hg Hh (it & Hit & Hhf & Hrec & Hk & Hv).
  exists it. rewrite Ht. split_all; auto.
  eapply record_at_grows; eassumption.
Qed.

Lemma handle_for_set_trie (b : Bitcask) (t : gmap bytes Item) (it : Item) :
  handle_for (set_trie b t) it <-> handle_for b it.
Proof. reflexivity. Qed.

(** A write to another key leaves the binding of [key] alone. *)
Lemma Put_keeps_live (b b' : Bitcask) (key' value' : bytes)
    (r : result unit) (key value : bytes) :
  Put b key' value' = (b', r) -> key' <> key ->
  live b key value -> live b' key value.
Proof.
  unfold Put. intros H Hne Hl.
  destruct (maxKeySize (config b) <? len key'); [by injection H as <- <-|].
  destruct (maxValueSize (config b) <? len value'); [by injection H as <- <-|].
  destruct (put b key' value') as [b1 r1] eqn:Hput.
  apply put_keeps in Hput as (Ht & _ & _ & _ & _ & _ & Hg & Hh & _).
  assert (Hl1 : live b1 key value)
    by (eapply live_keeps; [by rewrite Ht| | |]; eassumption).
  destruct r1 as [[off n]|e|]; [|by injection H as <- <-..].
  unfold Data.Sync in H.
  destruct (sync (config b1)); injection H as <- <-.
  all: eapply live_keeps; [| | |exact Hl1];
    [cbn [set_trie trie]; by rewrite lookup_insert_ne
    |apply grows_refl|auto].
Qed.

Lemma Delete_keeps_live (b b' : Bitcask) (key' : bytes) (r : result unit)
    (key value : bytes) :
  Delete b key' = (b', r) -> key' <> key ->
  live b key value -> live b' key value.
Proof.
  unfold Delete. intros H Hne Hl.
  destruct (put b key' []) as [b1 r1] eqn:Hput.
  apply put_keeps in Hput as (Ht & _ & _ & _ & _ & _ & Hg & Hh & _).
  assert (Hl1 : live b1 key value)
    by (eapply live_keeps; [by rewrite Ht| | |]; eassumption).
  destruct r1 as [[off n]|e|]; injection H as <- <-; try assumption.
  eapply live_keeps; [| | |exact Hl1];
    [cbn [set_trie trie]; by rewrite lookup_delete_ne
    |apply grows_refl|auto].
Qed.

Lemma Put_curr_ok (b b' : Bitcask) (key value : bytes) (r : result unit) :
  Put b key value = (b', r) -> curr_ok b -> curr_ok b'.
Proof.
  unfold Put. intros H Hc.
  destruct (maxKeySize (config b) <? len key); [by injection H as <- <-|].
  destruct (maxValueSize (config b) <? len value); [by injection H as <- <-|].
  destruct (put b key value) as [b1 r1] eqn:Hput.
  apply put_keeps in Hput as (_ & _ & _ & _ & _ & _ & _ & _ & Hok & _).
  specialize (Hok Hc).
  destruct r1 as [[off n]|e|]; [|by injection H as <- <-..].
  unfold Data.Sync in H.
  destruct (sync (config b1)); injection H as <- <-; exact Hok.
Qed.

Lemma Delete_curr_ok (b b' : Bitcask) (key : bytes) (r : result unit) :
  Delete b key = (b', r) -> curr_ok b -> curr_ok b'.
Proof.
  unfold Delete. intros H Hc.
  destruct (put b key []) as [b1 r1] eqn:Hput.
  apply put_keeps in Hput as (_ & _ & _ & _ & _ & _ & _ & _ & Hok & _).
  specialize (Hok Hc).
  destruct r1 as [[off n]|e|]; injection H as <- <-; exact Hok.
Qed.

(** A successful [Put] binds its key to the record it wrote. *)
Lemma Put_live (b b' : Bitcask) (key value : bytes) :
  curr_ok b -> len key < 2 ^ 32 ->
  Put b key value = (b', Ok tt) -> live b' key value.
Proof.
  unfold Put. intros Hc Hk H.
  destruct (maxKeySize (config b) <? len key); [discriminate|].
  destruct (maxValueSize (config b) <? len value); [discriminate|].
  destruct (put b key value) as [b1 r1] eqn:Hput.
  apply put_keeps in Hput as (_ & _ & _ & _ & _ & _ & _ & _ & Hok & Hrec).
  destruct r1 as [[off n]|e|]; [|discriminate..].
  destruct (Hrec Hc off n eq_refl) as (c & Hfile & -> & -> & Hfit).
  assert (Hv : len value < 2 ^ 64).
  { rewrite len_record in Hfit.
    pose proof (len_nonneg c). pose proof (len_nonneg key).
    unfold max_int64 in Hfit. lia. }
  assert (Hit : live (set_trie b1
                  (<[key := {| FileID := Data.FileID (curr b1);
                               Offset := len c;
                               Size := len (record key value) |}]> (trie b1)))
                  key value).
  { eexists. cbn [set_trie trie]. rewrite lookup_insert_eq.
    split; [reflexivity|]. split; [left; reflexivity|].
    split; [|auto].
    exists (c ++ record key value).
    cbn [FileID Offset Size set_trie dir]. unfold Data.FileID.
    pose proof (len_nonneg c). pose proof (len_nonneg (record key value)).
    split_all; auto; try lia.
    - rewrite len_app. lia.
    - unfold len. rewrite !Nat2Z.id, drop_app_length.
      apply firstn_all. }
  unfold Data.Sync in H.
  destruct (sync (config b1)); injection H as <-; exact Hit.
Qed.

(** ** Put, then Get *)

Lemma run_keeps_live (ops : list op) (b : Bitcask) (key value : bytes) :
  Forall (fun o => op_key o <> key) ops ->
  live b key value -> live (run ops b) key value.
Proof.
  revert b. induction ops as [|o ops IH]; intros b Hops Hl; [exact Hl|].
  inversion Hops as [|? ? Ho Hops']; subst.
  cbn [run fold_left]. apply IH; [assumption|].
  destruct o as [k v|k]; cbn [apply_op op_key] in *.
  - destruct (Put b k v) as [b1 r] eqn:E. eapply Put_keeps_live; eassumption.
  - destruct (Delete b k) as [b1 r] eqn:E.
    eapply Delete_keeps_live; eassumption.
Qed.

(** C1. After a [Put] of a key and a value within the configured sizes,
    [Get] of the key returns the value, and keeps returning it through
    any later sequence of [Put]s and [Delete]s on other keys. *)
Theorem Put_then_Get (b b' : Bitcask) (key value : bytes) (ops : list op) :
  curr_ok b ->
  maxKeySize (config b) < 2 ^ 32 ->
  len key <= maxKeySize (config b) ->
  len value <= maxValueSize (config b) ->
  Put b key value = (b', Ok tt) ->
  Forall (fun o => op_key o <> key) ops ->
  Get (run ops b') key = Ok value.
Proof.
  intros Hc Hmax Hk Hv Hput Hops.
  apply Get_live, run_keeps_live; [assumption|].
  eapply Put_live; [exact Hc|lia|exact Hput].
Qed.

Lemma fresh_db_curr_ok : curr_ok fresh_db.
Proof. split; [reflexivity|]. exists []. split; reflexivity. Qed.

Lemma Put_then_Get_witness :
  Get (run [OpPut key_b val_2; OpDelete key_b; OpPut key_b val_1]
           (Put fresh_db key_a val_1).1) key_a = Ok val_1.
Proof.
  apply (Put_then_Get fresh_db).
  - exact fresh_db_curr_ok.
  - vm_compute. reflexivity.
  - vm_compute. discriminate.
  - vm_compute. discriminate.
  - vm_compute. reflexivity.
  - repeat constructor; discriminate.
Defined.

(** ** Size limits *)

(** C7. A [Put] whose key or value is larger than the configured maximum
    returns key-too-large (the key is checked first) or value-too-large
    and returns before any write: the whole state, and with it the index,
    [Len] and every segment file, is the one before the call. *)
Theorem Put_too_large (b : Bitcask) (key value : bytes) :
  maxKeySize (config b) < len key \/ maxValueSize (config b) < len value ->
  Put b key value
  = (b, Err (if maxKeySize (config b) <? len key then ErrKeyTooLarge
             else ErrValueTooLarge))
  /\ trie (Put b key value).1 = trie b
  /\ Len (Put b key value).1 = Len b
  /\ files (dir (Put b key value).1) = files (dir b).
Proof.
  intros H.
  assert (E : Put b key value
              = (b, Err (if maxKeySize (config b) <? len key
                         then ErrKeyTooLarge else ErrValueTooLarge))).
  { unfold Put.
    destruct (Z.ltb_spec (maxKeySize (config b)) (len key)); [reflexivity|].
    destruct (Z.ltb_spec (maxValueSize (config b)) (len value));
      [reflexivity|lia]. }
  rewrite E. auto.
Qed.

Lemma Put_too_large_witness :
  Put (fst (Put fresh_db key_a val_1)) (repeat Byte.x61 65) val_2
  = (fst (Put fresh_db key_a val_1), Err ErrKeyTooLarge).
Proof.
  apply (Put_too_large (fst (Put fresh_db key_a val_1)) (repeat Byte.x61 65) val_2).
  left. vm_compute. reflexivity.
Defined.

(** ** The memory-pool option *)

Lemma replay_all_no_datafiles (order ids : list Z) (fs : gmap Z bytes)
    (t : gmap bytes Item) :
  replay_all order ids ∅ fs t = (∅, Ok t).
Proof.
  induction order as [|i order IH]; [reflexivity|].
  cbn [replay_all]. rewrite lookup_empty. exact IH.
Qed.

(** C9. [WithMemPool] with a concurrency of zero or less makes [Open]
    return the invalid-argument error (once the options before it were
    accepted); with a positive concurrency the option is accepted: it
    records the value, [Open] goes on with the next options, and on an
    empty directory [Open] with this option alone succeeds. *)
Theorem WithMemPool_accepts_positive_only (mapiter : mapiterT) (d : Dir)
    (pre post : list Option) (cfg1 : configT) (n m : Z) :
  apply_options pre
    (match getConfig d with Ok cfg => cfg | _ => newDefaultConfig end)
  = (cfg1, Ok tt) ->
  (n <= 0 ->
   Open mapiter d (pre ++ WithMemPool n m :: post)
   = (d, Err ErrMaxConcurrencyLowerEqZero))
  /\ (0 < n ->
      (exists cfg2, WithMemPool n m cfg1 = (cfg2, Ok tt)
                    /\ maxConcurrency cfg2 = Some n
                    /\ apply_options (pre ++ WithMemPool n m :: post)
                         (match getConfig d with
                          | Ok cfg => cfg | _ => newDefaultConfig end)
                       = apply_options post cfg2)
      /\ exists b, Open mapiter empty_dir [WithMemPool n m] = (dir b, Ok b)
                   /\ maxConcurrency (config b) = Some n).
Proof.
  intros Hpre.
  assert (Happ : forall opts cfg0 cfg1' rest,
             apply_options opts cfg0 = (cfg1', Ok tt) ->
             apply_options (opts ++ rest) cfg0 = apply_options rest cfg1').
  { induction opts as [|o opts IH]; intros cfg0 cfg1' rest Ho.
    - by injection Ho as ->.
    - cbn [apply_options app] in *.
      destruct (o cfg0) as [cfg' [[]|e|]]; try discriminate.
      by apply IH. }
  split.
  - intros Hn. unfold Open. rewrite (Happ _ _ _ _ Hpre).
    cbn [apply_options]. unfold WithMemPool.
    destruct (Z.leb_spec n 0); [reflexivity|lia].
  - intros Hn. split.
    + unfold WithMemPool at 1 2.
      destruct (Z.leb_spec n 0) as [|_]; [lia|].
      eexists. split; [reflexivity|]. split; [reflexivity|].
      rewrite (Happ _ _ _ _ Hpre). cbn [apply_options]. unfold WithMemPool.
      destruct (Z.leb_spec n 0) as [|_]; [lia|]. reflexivity.
    + unfold Open. cbn [getConfig config_file empty_dir apply_options].
      unfold WithMemPool.
      destruct (Z.leb_spec n 0) as [|_]; [lia|].
      cbn [lock_file empty_dir]. unfold reopen.
      cbn [dir files index_file config]. unfold ParseIds, empty_dir.
      cbn [files index_file].
      rewrite map_to_list_empty. cbn [map]. cbn.
      rewrite replay_all_no_datafiles. cbn.
      eexists. split; reflexivity.
Qed.

Lemma WithMemPool_accepts_positive_only_witness :
  Open asc empty_dir ([WithMaxKeySize 8] ++ WithMemPool 0 16 :: [])
  = (empty_dir, Err ErrMaxConcurrencyLowerEqZero).
Proof.
  refine (proj1 (WithMemPool_accepts_positive_only asc empty_dir
                   [WithMaxKeySize 8] [] _ 0 16 _) _).
  - vm_compute. reflexivity.
  - lia.
Defined.

(** ** Fold and Scan *)

Definition two_keys : Bitcask :=
  (Put (Put fresh_db key_a val_1).1 key_b val_2).1.

(** A visitor that counts its calls and fails on each of them. *)
Definition failing_visitor (key : bytes) (calls : Z) : Z * result unit :=
  (calls + 1, Err ErrReadError).

Lemma Fold_returns_no_error {S : Type} (b : Bitcask)
    (f : bytes -> S -> S * result unit) (s : S) (e : error) :
  (Fold b f s).2 <> Err e.
Proof.
  unfold Fold.
  destruct (ForEach _ _ s) as [s' r] eqn:E. cbn [snd].
  assert (Hr : r <> Err e).
  { clear -E. revert s E.
    induction (map_to_list (trie b)) as [|node nodes IH]; intros s E.
    - cbn in E. injection E as <- <-. discriminate.
    - cbn [ForEach] in E.
      destruct (f node.1 s) as [s1 [[]|e1|]];
        try (injection E as <- <-; discriminate).
      eapply IH, E. }
  destruct r; cbn; congruence.
Qed.

(** C5. On a database with two keys and a visitor that fails at its first
    call, [Fold] stops after that call (the visitor ran once) but returns
    no error, where [Scan] over the same keys returns the visitor's error;
    and no visitor's error ever comes out of [Fold]. *)
Theorem Fold_drops_the_error :
  Len two_keys = 2
  /\ Fold two_keys failing_visitor 0 = (1, Ok tt)
  /\ Scan two_keys [] failing_visitor 0 = (1, Err ErrReadError)
  /\ forall (b : Bitcask) (f : bytes -> Z -> Z * result unit) (s : Z)
            (e : error), (Fold b f s).2 <> Err e.
Proof.
  split; [vm_compute; reflexivity|].
  split; [vm_compute; reflexivity|].
  split; [vm_compute; reflexivity|].
  intros b f s e. apply Fold_returns_no_error.
Qed.

(** ** Tombstones *)

(** X29. After a successful [Delete] of a key the index has no entry for
    the key, [Has] is false and [Get] returns key-not-found. *)
Theorem Delete_then_Get (b b' : Bitcask) (key : bytes) :
  Delete b key = (b', Ok tt) ->
  trie b' !! key = None /\ Has b' key = false
  /\ Get b' key = Err ErrKeyNotFound.
Proof.
  unfold Delete. intros H.
  destruct (put b key []) as [b1 [[off n]|e|]]; try discriminate.
  injection H as <-.
  assert (Ht : trie (set_trie b1 (delete key (trie b1))) !! key = None)
    by apply lookup_delete_eq.
  split; [exact Ht|]. unfold Has, Get. rewrite Ht.
  split; [|reflexivity].
  apply bool_decide_eq_false. intros [x Hx]. discriminate.
Qed.

Lemma Delete_then_Get_witness :
  Get (Delete (Put fresh_db key_a val_1).1 key_a).1 key_a
  = Err ErrKeyNotFound.
Proof.
  refine (proj2 (proj2 (Delete_then_Get (Put fresh_db key_a val_1).1
                          (Delete (Put fresh_db key_a val_1).1 key_a).1
                          key_a _))).
  vm_compute. reflexivity.
Defined.

(** C4. [Put] of a key with an empty value writes the record [Delete]
    writes for that key, a record with a zero-length value, but goes on
    to insert the key in the index: [Has] is true, [Len] is 1 and [Get]
    returns the empty value.  The replay of [reopen] reads the same
    record as a tombstone: once the database is closed and opened again
    without its [index] file, the key is gone. *)
Theorem Put_of_an_empty_value_keeps_the_key :
  let b := (Put fresh_db key_a []).1 in
  let d := remove_index (dir (Close b).1) in
  Put fresh_db key_a [] = (b, Ok tt)
  /\ files (dir b) !! 0 = Some (record key_a [])
  /\ files (dir (Delete fresh_db key_a).1) !! 0 = Some (record key_a [])
  /\ trie b !! key_a = Some {| FileID := 0; Offset := 0; Size := 17 |}
  /\ Has b key_a = true /\ Len b = 1 /\ Get b key_a = Ok []
  /\ Get (Delete fresh_db key_a).1 key_a = Err ErrKeyNotFound
  /\ (exists b2, (Open asc d []).2 = Ok b2
                 /\ Has b2 key_a = false /\ Len b2 = 0
                 /\ Get b2 key_a = Err ErrKeyNotFound).
Proof.
  cbv zeta.
  do 8 (split; [vm_compute; reflexivity|]).
  eexists. split; [vm_compute; reflexivity|].
  split_all; vm_compute; reflexivity.
Qed.

(** During replay an entry with an empty value erases its key. *)
Lemma replay_tombstone (fuel : nat) (ids : list Z) (i : Z)
    (df df1 : Data.datafile) (fs : gmap Z bytes) (offset n : Z)
    (t : gmap bytes Item) (e : Entry) :
  Data.Read df fs = (df1, Ok (e, n)) -> Value e = [] ->
  replay (S fuel) ids i df fs offset t
  = replay fuel ids i df1 fs (wrap_int64 (offset + n)) (delete (Key e) t).
Proof. intros H Hv. cbn [replay]. rewrite H, Hv. reflexivity. Qed.

(** ** Rotation *)

(** C8. When the active segment has reached the maximum datafile size,
    [put] seals it (a read-only handle for its id goes into the segment
    map), opens an active segment with the next id, and appends the record
    to that new segment. *)
Theorem put_rotates (b : Bitcask) (key value c : bytes) :
  maxDatafileSize (config b) <= Data.Size (curr b) ->
  files (dir b) !! Data.id (curr b) = Some c ->
  - 2 ^ 63 <= Data.id (curr b) < max_int64 ->
  let id := Data.id (curr b) in
  let old := default [] (files (dir b) !! (id + 1)) in
  len old + len (record key value) <= max_int64 ->
  exists b',
    put b key value = (b', Ok (len old, len (record key value)))
    /\ datafiles b' !! id
       = Some {| Data.id := id; Data.w := false; Data.offset := len c;
                 Data.rpos := 0 |}
    /\ Data.id (curr b') = id + 1
    /\ Data.w (curr b') = true
    /\ files (dir b') !! (id + 1) = Some (old ++ record key value)
    /\ files (dir b') !! id = Some c.
Proof.
  intros Hsz Hc Hid id old Hfit.
  unfold put, Data.Close, Data.FileID.
  destruct (Z.leb_spec (maxDatafileSize (config b)) (Data.Size (curr b)));
    [|lia].
  subst id old. set (id := Data.id (curr b)) in *.
  set (old := default [] (files (dir b) !! (id + 1))) in *.
  unfold Data.NewDatafile at 1. rewrite Hc. cbn [negb].
  rewrite (wrap_int64_small (id + 1)) by (unfold max_int64 in *; lia).
  assert (Hn : wrap_int64 (Data.keySize + Data.valueSize
                           + len (Key (NewEntry key value))
                           + len (Value (NewEntry key value))
                           + Data.checksumSize) = len (record key value)).
  { rewrite len_record in *. cbn [Key Value NewEntry].
    unfold Data.keySize, Data.valueSize, Data.checksumSize.
    pose proof (len_nonneg key). pose proof (len_nonneg value).
    pose proof (len_nonneg old).
    rewrite wrap_int64_small; unfold max_int64 in *; lia. }
  unfold Data.NewDatafile. subst old.
  destruct (files (dir b) !! (id + 1)) as [c'|] eqn:Hc';
    cbn [default from_option Datatypes.id] in *.
  - cbn [curr dir set_files files]. unfold Data.Write, Data.encode.
    cbn [Data.w negb Data.id Data.offset Data.rpos Checksum Key Value].
    rewrite Hc'.
    change (Data.frame _) with (record key value).
    destruct (Z.ltb_spec max_int64 (len c' + len (record key value))); [lia|].
    eexists. split; [rewrite Hn; reflexivity|].
    cbn [datafiles curr dir set_files files Data.id Data.w].
    rewrite lookup_insert_eq.
    split_all; try reflexivity.
    + apply lookup_insert_eq.
    + rewrite lookup_insert_ne by lia. exact Hc.
  - cbn [curr dir set_files files]. unfold Data.Write, Data.encode.
    cbn [Data.w negb Data.id Data.offset Data.rpos Checksum Key Value].
    rewrite lookup_insert_eq.
    change (Data.frame _) with (record key value).
    destruct (Z.ltb_spec max_int64 (len [] + len (record key value))); [lia|].
    eexists. split; [rewrite Hn; reflexivity|].
    cbn [datafiles curr dir set_files files Data.id Data.w].
    rewrite lookup_insert_eq.
    split_all; try reflexivity.
    + apply lookup_insert_eq.
    + rewrite !lookup_insert_ne by lia. exact Hc.
Qed.

Lemma put_rotates_witness :
  exists b',
    put tiny_db_a key_b val_2 = (b', Ok (0, 18))
    /\ datafiles b' !! 0
       = Some {| Data.id := 0; Data.w := false; Data.offset := 18;
                 Data.rpos := 0 |}
    /\ Data.id (curr b') = 1.
Proof.
  destruct (put_rotates tiny_db_a key_b val_2 (record key_a val_1))
    as (b' & Hput & Hdf & Hid & _).
  - vm_compute. discriminate.
  - vm_compute. reflexivity.
  - vm_compute. split; [discriminate|reflexivity].
  - vm_compute. discriminate.
  - exists b'. split; [exact Hput|]. split; [exact Hdf|exact Hid].
Defined.

(** ** The record codec *)

(** The segment decoder of the [data] package reads back what its encoder
    wrote. *)
Lemma Data_decode_frame (e e0 : Entry) (rest : bytes) :
  len (Key e) < 2 ^ 32 -> 0 <= Checksum e < 2 ^ 32 ->
  len (Data.frame e) <= max_int64 ->
  Data.decode (Data.frame e ++ rest) e0
  = (rest, Ok ({| Checksum := Checksum e; Key := Key e; EOffset := EOffset e0;
                  Value := Value e |}, len (Data.frame e))).
Proof.
  intros Hk Hsum Hfit.
  pose proof (len_nonneg (Key e)). pose proof (len_nonneg (Value e)).
  assert (Hlen : len (Data.frame e) = 16 + len (Key e) + len (Value e)).
  { unfold Data.frame. rewrite !len_app, !len_PutUint32, len_PutUint64. lia. }
  assert (Hv : len (Value e) < 2 ^ 64) by (unfold max_int64 in *; lia).
  assert (Hrf : forall (a r : bytes) (n : Z),
             n = len a -> 0 < n -> ReadFull (a ++ r) n = (r, Ok a)).
  { intros a r n -> Hpos. unfold ReadFull.
    destruct (Z.leb_spec (len a) 0); [lia|].
    rewrite len_app. pose proof (len_nonneg r).
    destruct (Z.leb_spec (len a) (len a + len r)); [|lia].
    unfold len. rewrite Nat2Z.id, drop_app_length, take_app_length.
    reflexivity. }
  unfold Data.frame in *.
  set (p4 := Binary.PutUint32 (wrap_uint32 (len (Key e)))) in *.
  set (p8 := Binary.PutUint64 (wrap_uint64 (len (Value e)))) in *.
  set (payload := Key e ++ Value e ++ Binary.PutUint32 (Checksum e)) in *.
  assert (H12 : len (p4 ++ p8) = 12)
    by (subst p4 p8; rewrite len_app, len_PutUint32, len_PutUint64; reflexivity).
  assert (Hpl : len payload = len (Key e) + len (Value e) + 4)
    by (subst payload; rewrite !len_app, len_PutUint32; lia).
  assert (Hsz' : Data.getKeyValueSizes (p4 ++ p8)
                 = Ok (len (Key e), len (Value e))).
  { unfold Data.getKeyValueSizes.
    rewrite slice_app_fst by (subst p4; rewrite len_PutUint32; reflexivity).
    cbn [mbind result_bind].
    rewrite slice_app_snd
      by (subst p4 p8; rewrite ?len_app, ?len_PutUint32; reflexivity).
    cbn [mbind result_bind]. subst p4 p8. rewrite len_PutUint64.
    destruct (Z.ltb_spec 8 Data.valueSize) as [Hlt|_];
      [unfold Data.valueSize in Hlt; lia|].
    unfold wrap_uint32, wrap_uint64. rewrite !Z.mod_small by lia.
    rewrite Uint32_PutUint32, Uint64_PutUint64 by lia. reflexivity. }
  replace ((p4 ++ p8 ++ payload) ++ rest) with ((p4 ++ p8) ++ payload ++ rest)
    by (rewrite <- !app_assoc; reflexivity).
  unfold Data.decode.
  rewrite (Hrf (p4 ++ p8)) by (rewrite ?H12; reflexivity).
  rewrite Hsz'.
  unfold Data.checksumSize, Data.keySize, Data.valueSize.
  assert (Hw : wrap_uint64 (len (Key e) + len (Value e) + 4)
               = len (Key e) + len (Value e) + 4).
  { unfold wrap_uint64. apply Z.mod_small. unfold max_int64 in *. lia. }
  rewrite Hw.
  destruct (Z.ltb_spec max_int64 (len (Key e) + len (Value e) + 4)); [lia|].
  rewrite (Hrf payload) by lia.
  subst payload.
  rewrite (decodeWithoutPrefix_payload (Key e) (Value e) (Checksum e) 0 e0)
    by assumption.
  cbn [mbind result_bind]. do 3 f_equal.
  replace (4 + 8 + len (Key e) + len (Value e) + 4)
    with (len (Key e) + len (Value e) + 16) by lia.
  unfold wrap_uint64. rewrite Z.mod_small by (unfold max_int64 in *; lia).
  rewrite wrap_int64_small by (unfold max_int64 in *; lia).
  rewrite Hlen. lia.
Qed.

(** C3. On the frame of a record with a one-byte key and a two-byte
    value, [Decoder.Decode] of [internal/codec] cuts the payload at the
    value length: the entry it returns has a two-byte key and a one-byte
    value, and encoding that entry does not give the frame back.  The
    decoder of the [data] package returns the record on the same frame. *)
Theorem Codec_Decode_misplaces_the_key :
  let x := (Codec.Encode [] sample_entry).1 in
  x = Data.frame sample_entry
  /\ Codec.Decode x zero_entry
     = ([], Ok ({| Checksum := Checksum sample_entry;
                   Key := [Byte.x61; Byte.x31]; EOffset := 0;
                   Value := [Byte.x32] |}, 19))
  /\ (forall e n, Codec.Decode x zero_entry = ([], Ok (e, n)) ->
      (Codec.Encode [] e).1 <> x)
  /\ Data.decode x zero_entry = ([], Ok (sample_entry, 19)).
Proof.
  cbv zeta.
  assert (Hd : Codec.Decode (Codec.Encode [] sample_entry).1 zero_entry
     = ([], Ok ({| Checksum := Checksum sample_entry;
                   Key := [Byte.x61; Byte.x31]; EOffset := 0;
                   Value := [Byte.x32] |}, 19)))
    by (vm_compute; reflexivity).
  split_all.
  - reflexivity.
  - exact Hd.
  - intros e n He. rewrite Hd in He. injection He as <- <-.
    vm_compute. discriminate.
  - vm_compute. reflexivity.
Qed.

(** ** The integer helpers of dtypes.go *)

Lemma lor_disjoint_add (acc y s : Z) :
  0 <= s -> 0 <= acc < 2 ^ s -> 0 <= y ->
  Z.lor acc (Z.shiftl y s) = acc + y * 2 ^ s.
Proof.
  intros Hs Hacc Hy. rewrite Z.lor_comm, <- Z.add_nocarry_lor.
  - rewrite Z.shiftl_mul_pow2 by lia. lia.
  - apply Z.bits_inj'. intros n Hn.
    rewrite Z.land_spec, Z.bits_0.
    destruct (Z.ltb_spec n s).
    + rewrite Z.shiftl_spec_low by lia. reflexivity.
    + replace (Z.testbit acc n) with false; [apply andb_false_r|].
      symmetry. destruct (Z.eq_dec acc 0) as [->|].
      * apply Z.bits_0.
      * apply Z.bits_above_log2; [lia|].
        apply Z.log2_lt_pow2; [lia|].
        apply Z.lt_le_trans with (2 ^ s); [lia|].
        apply Z.pow_le_mono_r; lia.
Qed.

Lemma lor_disjoint_mul (acc y s : Z) :
  0 <= s -> 0 <= acc < 2 ^ s -> 0 <= y ->
  Z.lor acc (y * 2 ^ s) = acc + y * 2 ^ s.
Proof.
  intros. rewrite <- (lor_disjoint_add acc y s) by lia.
  rewrite Z.shiftl_mul_pow2 by lia. reflexivity.
Qed.

Lemma byte_continue (x : Z) :
  0 <= x -> Z_of_byte (byte_of_Z (Z.lor (Z.land x 0xff) 0x80)) = 128 + x mod 128.
Proof.
  intros Hx. rewrite Z_of_byte_of_Z.
  change 0xff with (Z.ones 8). rewrite Z.land_ones by lia.
  change (2 ^ 8) with 256.
  assert (H : Z.lor (x mod 256) 128 = 128 + x mod 128).
  { pose proof (Z.mod_pos_bound x 128 ltac:(lia)) as Hm.
    assert (Hl : Z.lor (x mod 128) 128 = x mod 128 + 128).
    { change 128 with (Z.shiftl 1 7) at 2.
      rewrite (lor_disjoint_add (x mod 128) 1 7); simpl; lia. }
    replace (x mod 256) with (x mod 128 + 128 * ((x / 128) mod 2))
      by (rewrite <- Z.rem_mul_r by lia; reflexivity).
    pose proof (Z.mod_pos_bound (x / 128) 2 ltac:(lia)).
    assert (Hc : (x / 128) mod 2 = 0 \/ (x / 128) mod 2 = 1) by lia.
    destruct Hc as [-> | ->].
    - rewrite Z.mul_0_r, Z.add_0_r, Hl. lia.
    - rewrite Z.mul_1_r, <- Hl, <- Z.lor_assoc, Z.lor_diag, Hl. lia. }
  rewrite H. apply Z.mod_small.
  pose proof (Z.mod_pos_bound x 128 ltac:(lia)). lia.
Qed.

Lemma PutUvarint_Uvarint (buf : bytes) :
  forall (x i acc : Z),
    0 <= i <= 9 -> length buf = Z.to_nat (10 - i) ->
    0 <= x < 2 ^ (64 - 7 * i) -> 0 <= acc < 2 ^ (7 * i) ->
    exists buf' n,
      Binary.PutUvarint buf x = Ok (buf', n)
      /\ length buf' = length buf /\ 1 <= n <= 10 - i
      /\ (1 <= x \/ i < 9 -> (n < 10 - i <-> x < 2 ^ (63 - 7 * i)))
      /\ Binary.Uvarint_loop buf' i (7 * i) acc = (acc + x * 2 ^ (7 * i), i + n).
Proof.
  induction buf as [|b0 buf IH]; intros x i acc Hi Hlen Hx Hacc.
  - simpl in Hlen. lia.
  - cbn [Binary.PutUvarint].
    assert (Hp : 0 < 2 ^ (7 * i)) by (apply Z.pow_pos_nonneg; lia).
    destruct (Z.leb_spec 0x80 x) as [Hge|Hlt].
    + (* a continuation byte *)
      assert (Hi9 : i < 9).
      { destruct (Z.eq_dec i 9) as [->|]; [|lia]. simpl in Hx. lia. }
      assert (Hx7 : 0 <= Z.shiftr x 7 < 2 ^ (64 - 7 * (i + 1))).
      { rewrite Z.shiftr_div_pow2 by lia. change (2 ^ 7) with 128.
        split; [apply Z.div_pos; lia|].
        apply Z.div_lt_upper_bound; [lia|].
        replace (64 - 7 * i) with (7 + (64 - 7 * (i + 1))) in Hx by lia.
        rewrite Z.pow_add_r in Hx by lia. exact (proj2 Hx). }
      assert (Hacc' : 0 <= acc + (x mod 128) * 2 ^ (7 * i) < 2 ^ (7 * (i + 1))).
      { pose proof (Z.mod_pos_bound x 128 ltac:(lia)).
        replace (7 * (i + 1)) with (7 * i + 7) by lia.
        rewrite Z.pow_add_r by lia. change (2 ^ 7) with 128. nia. }
      destruct (IH (Z.shiftr x 7) (i + 1) (acc + (x mod 128) * 2 ^ (7 * i)))
        as (buf' & n & Hput & Hlen' & Hn & Hshort & Hloop);
        [lia|simpl in Hlen; lia|assumption|assumption|].
      rewrite Hput. cbn [mbind result_bind].
      eexists _, _. split; [reflexivity|].
      split; [simpl; lia|]. split; [lia|].
      split.
      { intros _.
        assert (Hx1 : 1 <= Z.shiftr x 7).
        { rewrite Z.shiftr_div_pow2 by lia. change (2 ^ 7) with 128.
          apply Z.div_le_lower_bound; lia. }
        specialize (Hshort (or_introl Hx1)).
        rewrite Z.shiftr_div_pow2 in Hshort by lia. change (2 ^ 7) with 128 in Hshort.
        replace (63 - 7 * i) with (7 + (63 - 7 * (i + 1))) by lia.
        rewrite Z.pow_add_r by lia. change (2 ^ 7) with 128.
        assert (Hq : 0 < 2 ^ (63 - 7 * (i + 1))) by (apply Z.pow_pos_nonneg; lia).
        split; intros Hc.
        - assert (x / 128 < 2 ^ (63 - 7 * (i + 1))) by (apply Hshort; lia).
          pose proof (Z.mul_div_le x 128 ltac:(lia)).
          pose proof (Z.mod_pos_bound x 128 ltac:(lia)).
          pose proof (Z.div_mod x 128 ltac:(lia)). nia.
        - assert (x / 128 < 2 ^ (63 - 7 * (i + 1)))
            by (apply Z.div_lt_upper_bound; lia).
          apply Hshort in H. lia. }
      cbn [Binary.Uvarint_loop]. unfold Binary.MaxVarintLen64.
      destruct (Z.eqb_spec i 10); [lia|].
      rewrite byte_continue by lia.
      pose proof (Z.mod_pos_bound x 128 ltac:(lia)).
      destruct (Z.ltb_spec (128 + x mod 128) 0x80); [lia|].
      assert (Hland : Z.land (128 + x mod 128) 0x7f = x mod 128).
      { change 0x7f with (Z.ones 7). rewrite Z.land_ones by lia.
        change (2 ^ 7) with 128.
        rewrite <- Z.add_mod_idemp_l, Z.mod_same, Z.add_0_l by lia.
        apply Z.mod_mod. lia. }
      rewrite Hland.
      assert (Hsh : wrap_uint64 (Z.shiftl (x mod 128) (7 * i))
                    = (x mod 128) * 2 ^ (7 * i)).
      { rewrite Z.shiftl_mul_pow2 by lia. unfold wrap_uint64.
        apply Z.mod_small. split; [nia|].
        apply Z.lt_le_trans with (2 ^ (7 * (i + 1))); [nia|].
        apply Z.pow_le_mono_r; lia. }
      rewrite Hsh.
      rewrite lor_disjoint_mul by lia.
      replace (7 * i + 7) with (7 * (i + 1)) by lia.
      rewrite Hloop. f_equal; [|lia].
      rewrite Z.shiftr_div_pow2 by lia. change (2 ^ 7) with 128.
      replace (7 * (i + 1)) with (7 * i + 7) by lia.
      rewrite Z.pow_add_r by lia. change (2 ^ 7) with 128.
      pose proof (Z.div_mod x 128 ltac:(lia)). nia.
    + (* the last byte *)
      eexists _, _. split; [reflexivity|].
      split; [reflexivity|]. split; [lia|].
      split.
      { intros Hor. split; intros Hc.
        - apply Z.lt_le_trans with (2 ^ 7); [simpl; lia|].
          apply Z.pow_le_mono_r; lia.
        - destruct (Z.eq_dec i 9) as [->|]; [|lia]. simpl in Hc. lia. }
      cbn [Binary.Uvarint_loop]. unfold Binary.MaxVarintLen64.
      destruct (Z.eqb_spec i 10); [lia|].
      rewrite Z_of_byte_of_Z, Z.mod_small by lia.
      destruct (Z.ltb_spec x 0x80); [|lia].
      assert (Hlast : (i =? 10 - 1) && (1 <? x) = false).
      { destruct (Z.eqb_spec i (10 - 1)) as [->|]; [|reflexivity].
        simpl in Hx. destruct (Z.ltb_spec 1 x); [lia|reflexivity]. }
      rewrite Hlast.
      assert (Hsh : wrap_uint64 (Z.shiftl x (7 * i)) = x * 2 ^ (7 * i)).
      { rewrite Z.shiftl_mul_pow2 by lia. unfold wrap_uint64.
        apply Z.mod_small. split; [nia|].
        replace (2 ^ 64) with (2 ^ (64 - 7 * i) * 2 ^ (7 * i))
          by (rewrite <- Z.pow_add_r by lia; f_equal; lia).
        nia. }
      rewrite Hsh. f_equal.
      apply lor_disjoint_mul; lia.
Qed.

Lemma testbit_high (a k n : Z) :
  0 <= a < 2 ^ k -> 0 <= k <= n -> Z.testbit a n = false.
Proof.
  intros Ha Hk. destruct (Z.eq_dec a 0) as [->|]; [apply Z.bits_0|].
  apply Z.bits_above_log2; [lia|].
  apply Z.log2_lt_pow2; [lia|].
  apply Z.lt_le_trans with (2 ^ k); [lia|].
  apply Z.pow_le_mono_r; lia.
Qed.

Lemma lxor_ones_64 (a : Z) :
  0 <= a < 2 ^ 64 -> Z.lxor a (2 ^ 64 - 1) = 2 ^ 64 - 1 - a.
Proof.
  intros Ha. change (2 ^ 64 - 1) with (Z.ones 64).
  assert (H : a + Z.lxor a (Z.ones 64) = Z.ones 64).
  { rewrite Z.add_nocarry_lxor.
    - rewrite <- Z.lxor_assoc, Z.lxor_nilpotent, Z.lxor_0_l. reflexivity.
    - apply Z.bits_inj'. intros n Hn.
      rewrite Z.land_spec, Z.lxor_spec, Z.bits_0.
      destruct (Z.ltb_spec n 64).
      + rewrite Z.ones_spec_low by lia. destruct (Z.testbit a n); reflexivity.
      + rewrite (testbit_high a 64 n) by lia. reflexivity. }
  lia.
Qed.

Lemma land_1 (a : Z) : Z.land a 1 = a mod 2.
Proof. change 1 with (Z.ones 1). rewrite Z.land_ones by lia. reflexivity. Qed.

Lemma zigzag_round_trip (x : Z) :
  - 2 ^ 63 <= x < 2 ^ 63 ->
  let ux := wrap_uint64 (Z.shiftl (wrap_uint64 x) 1) in
  let ux := if x <? 0 then Z.lxor ux (2 ^ 64 - 1) else ux in
  0 <= ux < 2 ^ 64
  /\ (let y := wrap_int64 (Z.shiftr ux 1) in
      if Z.land ux 1 =? 0 then y else Z.lnot y) = x.
Proof.
  intros Hx. cbv zeta.
  unfold wrap_uint64. rewrite Z.shiftl_mul_pow2 by lia. change (2 ^ 1) with 2.
  rewrite !land_1, !Z.shiftr_div_pow2 by lia. change (2 ^ 1) with 2.
  destruct (Z.ltb_spec x 0).
  - assert (E1 : x mod 2 ^ 64 = x + 2 ^ 64).
    { symmetry. apply (Z.mod_unique_pos _ _ (-1)); lia. }
    rewrite E1.
    assert (E2 : ((x + 2 ^ 64) * 2) mod 2 ^ 64 = 2 * x + 2 ^ 64).
    { symmetry. apply (Z.mod_unique_pos _ _ 1); lia. }
    rewrite E2, lxor_ones_64 by lia.
    replace (2 ^ 64 - 1 - (2 * x + 2 ^ 64)) with (- 2 * x - 1) by lia.
    split; [lia|].
    assert (E3 : (- 2 * x - 1) mod 2 = 1).
    { symmetry. apply (Z.mod_unique_pos _ _ (- x - 1)); lia. }
    rewrite E3. cbn [Z.eqb].
    assert (E4 : (- 2 * x - 1) / 2 = - x - 1).
    { symmetry. apply (Z.div_unique_pos _ _ _ 1); lia. }
    rewrite E4, wrap_int64_small by (unfold max_int64; lia).
    rewrite Z.lnot_eq_pred_opp. lia.
  - rewrite (Z.mod_small x) by lia.
    rewrite (Z.mod_small (x * 2)) by lia.
    split; [lia|].
    rewrite Z.mod_mul by lia. cbn [Z.eqb].
    rewrite Z.div_mul by lia.
    apply wrap_int64_small. unfold max_int64. lia.
Qed.

Lemma Put_ok_key_size (b b' : Bitcask) (key value : bytes) :
  Put b key value = (b', Ok tt) -> len key <= maxKeySize (config b).
Proof.
  unfold Put. intros H.
  destruct (Z.ltb_spec (maxKeySize (config b)) (len key)); [discriminate|lia].
Qed.

Lemma PutUvarint_zeros (x : Z) :
  0 <= x < 2 ^ 64 ->
  exists buf n,
    Binary.PutUvarint (repeat Byte.x00 (Z.to_nat Binary.MaxVarintLen64)) x
    = Ok (buf, n)
    /\ len buf = 10 /\ 1 <= n <= 10 /\ (n < 10 <-> x < 2 ^ 63)
    /\ Binary.Uvarint buf = (x, n).
Proof.
  intros Hx.
  destruct (PutUvarint_Uvarint
              (repeat Byte.x00 (Z.to_nat Binary.MaxVarintLen64)) x 0 0)
    as (buf & n & Hput & Hlen & Hn & Hshort & Hloop);
    [lia|reflexivity|exact Hx|simpl; lia|].
  exists buf, n. split; [exact Hput|].
  split; [unfold len; rewrite Hlen; reflexivity|].
  split; [lia|]. split; [apply Hshort; lia|].
  unfold Binary.Uvarint. change (7 * 0) with 0 in Hloop.
  rewrite Hloop. f_equal; lia.
Qed.

(** C10. A value written by [PutUint] whose unsigned varint is shorter
    than [MaxVarintLen64] bytes is not read back: [GetUint] returns the
    decode error, because the ten stored bytes are not all consumed.
    [PutInt] followed by [GetInt] returns the value written, for every
    64-bit signed value. *)
Theorem GetUint_rejects_short_varints (b : Bitcask) (key : bytes) :
  curr_ok b -> maxKeySize (config b) < 2 ^ 32 ->
  (forall v buf n b',
      0 <= v < 2 ^ 64 ->
      Binary.PutUvarint (repeat Byte.x00 (Z.to_nat Binary.MaxVarintLen64)) v
      = Ok (buf, n) ->
      n < Binary.MaxVarintLen64 ->
      PutUint b key v = (b', Ok tt) ->
      GetUint b' key = Err ErrDecodeError)
  /\ (forall x b',
         - 2 ^ 63 <= x < 2 ^ 63 ->
         PutInt b key x = (b', Ok tt) ->
         GetInt b' key = Ok x).
Proof.
  intros Hc Hmax. split.
  - intros v buf n b' Hv Hbuf Hn Hput.
    destruct (PutUvarint_zeros v Hv) as (buf1 & n1 & Hput1 & Hlen & _ & _ & Hu).
    rewrite Hbuf in Hput1. injection Hput1 as <- <-.
    unfold PutUint in Hput. rewrite Hbuf in Hput.
    pose proof (Put_ok_key_size _ _ _ _ Hput) as Hk.
    unfold GetUint.
    rewrite (Get_live b' key buf)
      by (eapply Put_live; [exact Hc|lia|exact Hput]).
    cbn [mbind result_bind]. rewrite Hu, Hlen.
    unfold Binary.MaxVarintLen64 in Hn.
    destruct (Z.eqb_spec n 10); [lia|reflexivity].
  - intros x b' Hx Hput.
    destruct (zigzag_round_trip x Hx) as [Hux Hdec]. cbv zeta in Hux, Hdec.
    unfold PutInt, Binary.PutVarint in Hput.
    destruct (PutUvarint_zeros _ Hux) as (buf & n & Hput1 & Hlen & Hn & _ & Hu).
    rewrite Hput1 in Hput.
    pose proof (Put_ok_key_size _ _ _ _ Hput) as Hk.
    unfold GetInt.
    rewrite (Get_live b' key buf)
      by (eapply Put_live; [exact Hc|lia|exact Hput]).
    cbn [mbind result_bind]. unfold Binary.Varint. rewrite Hu.
    destruct (Z.ltb_spec n 0); [lia|].
    f_equal. exact Hdec.
Qed.

Lemma GetUint_rejects_short_varints_witness :
  GetUint (PutUint fresh_db key_a 1234).1 key_a = Err ErrDecodeError
  /\ GetInt (PutInt fresh_db key_a 1234).1 key_a = Ok 1234.
Proof.
  destruct (GetUint_rejects_short_varints fresh_db key_a) as [HU HI].
  - exact fresh_db_curr_ok.
  - vm_compute. reflexivity.
  - split.
    + eapply (HU 1234).
      * vm_compute. split; [discriminate|reflexivity].
      * vm_compute. reflexivity.
      * vm_compute. reflexivity.
      * vm_compute. reflexivity.
    + apply (HI 1234).
      * vm_compute. split; [discriminate|reflexivity].
      * vm_compute. reflexivity.
Defined.

(** ** Recovery from the segments *)

Lemma fresh_db_is_Open : Open asc empty_dir [] = (dir fresh_db, Ok fresh_db).
Proof. vm_compute. reflexivity. Qed.

Lemma tiny_db_is_Open :
  Open asc empty_dir [WithMaxDatafileSize 1] = (dir tiny_db, Ok tiny_db).
Proof. vm_compute. reflexivity. Qed.

(** C2. A database with [Put(a, 1)] in segment 0 and [Put(a, 2)] in
    segment 1 is closed and its [index] file removed.  When the map range
    of [reopen] visits segment 1 before segment 0, the reopened database
    has the same [Len] but [Get(a)] returns the older value 1; when it
    visits the segments in id order, [Get(a)] returns 2 as before. *)
Theorem reopen_replays_in_map_order :
  let d := remove_index (dir (Close tiny_db_a2).1) in
  (Close tiny_db_a2).2 = Ok tt
  /\ Len tiny_db_a2 = 1
  /\ Get tiny_db_a2 key_a = Ok val_2
  /\ ParseIds d = [0; 1]
  /\ (exists d2, (Open desc d [WithMaxDatafileSize 1]).2 = Ok d2
                 /\ Len d2 = 1 /\ Get d2 key_a = Ok val_1)
  /\ (exists d2, (Open asc d [WithMaxDatafileSize 1]).2 = Ok d2
                 /\ Len d2 = 1 /\ Get d2 key_a = Ok val_2).
Proof.
  cbv zeta.
  do 4 (split; [vm_compute; reflexivity|]).
  split.
  - eexists. split; [vm_compute; reflexivity|].
    split; vm_compute; reflexivity.
  - eexists. split; [vm_compute; reflexivity|].
    split; vm_compute; reflexivity.
Qed.

(** ** Merge *)

Section SumMap.
Context {K : Type} `{Countable K}.

Lemma sum_map_empty {V : Type} (f : V -> Z) : sum_map f (∅ : gmap K V) = 0.
Proof. unfold sum_map. apply map_fold_empty. Qed.

Lemma sum_map_insert_new {V : Type} (f : V -> Z) (m : gmap K V) (i : K) (x : V) :
  m !! i = None -> sum_map f (<[i := x]> m) = f x + sum_map f m.
Proof.
  intros Hi. unfold sum_map.
  apply (map_fold_insert_L (fun _ v acc => f v + acc)); [|exact Hi].
  intros. lia.
Qed.

Lemma sum_map_insert_old {V : Type} (f : V -> Z) (m : gmap K V) (i : K) (x y : V) :
  m !! i = Some y -> sum_map f (<[i := x]> m) = sum_map f m - f y + f x.
Proof.
  intros Hi.
  rewrite <- (insert_delete_eq m i x).
  rewrite sum_map_insert_new by apply lookup_delete_eq.
  rewrite <- (insert_id m i y Hi) at 2.
  rewrite <- (insert_delete_eq m i y).
  rewrite sum_map_insert_new by apply lookup_delete_eq. lia.
Qed.

Lemma sum_map_delete {V : Type} (f : V -> Z) (m : gmap K V) (i : K) (y : V) :
  m !! i = Some y -> sum_map f (delete i m) = sum_map f m - f y.
Proof.
  intros Hi.
  rewrite <- (insert_id m i y Hi) at 2.
  rewrite <- (insert_delete_eq m i y).
  rewrite sum_map_insert_new by apply lookup_delete_eq. lia.
Qed.

Lemma sum_map_ext {V W : Type} (f : V -> Z) (g : W -> Z) (m1 : gmap K V) :
  forall (m2 : gmap K W),
    (forall k, f <$> (m1 !! k) = g <$> (m2 !! k)) ->
    sum_map f m1 = sum_map g m2.
Proof.
  induction m1 as [|i x m1 Hi IH] using map_ind; intros m2 Hext.
  - unfold sum_map at 1. rewrite map_fold_empty.
    assert (m2 = ∅) as ->.
    { apply map_empty. intros k. specialize (Hext k).
      rewrite lookup_empty in Hext. destruct (m2 !! k); [discriminate|done]. }
    unfold sum_map. by rewrite map_fold_empty.
  - rewrite sum_map_insert_new by assumption.
    pose proof (Hext i) as Hi2. rewrite lookup_insert_eq in Hi2.
    destruct (m2 !! i) as [y|] eqn:Ey; [|discriminate].
    injection Hi2 as Hxy.
    rewrite <- (insert_id m2 i y Ey), <- (insert_delete_eq m2 i y).
    rewrite sum_map_insert_new by apply lookup_delete_eq.
    rewrite Hxy. f_equal. apply IH. intros k.
    destruct (decide (k = i)) as [->|Hne].
    + rewrite Hi, lookup_delete_eq. reflexivity.
    + rewrite lookup_delete_ne by congruence.
      specialize (Hext k). rewrite lookup_insert_ne in Hext by congruence.
      exact Hext.
Qed.

End SumMap.

Lemma ReadFull_app (a r : bytes) (n : Z) :
  n = len a -> ReadFull (a ++ r) n = (r, Ok a).
Proof.
  intros ->. unfold ReadFull. pose proof (len_nonneg a) as Ha.
  destruct (Z.leb_spec (len a) 0).
  - assert (len a = 0) as E by lia. unfold len in E.
    destruct a; [reflexivity|simpl in E; lia].
  - rewrite len_app. pose proof (len_nonneg r).
    destruct (Z.leb_spec (len a) (len a + len r)); [|lia].
    unfold len. rewrite Nat2Z.id, drop_app_length, take_app_length.
    reflexivity.
Qed.

Lemma WriteIndex_fold (l : list (bytes * Item)) (w : bytes) :
  fold_left (fun w node => WriteItem node.2 (WriteBytes node.1 w)) l w
  = w ++ concat (map binding l).
Proof.
  revert w. induction l as [|node l IH]; intros w; cbn [fold_left map concat].
  - by rewrite app_nil_r.
  - rewrite IH. unfold WriteItem, WriteBytes, binding.
    rewrite <- !app_assoc. reflexivity.
Qed.

Lemma wrap_int64_uint64 (x : Z) :
  - 2 ^ 63 <= x < 2 ^ 63 -> wrap_int64 (wrap_uint64 x) = x.
Proof.
  intros Hx. unfold wrap_int64, wrap_uint64.
  rewrite Z.add_mod_idemp_l by lia.
  rewrite Z.mod_small by lia. lia.
Qed.

Lemma ReadBytes_binding (key rest : bytes) :
  len key < 2 ^ 32 ->
  Internal.ReadBytes (Binary.PutUint32 (wrap_uint32 (len key)) ++ key ++ rest)
  = (rest, Ok key).
Proof.
  intros Hk. unfold Internal.ReadBytes, Internal.int32Size.
  rewrite ReadFull_app by (rewrite len_PutUint32; reflexivity).
  pose proof (len_nonneg key).
  unfold wrap_uint32. rewrite Z.mod_small by lia.
  rewrite Uint32_PutUint32 by lia.
  apply ReadFull_app. reflexivity.
Qed.

Lemma ReadItem_binding (it : Item) (rest : bytes) :
  0 <= FileID it < 2 ^ 32 ->
  - 2 ^ 63 <= Offset it < 2 ^ 63 ->
  - 2 ^ 63 <= Size it < 2 ^ 63 ->
  Internal.ReadItem
    (Binary.PutUint32 (wrap_uint32 (FileID it))
     ++ Binary.PutUint64 (wrap_uint64 (Offset it))
     ++ Binary.PutUint64 (wrap_uint64 (Size it)) ++ rest)
  = (rest, Ok it).
Proof.
  intros Hf Ho Hs. unfold Internal.ReadItem.
  set (a := Binary.PutUint32 (wrap_uint32 (FileID it))).
  set (b := Binary.PutUint64 (wrap_uint64 (Offset it))).
  set (c := Binary.PutUint64 (wrap_uint64 (Size it))).
  replace (a ++ b ++ c ++ rest) with ((a ++ b ++ c) ++ rest)
    by (rewrite <- !app_assoc; reflexivity).
  assert (Ha : length a = 4%nat) by apply be_bytes_length.
  assert (Hb : length b = 8%nat) by apply be_bytes_length.
  assert (Hc : length c = 8%nat) by apply be_bytes_length.
  rewrite ReadFull_app
    by (unfold len; rewrite !length_app, Ha, Hb, Hc; reflexivity).
  cbn [mbind result_bind]. f_equal. f_equal.
  rewrite (take_app_length' a) by (symmetry; exact Ha).
  rewrite (drop_app_length' a) by (symmetry; exact Ha).
  rewrite (take_app_length' b) by (symmetry; exact Hb).
  replace (drop 12 (a ++ b ++ c)) with c.
  2:{ rewrite app_assoc.
      rewrite drop_app_length'; [reflexivity|].
      rewrite length_app, Ha, Hb. reflexivity. }
  subst a b c.
  assert (Hu32 : forall v, 0 <= v < 2 ^ 32 ->
            Binary.Uint32 (Binary.PutUint32 (wrap_uint32 v)) = v).
  { intros v Hv. unfold wrap_uint32. rewrite Z.mod_small by lia.
    apply Uint32_PutUint32. lia. }
  assert (Hu64 : forall v, - 2 ^ 63 <= v < 2 ^ 63 ->
            wrap_int64 (Binary.Uint64 (Binary.PutUint64 (wrap_uint64 v))) = v).
  { intros v Hv. rewrite Uint64_PutUint64.
    - apply wrap_int64_uint64. exact Hv.
    - unfold wrap_uint64. apply Z.mod_pos_bound. lia. }
  rewrite Hu32, !Hu64 by assumption.
  destruct it; reflexivity.
Qed.

Lemma binding_nonempty (node : bytes * Item) : binding node <> [].
Proof.
  intros E. apply (f_equal (@length byte)) in E.
  unfold binding in E. rewrite length_app in E.
  unfold Binary.PutUint32 at 1 in E. rewrite be_bytes_length in E.
  simpl in E. lia.
Qed.

Lemma readIndex_bindings (mk mv : Z) (l : list (bytes * Item)) :
  forall (fuel : nat) (t : gmap bytes Item),
    (length l < fuel)%nat -> Forall (binding_ok mk mv) l ->
    Index.readIndex fuel (concat (map binding l)) t mk mv
    = Ok (fold_left (fun m node => <[node.1 := node.2]> m) l t).
Proof.
  induction l as [|node l IH]; intros fuel t Hfuel Hok.
  - destruct fuel; [simpl in Hfuel; lia|]. reflexivity.
  - destruct fuel as [|fuel]; [simpl in Hfuel; lia|].
    inversion Hok as [|? ? (Hk1 & Hk2 & Hf & Ho & Hs & Hsz) Hok']; subst.
    cbn [map concat fold_left Index.readIndex].
    destruct (binding node ++ concat (map binding l)) as [|b0 r0] eqn:E.
    { apply app_eq_nil in E as [E _]. by apply binding_nonempty in E. }
    rewrite <- E. clear E b0 r0.
    unfold binding at 1. rewrite <- !app_assoc.
    rewrite ReadBytes_binding by assumption.
    destruct (Z.ltb_spec mk (len node.1)); [lia|].
    rewrite ReadItem_binding by assumption.
    destruct (Z.ltb_spec (16 + mk + mv) (Size node.2)); [lia|].
    apply IH; [simpl in Hfuel; lia|assumption].
Qed.

Lemma fold_insert_list_to_map (l : list (bytes * Item)) :
  forall (t : gmap bytes Item),
    NoDup l.*1 ->
    fold_left (fun m node => <[node.1 := node.2]> m) l t
    = list_to_map l ∪ t.
Proof.
  induction l as [|[k it] l IH]; intros t Hnd.
  - cbn. by rewrite (left_id_L ∅ (∪)).
  - cbn [fold_left fst snd list_to_map foldr]. cbn in Hnd.
    apply NoDup_cons in Hnd as [Hk Hnd].
    rewrite IH by assumption.
    rewrite <- insert_union_l. symmetry.
    apply insert_union_r. by apply not_elem_of_list_to_map_1.
Qed.

Lemma ReadFromFile_WriteIndex (t : gmap bytes Item) (mk mv : Z) :
  (forall key it, t !! key = Some it -> binding_ok mk mv (key, it)) ->
  Index.ReadFromFile (Some (WriteIndex t [])) mk mv = Ok (t, true).
Proof.
  intros Hok. unfold Index.ReadFromFile, WriteIndex.
  rewrite WriteIndex_fold. cbn [app].
  rewrite readIndex_bindings.
  - cbn [mbind result_bind].
    rewrite fold_insert_list_to_map by apply NoDup_fst_map_to_list.
    rewrite list_to_map_to_list, (right_id_L ∅ (∪)). reflexivity.
  - assert (Hlen : forall l : list (bytes * Item),
               (length l <= length (concat (map binding l)))%nat).
    { induction l as [|node l IH]; [simpl; lia|].
      cbn [map concat]. rewrite length_app.
      pose proof (binding_nonempty node).
      destruct (binding node); [congruence|]. simpl. lia. }
    specialize (Hlen (map_to_list t)). lia.
  - apply Forall_forall. intros [k it] Hin.
    apply Hok. by apply elem_of_map_to_list.
Qed.

Lemma elem_of_ParseIds (d : Dir) (i : Z) :
  i ∈ ParseIds d <-> is_Some (files d !! i).
Proof.
  unfold ParseIds. rewrite merge_sort_Permutation.
  rewrite list_elem_of_In, in_map_iff. split.
  - intros ([j c] & <- & Hin). apply list_elem_of_In in Hin.
    apply elem_of_map_to_list in Hin. cbn. eauto.
  - intros [c Hc]. exists (i, c). split; [reflexivity|].
    apply list_elem_of_In. by apply elem_of_map_to_list.
Qed.

Lemma open_sealed_spec (fs : gmap Z bytes) (ids : list Z) :
  forall (acc : gmap Z Data.datafile),
    (forall i, i ∈ ids -> is_Some (fs !! i)) ->
    (forall i df, acc !! i = Some df -> Data.id df = i) ->
    exists dfs,
      open_sealed ids fs acc = Ok dfs
      /\ (forall i df, dfs !! i = Some df -> Data.id df = i)
      /\ (forall i, i ∈ ids \/ is_Some (acc !! i) -> is_Some (dfs !! i)).
Proof.
  induction ids as [|id ids IH]; intros acc Hfs Hacc.
  - exists acc. split; [reflexivity|]. split; [assumption|].
    intros i [Hi|Hi]; [by apply elem_of_nil in Hi|assumption].
  - cbn [open_sealed]. unfold Data.NewDatafile.
    destruct (Hfs id) as [c Hc]; [by left|]. rewrite Hc. cbn [negb].
    destruct (IH (<[id := {| Data.id := id; Data.w := false;
                             Data.offset := len c; Data.rpos := 0 |}]> acc))
      as (dfs & Hopen & Hids & Hall).
    + intros i Hi. apply Hfs. by right.
    + intros i df. destruct (decide (i = id)) as [->|Hne].
      * rewrite lookup_insert_eq. by intros [= <-].
      * rewrite lookup_insert_ne by congruence. apply Hacc.
    + exists dfs. split; [exact Hopen|]. split; [exact Hids|].
      intros i Hi. apply Hall.
      destruct (decide (i = id)) as [->|Hne].
      * right. rewrite lookup_insert_eq. eauto.
      * rewrite lookup_insert_ne by congruence.
        destruct Hi as [Hi|Hi]; [|by right].
        apply elem_of_cons in Hi as [->|Hi]; [congruence|by left].
Qed.

Lemma last_elem_of (ids : list Z) (d : Z) :
  ids <> [] -> List.last ids d ∈ ids.
Proof.
  induction ids as [|i ids IH]; [congruence|]. intros _.
  destruct ids as [|j ids]; [by left|].
  right. apply IH. congruence.
Qed.

Lemma set_files_same (d : Dir) : set_files d (files d) = d.
Proof. by destruct d. Qed.

(** [reopen] on a directory with segments and a valid [index] file. *)
Lemma reopen_with_index (mapiter : mapiterT) (b : Bitcask) (idx : bytes)
    (t : gmap bytes Item) :
  index_file (dir b) = Some idx ->
  Index.ReadFromFile (Some idx) (maxKeySize (config b))
                     (maxValueSize (config b)) = Ok (t, true) ->
  files (dir b) <> ∅ ->
  exists b',
    reopen mapiter b = (b', Ok tt)
    /\ trie b' = t /\ config b' = config b /\ options b' = options b
    /\ dir b' = dir b /\ curr_ok b'
    /\ (forall i, is_Some (files (dir b) !! i) ->
        i = Data.id (curr b')
        \/ exists df, datafiles b' !! i = Some df /\ Data.id df = i).
Proof.
  intros Hidx Hread Hne. unfold reopen. rewrite Hidx, Hread.
  destruct (open_sealed_spec (files (dir b)) (ParseIds (dir b)) ∅)
    as (dfs & -> & Hids & Hall).
  { intros i Hi. by apply elem_of_ParseIds. }
  { intros i df Hi. by rewrite lookup_empty in Hi. }
  assert (Hids' : ParseIds (dir b) <> []).
  { apply map_choose in Hne as (i & c & Hc).
    intros E. assert (Hi : i ∈ ParseIds (dir b))
      by (apply elem_of_ParseIds; eauto).
    rewrite E in Hi. by apply elem_of_nil in Hi. }
  set (id := match ParseIds (dir b) with
             | [] => 0
             | _ => List.last (ParseIds (dir b)) 0
             end).
  assert (Hid : id ∈ ParseIds (dir b)).
  { subst id. destruct (ParseIds (dir b)) eqn:E; [congruence|].
    rewrite <- E. apply last_elem_of. congruence. }
  apply elem_of_ParseIds in Hid as [c Hc].
  unfold Data.NewDatafile. rewrite Hc. cbn [negb].
  eexists. split; [reflexivity|].
  cbn [trie config options dir curr datafiles].
  rewrite set_files_same.
  split_all; try reflexivity.
  - split; [reflexivity|]. exists c. cbn [curr dir Data.id Data.offset].
    split; [exact Hc|reflexivity].
  - intros i Hi. right.
    destruct (Hall i) as [df Hdf]; [left; by apply elem_of_ParseIds|].
    exists df. split; [exact Hdf|]. by apply Hids.
Qed.

(** The exact effect of a [put] that finds room. *)
Lemma put_exact (b : Bitcask) (key value c : bytes) :
  curr_ok b ->
  files (dir b) !! Data.id (curr b) = Some c ->
  let rot := maxDatafileSize (config b) <=? Data.Size (curr b) in
  let id' := if rot then Data.id (curr b) + 1 else Data.id (curr b) in
  let old := if rot then default [] (files (dir b) !! (Data.id (curr b) + 1))
             else c in
  (rot = true -> - 2 ^ 63 <= Data.id (curr b) < max_int64) ->
  len old + len (record key value) <= max_int64 ->
  exists b',
    put b key value = (b', Ok (len old, len (record key value)))
    /\ trie b' = trie b /\ config b' = config b /\ options b' = options b
    /\ files (dir b') = <[id' := old ++ record key value]> (files (dir b))
    /\ Data.id (curr b') = id'
    /\ curr_ok b'.
Proof.
  intros Hc Hfile rot id' old Hid Hfit.
  destruct rot eqn:Hrot; subst rot id' old.
  - (* rotation *)
    apply Z.leb_le in Hrot. specialize (Hid eq_refl).
    assert (Hn : wrap_int64 (Data.keySize + Data.valueSize
                             + len (Key (NewEntry key value))
                             + len (Value (NewEntry key value))
                             + Data.checksumSize) = len (record key value)).
    { rewrite len_record in *. cbn [Key Value NewEntry].
      unfold Data.keySize, Data.valueSize, Data.checksumSize.
      pose proof (len_nonneg key). pose proof (len_nonneg value).
      pose proof (len_nonneg (default [] (files (dir b) !! (Data.id (curr b) + 1)))).
      rewrite wrap_int64_small; unfold max_int64 in *; lia. }
    unfold put, Data.Close, Data.FileID.
    destruct (Z.leb_spec (maxDatafileSize (config b)) (Data.Size (curr b)));
      [|lia].
    unfold Data.NewDatafile at 1. rewrite Hfile. cbn [negb].
    rewrite (wrap_int64_small (Data.id (curr b) + 1))
      by (unfold max_int64 in *; lia).
    unfold Data.NewDatafile.
    destruct (files (dir b) !! (Data.id (curr b) + 1)) as [c'|] eqn:Hc';
      cbn [default from_option Datatypes.id] in *;
      cbn [curr dir set_files files]; unfold Data.Write, Data.encode;
      cbn [Data.w negb Data.id Data.offset Data.rpos Checksum Key Value];
      rewrite ?Hc', ?lookup_insert_eq;
      change (Data.frame _) with (record key value).
    + destruct (Z.ltb_spec max_int64 (len c' + len (record key value)));
        [lia|].
      rewrite Hn. eexists. split; [reflexivity|].
      cbn [trie config options dir set_files files curr Data.id].
      split_all; try reflexivity.
      split; [reflexivity|]. cbn [curr dir set_files files Data.id Data.offset].
      exists (c' ++ record key value). rewrite lookup_insert_eq.
      split; [reflexivity|].
      rewrite len_app. apply wrap_int64_small.
      pose proof (len_nonneg c'). pose proof (len_nonneg (record key value)).
      unfold max_int64 in *. lia.
    + destruct (Z.ltb_spec max_int64 (len [] + len (record key value)));
        [lia|].
      rewrite Hn. eexists. split; [reflexivity|].
      cbn [trie config options dir set_files files curr Data.id].
      split_all; try reflexivity.
      * apply insert_insert_eq.
      * split; [reflexivity|].
        cbn [curr dir set_files files Data.id Data.offset].
        exists (record key value). rewrite lookup_insert_eq.
        split; [reflexivity|].
        apply wrap_int64_small.
        pose proof (len_nonneg (record key value)).
        change (len []) with 0 in *. unfold max_int64 in *. lia.
  - (* no rotation *)
    apply Z.leb_gt in Hrot.
    destruct Hc as (Hw & c1 & Hc1 & Hoff).
    assert (c1 = c) as -> by congruence.
    unfold put.
    destruct (Z.leb_spec (maxDatafileSize (config b)) (Data.Size (curr b)));
      [lia|].
    unfold Data.Write, Data.encode. rewrite Hw, Hfile. cbn [negb].
    cbn [Checksum Key Value].
    change (Data.frame _) with (record key value).
    destruct (Z.ltb_spec max_int64 (len c + len (record key value))); [lia|].
    assert (Hn : wrap_int64 (Data.keySize + Data.valueSize
                             + len (Key (NewEntry key value))
                             + len (Value (NewEntry key value))
                             + Data.checksumSize) = len (record key value)).
    { rewrite len_record in *. cbn [Key Value NewEntry].
      unfold Data.keySize, Data.valueSize, Data.checksumSize.
      pose proof (len_nonneg key). pose proof (len_nonneg value).
      pose proof (len_nonneg c).
      rewrite wrap_int64_small; unfold max_int64 in *; lia. }
    rewrite Hn. cbn [EOffset]. rewrite Hoff.
    eexists. split; [reflexivity|].
    cbn [trie config options dir set_files files curr Data.id].
    split_all; try reflexivity.
    split; [reflexivity|]. cbn [curr dir set_files files Data.id Data.offset].
    exists (c ++ record key value). rewrite lookup_insert_eq.
    split; [reflexivity|].
    rewrite len_app. apply wrap_int64_small.
    pose proof (len_nonneg c). pose proof (len_nonneg (record key value)).
    unfold max_int64 in *. lia.
Qed.

Lemma wf_key (b : Bitcask) (key : bytes) (itb : Item) :
  wf b -> trie b !! key = Some itb ->
  exists value,
    Get b key = Ok value /\ Size itb = len (record key value)
    /\ len key <= maxKeySize (config b)
    /\ len value <= maxValueSize (config b).
Proof.
  intros (_ & Hkeys & _ & (Hmk & Hroom) & _) Hit.
  destruct (Hkeys key itb Hit) as (value & Hh & Hrec & Hk & Hv).
  exists value. split_all; try assumption.
  - apply Get_live. exists itb. split_all; try assumption; [lia|].
    pose proof (len_nonneg key). unfold max_int64 in Hroom. lia.
  - destruct Hrec as (c & _ & _ & Hsz & _). exact Hsz.
Qed.

Lemma merge_step (b mdb : Bitcask) (done : list bytes) (key : bytes)
    (itb : Item) :
  wf b -> merge_inv b mdb done -> key ∉ done ->
  trie b !! key = Some itb -> Z.of_nat (length done) < 2 ^ 32 ->
  exists value mdb',
    Get b key = Ok value /\ Put mdb key value = (mdb', Ok tt)
    /\ merge_inv b mdb' (done ++ [key]).
Proof.
  intros Hwf (Hcfg & Hc & Hid & Hfiles & Hbytes & Hdom & Hkeys) Hnew Hit Hlen.
  destruct (wf_key b key itb Hwf Hit) as (value & Hget & Hsz & Hk & Hv).
  destruct Hwf as (_ & _ & _ & (Hmk & Hroom) & _).
  exists value.
  pose proof Hc as (Hw & c & Hfile & Hoff).
  pose proof (len_nonneg key). pose proof (len_nonneg value).
  pose proof (len_nonneg c). pose proof (len_record key value) as Hlr.
  set (rot := maxDatafileSize (config mdb) <=? Data.Size (curr mdb)).
  set (id' := if rot then Data.id (curr mdb) + 1 else Data.id (curr mdb)).
  set (old := if rot
              then default [] (files (dir mdb) !! (Data.id (curr mdb) + 1))
              else c).
  assert (Hnone : files (dir mdb) !! (Data.id (curr mdb) + 1) = None).
  { destruct (files (dir mdb) !! (Data.id (curr mdb) + 1)) as [c'|] eqn:E;
      [|reflexivity].
    apply Hfiles in E. lia. }
  assert (Hold : old = if rot then [] else c).
  { subst old. rewrite Hnone. reflexivity. }
  assert (Hfit : len old + len (record key value) <= max_int64).
  { rewrite Hold. subst rot. unfold Data.Size. rewrite Hcfg.
    destruct (Z.leb_spec (maxDatafileSize (config b)) (Data.offset (curr mdb))).
    - change (len []) with 0. unfold max_int64 in *. lia.
    - unfold max_int64 in *. lia. }
  destruct (put_exact mdb key value c Hc Hfile) as
    (b' & Hput & Ht & Hcfg' & Hopt' & Hfs & Hid' & Hc');
    [intros _; unfold max_int64; lia|exact Hfit|].
  fold rot id' old in Hput, Hfs, Hid'.
  unfold Put. rewrite Hcfg.
  destruct (Z.ltb_spec (maxKeySize (config b)) (len key)); [lia|].
  destruct (Z.ltb_spec (maxValueSize (config b)) (len value)); [lia|].
  rewrite Hput. unfold Data.Sync.
  set (it := {| FileID := Data.FileID (curr b'); Offset := len old;
                Size := len (record key value) |}).
  exists (set_trie b' (<[key := it]> (trie b'))).
  split; [exact Hget|].
  split; [destruct (sync (config b')); reflexivity|].
  assert (Hkn : trie mdb !! key = None).
  { destruct (trie mdb !! key) eqn:E; [|reflexivity].
    exfalso. apply Hnew, Hdom. eauto. }
  assert (Hgrow : grows (files (dir mdb)) (files (dir b'))).
  { rewrite Hfs. subst id'. rewrite Hold. destruct rot.
    - apply grows_insert_new. exact Hnone.
    - intros i ci Hci. destruct (decide (i = Data.id (curr mdb))) as [->|Hne].
      + rewrite lookup_insert_eq. exists (record key value). congruence.
      + rewrite lookup_insert_ne by congruence. exists []. by rewrite app_nil_r. }
  assert (Hid'' : Data.id (curr mdb) <= id' <= Data.id (curr mdb) + 1)
    by (subst id'; destruct rot; lia).
  unfold merge_inv. cbn [set_trie config curr dir trie].
  split; [congruence|]. split; [exact Hc'|].
  split; [rewrite length_app; cbn [length]; lia|].
  split.
  { intros i ci. rewrite Hfs.
    destruct (decide (i = id')) as [->|Hne].
    - rewrite lookup_insert_eq. intros [= <-]. rewrite len_app. lia.
    - rewrite lookup_insert_ne by congruence. intros Hci.
      destruct (Hfiles i ci Hci). lia. }
  split.
  { unfold data_bytes, live_bytes. rewrite Hfs, Ht.
    rewrite (sum_map_insert_new Size) by exact Hkn.
    unfold data_bytes, live_bytes in Hbytes. rewrite <- Hbytes.
    cbn [Size it]. subst id'. rewrite Hold. destruct rot.
    - rewrite (sum_map_insert_new len) by exact Hnone. reflexivity.
    - rewrite (sum_map_insert_old len _ _ _ c) by exact Hfile.
      rewrite len_app. lia. }
  split.
  { intros k. rewrite Ht, elem_of_app, list_elem_of_singleton.
    destruct (decide (k = key)) as [->|Hne].
    - rewrite lookup_insert_eq. split; eauto.
    - rewrite lookup_insert_ne by congruence. rewrite Hdom. tauto. }
  intros k itk. rewrite Ht.
  destruct (decide (k = key)) as [->|Hne].
  - rewrite lookup_insert_eq. intros [= <-].
    exists value, itb. split_all; try assumption.
    + cbn [Size it]. congruence.
    + exists (old ++ record key value). cbn [FileID Offset Size it].
      unfold Data.FileID. rewrite Hid', Hfs, lookup_insert_eq.
      pose proof (len_nonneg old).
      split_all; try reflexivity; try lia.
      * rewrite len_app. lia.
      * unfold len. rewrite !Nat2Z.id, drop_app_length. apply firstn_all.
  - rewrite lookup_insert_ne by congruence. intros Hk'.
    destruct (Hkeys k itk Hk') as (v & itb' & G1 & G2 & G3 & G4 & G5 & G6).
    exists v, itb'. split_all; try assumption.
    eapply record_at_grows; eassumption.
Qed.

Lemma Open_empty_dir (mapiter : mapiterT) (opts : list Option) (cfg : configT) :
  apply_options opts newDefaultConfig = (cfg, Ok tt) ->
  Open mapiter empty_dir opts
  = (dir (empty_db cfg opts), Ok (empty_db cfg opts)).
Proof.
  intros Hopts. unfold Open.
  cbn [getConfig config_file empty_dir]. rewrite Hopts.
  cbn [lock_file empty_dir]. unfold reopen.
  cbn [dir files index_file config]. unfold ParseIds, empty_dir.
  cbn [files index_file].
  rewrite map_to_list_empty. cbn [map]. cbn.
  rewrite replay_all_no_datafiles. cbn. reflexivity.
Qed.

Lemma merge_inv_empty_db (b : Bitcask) :
  merge_inv b (empty_db (config b) (options b)) [].
Proof.
  unfold merge_inv, empty_db. cbn [config curr dir files trie Data.id length].
  split_all; try reflexivity; try lia.
  - split; [reflexivity|]. exists []. cbn. split; reflexivity.
  - intros i c Hc. apply lookup_singleton_Some in Hc as [<- <-].
    change (len []) with 0. unfold max_int64. lia.
  - intros k. rewrite lookup_empty. split.
    + intros [x Hx]. discriminate.
    + intros Hk. by apply elem_of_nil in Hk.
  - intros k it Hk. by rewrite lookup_empty in Hk.
Qed.

Lemma merge_loop (b : Bitcask) (l : list (bytes * Item)) :
  wf b ->
  forall (done : list bytes) (mdb : Bitcask),
    NoDup (done ++ l.*1) ->
    (forall node, node ∈ l -> trie b !! node.1 = Some node.2) ->
    merge_inv b mdb done ->
    Z.of_nat (length done + length l) < 2 ^ 32 ->
    exists mdb',
      ForEach l (merge_callback b) mdb = (mdb', Ok tt)
      /\ merge_inv b mdb' (done ++ l.*1).
Proof.
  intros Hwf. induction l as [|[k itb] l IH]; intros done mdb Hnd Hl Hinv Hlen.
  - exists mdb. cbn. rewrite app_nil_r. auto.
  - cbn [fmap list_fmap fst] in Hnd.
    assert (Hk : k ∉ done).
    { apply NoDup_app in Hnd as (_ & Hdis & _). intros Hin.
      apply (Hdis k Hin). by left. }
    destruct (merge_step b mdb done k itb Hwf Hinv Hk)
      as (v & mdb1 & Hget & Hput & Hinv1).
    { apply (Hl (k, itb)). by left. }
    { cbn [length] in Hlen. lia. }
    destruct (IH (done ++ [k]) mdb1) as (mdb' & Hloop & Hinv').
    + rewrite <- app_assoc. exact Hnd.
    + intros node Hin. apply Hl. by right.
    + exact Hinv1.
    + rewrite length_app. cbn [length] in *. lia.
    + exists mdb'. cbn [ForEach]. unfold merge_callback at 1. cbn [fst].
      rewrite Hget, Hput. split; [exact Hloop|].
      cbn [fmap list_fmap fst]. rewrite <- app_assoc in Hinv'. exact Hinv'.
Qed.

(** *** The invariant is kept by every write *)

Lemma grows_bytes (fs : gmap Z bytes) :
  forall fs', grows fs fs' -> sum_map len fs <= sum_map len fs'.
Proof.
  induction fs as [|i c fs Hi IH] using map_ind; intros fs' Hg.
  - rewrite sum_map_empty. clear Hg.
    induction fs' as [|j cj fs' Hj IH'] using map_ind.
    + rewrite sum_map_empty. lia.
    + rewrite sum_map_insert_new by assumption.
      pose proof (len_nonneg cj). lia.
  - rewrite sum_map_insert_new by assumption.
    destruct (Hg i c) as (c' & Hc'); [apply lookup_insert_eq|].
    rewrite <- (insert_id fs' i _ Hc'), <- (insert_delete_eq fs').
    rewrite sum_map_insert_new by apply lookup_delete_eq.
    rewrite len_app. pose proof (len_nonneg c').
    assert (sum_map len fs <= sum_map len (delete i fs')); [|lia].
    apply IH. intros j cj Hj.
    assert (j <> i) by congruence.
    destruct (Hg j cj) as (cj' & Hcj'); [by rewrite lookup_insert_ne|].
    exists cj'. by rewrite lookup_delete_ne.
Qed.

(** A successful [put] adds the bytes of its record to the segments. *)
Lemma put_bytes (b b' : Bitcask) (key value : bytes) (r : result (Z * Z)) :
  put b key value = (b', r) ->
  data_bytes (dir b)
  + match r with Ok (_, n) => n | _ => 0 end <= data_bytes (dir b')
  /\ match r with
     | Ok (_, n) => n = len (record key value)
     | _ => True
     end.
Proof.
  rewrite put_rotate. intros H.
  destruct (rotate b) as [b1 r1] eqn:Hrot.
  apply rotate_keeps in Hrot as (_ & _ & _ & _ & _ & _ & Hg & _).
  apply grows_bytes in Hg. fold (data_bytes (dir b)) in Hg.
  fold (data_bytes (dir b1)) in Hg.
  destruct r1 as [[]|e|]; [|injection H as <- <-; split; [lia|exact I]..].
  destruct (Data.Write (curr b1) (files (dir b1)) (NewEntry key value))
    as [[curr' fs'] r'] eqn:Hw.
  injection H as <- <-.
  apply Write_spec in Hw as (_ & _ & Hg' & _ & Hr).
  unfold data_bytes in *. cbn [dir set_files files].
  destruct r' as [[off n]|e|]; [| |contradiction].
  - destruct Hr as (_ & _ & -> & c & Hc & -> & _).
    rewrite (sum_map_insert_old len _ _ _ c) by exact Hc.
    rewrite len_app. split; [|reflexivity].
    change (Data.frame (NewEntry key value)) with (record key value). lia.
  - apply grows_bytes in Hg'. split; [lia|exact I].
Qed.

Lemma wf_empty_db (cfg : configT) (opts : list Option) :
  config_sane cfg -> apply_options opts newDefaultConfig = (cfg, Ok tt) ->
  wf (empty_db cfg opts).
Proof.
  intros Hsane Hopts. unfold wf, empty_db. cbn [config options dir trie].
  split_all; try assumption.
  - split; [reflexivity|]. exists []. split; reflexivity.
  - intros key it Hk. by rewrite lookup_empty in Hk.
  - unfold live_bytes, data_bytes. cbn [files].
    rewrite sum_map_empty, <- insert_empty.
    rewrite sum_map_insert_new, sum_map_empty by apply lookup_empty.
    change (len []) with 0. lia.
Qed.

Lemma live_bytes_insert_le (t : gmap bytes Item) (key : bytes) (it : Item) :
  (forall k i, t !! k = Some i -> 0 <= Size i) ->
  live_bytes (<[key := it]> t) <= live_bytes t + Size it.
Proof.
  intros Hpos. unfold live_bytes.
  destruct (t !! key) as [old|] eqn:E.
  - rewrite (sum_map_insert_old Size _ _ _ old) by exact E.
    specialize (Hpos _ _ E). lia.
  - rewrite sum_map_insert_new by exact E. lia.
Qed.

Lemma live_bytes_delete_le (t : gmap bytes Item) (key : bytes) :
  (forall k i, t !! k = Some i -> 0 <= Size i) ->
  live_bytes (delete key t) <= live_bytes t.
Proof.
  intros Hpos. unfold live_bytes.
  destruct (t !! key) as [old|] eqn:E.
  - rewrite (sum_map_delete Size _ _ old) by exact E.
    specialize (Hpos _ _ E). lia.
  - rewrite delete_id by exact E. lia.
Qed.

Lemma wf_sizes_nonneg (b : Bitcask) :
  wf b -> forall k i, trie b !! k = Some i -> 0 <= Size i.
Proof.
  intros (_ & Hkeys & _) k i Hk.
  destruct (Hkeys k i Hk) as (v & _ & (c & _ & _ & -> & _) & _).
  apply len_nonneg.
Qed.

(** The invariant passes through [put]: the index is untouched, the
    segments only grow. *)
Lemma put_wf (b b' : Bitcask) (key value : bytes) (r : result (Z * Z)) :
  wf b -> put b key value = (b', r) ->
  wf b'
  /\ live_bytes (trie b') + match r with Ok (_, n) => n | _ => 0 end
     <= data_bytes (dir b').
Proof.
  intros Hwf Hput. pose proof (put_bytes _ _ _ _ _ Hput) as [Hbytes Hn].
  apply put_keeps in Hput
    as (Ht & Hcfg & Hopt & _ & _ & _ & Hg & Hh & Hok & _).
  destruct Hwf as (Hc & Hkeys & Hlive & Hsane & Hopts).
  assert (Hpos : 0 <= match r with Ok (_, n) => n | _ => 0 end).
  { destruct r as [[off n]|e|]; [|lia..]. subst n. apply len_nonneg. }
  unfold wf. rewrite Ht, Hcfg, Hopt. split_all; auto; try lia.
  intros k it Hk. destruct (Hkeys k it Hk) as (v & H1 & H2 & H3 & H4).
  exists v. split_all; auto. eapply record_at_grows; eassumption.
Qed.

(** [Put] keeps the invariant, whether it succeeds or not. *)
Lemma Put_wf (b b' : Bitcask) (key value : bytes) (r : result unit) :
  wf b -> Put b key value = (b', r) -> wf b'.
Proof.
  intros Hwf. unfold Put.
  destruct (Z.ltb_spec (maxKeySize (config b)) (len key));
    [by intros [= <- <-]|].
  destruct (Z.ltb_spec (maxValueSize (config b)) (len value));
    [by intros [= <- <-]|].
  destruct (put b key value) as [b1 r1] eqn:Hput.
  pose proof (put_wf _ _ _ _ _ Hwf Hput) as [Hwf1 Hroom].
  pose proof Hput as Hk. apply put_keeps in Hk
    as (_ & Hcfg & _ & _ & _ & _ & _ & _ & _ & Hrec).
  destruct r1 as [[off n]|e|]; [|by intros [= <- <-]..].
  destruct (Hrec (proj1 Hwf) off n eq_refl) as (c & Hfile & -> & -> & Hfit).
  intros Hres.
  assert (b' = set_trie b1 (<[key := {| FileID := Data.FileID (curr b1);
                                        Offset := len c;
                                        Size := len (record key value) |}]>
                              (trie b1))) as ->.
  { unfold Data.Sync in Hres. destruct (sync (config b1)); by injection Hres. }
  pose proof (wf_sizes_nonneg _ Hwf1) as Hpos.
  destruct Hwf1 as (Hc1 & Hkeys1 & Hlive1 & Hsane1 & Hopts1).
  unfold wf. cbn [set_trie trie config options dir curr].
  split_all; auto.
  - intros k it. destruct (decide (k = key)) as [->|Hne].
    + rewrite lookup_insert_eq. intros [= <-]. exists value.
      split_all; try (rewrite Hcfg; lia).
      * left. reflexivity.
      * exists (c ++ record key value).
        cbn [FileID Offset Size]. unfold Data.FileID.
        pose proof (len_nonneg c). pose proof (len_nonneg (record key value)).
        split_all; auto; try lia.
        -- rewrite len_app. lia.
        -- unfold len. rewrite !Nat2Z.id, drop_app_length. apply firstn_all.
    + rewrite lookup_insert_ne by congruence. apply Hkeys1.
  - etrans; [apply live_bytes_insert_le; exact Hpos|].
    cbn [Size]. exact Hroom.
Qed.

(** [Delete] keeps the invariant, whether it succeeds or not. *)
Lemma Delete_wf (b b' : Bitcask) (key : bytes) (r : result unit) :
  wf b -> Delete b key = (b', r) -> wf b'.
Proof.
  intros Hwf. unfold Delete.
  destruct (put b key []) as [b1 r1] eqn:Hput.
  pose proof (put_wf _ _ _ _ _ Hwf Hput) as [Hwf1 Hroom].
  destruct r1 as [[off n]|e|]; [|by intros [= <- <-]..].
  intros [= <- <-].
  pose proof (wf_sizes_nonneg _ Hwf1) as Hpos.
  destruct Hwf1 as (Hc1 & Hkeys1 & Hlive1 & Hsane1 & Hopts1).
  unfold wf. cbn [set_trie trie config options dir curr].
  split_all; auto.
  - intros k it Hk. apply lookup_delete_Some in Hk as [_ Hk].
    apply Hkeys1. exact Hk.
  - etrans; [apply live_bytes_delete_le; exact Hpos|]. exact Hlive1.
Qed.

(** Every database reached from a fresh one by [Put]s and [Delete]s
    satisfies the invariant. *)
Lemma run_wf (ops : list op) (b : Bitcask) : wf b -> wf (run ops b).
Proof.
  revert b. induction ops as [|o ops IH]; intros b Hwf; [exact Hwf|].
  cbn [run fold_left]. apply IH.
  destruct o as [k v|k]; cbn [apply_op].
  - destruct (Put b k v) as [b1 r] eqn:E. eapply Put_wf; eassumption.
  - destruct (Delete b k) as [b1 r] eqn:E. eapply Delete_wf; eassumption.
Qed.

Lemma newDefaultConfig_sane : config_sane newDefaultConfig.
Proof. split; vm_compute; [reflexivity|discriminate]. Qed.

Lemma fresh_db_wf : wf fresh_db.
Proof. apply wf_empty_db; [apply newDefaultConfig_sane|reflexivity]. Qed.

Lemma Merge_fold (b mdb : Bitcask) :
  Fold b (fun key mdb =>
            match Get b key with
            | Ok value => Put mdb key value
            | Err e => (mdb, Err e)
            | Panic => (mdb, Panic)
            end) mdb
  = let '(s', r) := ForEach (map_to_list (trie b)) (merge_callback b) mdb in
    (s', _ ← r; Ok tt).
Proof. reflexivity. Qed.



(** C6. [Merge] copies the keys with [Fold], and [Fold] drops the error
    of its visitor: a key that [Merge] cannot copy ends the copy, and
    [Merge] goes on, removes the files of the database and returns no
    error.  First input: the key [a] holds a two-byte value and the
    database is opened with a maximum value size of one byte, so the
    [Put] into the merged database fails.  Second input: the record of
    the key [a] fails its checksum, so the [Get] fails.  Either way
    [Merge] returns no error, [Len] drops from 1 to 0 and [Get] of the
    key changes to key-not-found. *)
Theorem Merge_drops_the_keys_it_cannot_copy :
  (exists b, (Open asc narrowed_dir [WithMaxValueSize 1]).2 = Ok b
             /\ Len b = 1 /\ Get b key_a = Ok val_12
             /\ (Merge asc b).2 = Ok tt
             /\ Len (Merge asc b).1 = 0
             /\ Get (Merge asc b).1 key_a = Err ErrKeyNotFound)
  /\ Len corrupted_db = 1
  /\ Get corrupted_db key_a = Err ErrChecksumFailed
  /\ (Merge asc corrupted_db).2 = Ok tt
  /\ Len (Merge asc corrupted_db).1 = 0
  /\ Get (Merge asc corrupted_db).1 key_a = Err ErrKeyNotFound.
Proof.
  split.
  - eexists. split; [vm_compute; reflexivity|].
    split_all; vm_compute; reflexivity.
  - split_all; vm_compute; reflexivity.
Qed.

(** * Further properties of the code *)

(** ** The two record codecs, on whole and on torn frames *)

Lemma Codec_Encode_frame (w : bytes) (e : Entry) :
  (Codec.Encode w e).1 = w ++ Data.frame e.
Proof. reflexivity. Qed.

Lemma len_frame (e : Entry) :
  len (Data.frame e) = 16 + len (Key e) + len (Value e).
Proof.
  unfold Data.frame. rewrite !len_app, !len_PutUint32, len_PutUint64. lia.
Qed.

Lemma len_take_le (b : bytes) (n : Z) :
  0 <= n <= len b -> len (take (Z.to_nat n) b) = n.
Proof. unfold len. intros Hn. rewrite length_take. lia. Qed.

(** [io.ReadFull] on a stream that is shorter than the buffer. *)
Lemma ReadFull_short (r : bytes) (n : Z) :
  len r < n -> 0 < n ->
  ReadFull r n = ([], Err (if decide (r = []) then EOF else ErrUnexpectedEOF)).
Proof.
  intros Hr Hn. unfold ReadFull.
  destruct (Z.leb_spec n 0); [lia|].
  destruct (Z.leb_spec n (len r)); [lia|].
  destruct r; reflexivity.
Qed.

(** The twelve bytes of the two length prefixes. *)
Lemma frame_prefix (e : Entry) :
  exists prefix payload,
    Data.frame e = prefix ++ payload /\ len prefix = 12
    /\ payload = Key e ++ Value e ++ Binary.PutUint32 (Checksum e)
    /\ (len (Key e) < 2 ^ 32 -> len (Value e) < 2 ^ 64 ->
        Data.getKeyValueSizes prefix = Ok (len (Key e), len (Value e))).
Proof.
  exists (Binary.PutUint32 (wrap_uint32 (len (Key e)))
          ++ Binary.PutUint64 (wrap_uint64 (len (Value e)))),
         (Key e ++ Value e ++ Binary.PutUint32 (Checksum e)).
  split_all.
  - unfold Data.frame. rewrite <- app_assoc. reflexivity.
  - rewrite len_app, len_PutUint32, len_PutUint64. reflexivity.
  - reflexivity.
  - intros Hk Hv.
    pose proof (getKeyValueSizes_record (Key e) [] [] Hk) as Hs.
    pose proof (len_nonneg (Key e)). pose proof (len_nonneg (Value e)).
    unfold Data.getKeyValueSizes.
    rewrite slice_app_fst by (rewrite len_PutUint32; reflexivity).
    cbn [mbind result_bind].
    rewrite slice_app_snd
      by (rewrite ?len_app, ?len_PutUint32; reflexivity).
    cbn [mbind result_bind]. rewrite len_PutUint64.
    destruct (Z.ltb_spec 8 Data.valueSize) as [Hlt|_];
      [unfold Data.valueSize in Hlt; lia|].
    unfold wrap_uint32, wrap_uint64. rewrite !Z.mod_small by lia.
    rewrite Uint32_PutUint32, Uint64_PutUint64 by lia. reflexivity.
Qed.

(** X1. [Decoder.Decode] of [internal/codec] on what [Encoder.Encode]
    wrote for an entry consumes exactly the frame and returns its length,
    16 plus the key and value lengths, and the checksum; but it cuts the
    key and value bytes at the value length: the key returned is the
    first [len(value)] bytes of key followed by value, the value
    returned is the rest.  The key comes back as written exactly when key
    and value have the same length. *)
Theorem Codec_Decode_splits_at_the_value_size (e e0 : Entry) (rest : bytes) :
  len (Key e) < 2 ^ 32 -> 0 <= Checksum e < 2 ^ 32 ->
  16 + len (Key e) + len (Value e) <= max_int64 ->
  Codec.Decode ((Codec.Encode [] e).1 ++ rest) e0
  = (rest,
     Ok ({| Checksum := Checksum e;
            Key := take (length (Value e)) (Key e ++ Value e);
            EOffset := EOffset e0;
            Value := drop (length (Value e)) (Key e ++ Value e) |},
         16 + len (Key e) + len (Value e)))
  /\ (take (length (Value e)) (Key e ++ Value e) = Key e
      <-> len (Key e) = len (Value e)).
Proof.
  intros Hk Hsum Hfit.
  pose proof (len_nonneg (Key e)). pose proof (len_nonneg (Value e)).
  assert (Hv : len (Value e) < 2 ^ 64) by (unfold max_int64 in *; lia).
  split.
  - rewrite Codec_Encode_frame. cbn [app].
    destruct (frame_prefix e) as (prefix & payload & -> & H12 & Hpl & Hsz).
    specialize (Hsz Hk Hv).
    rewrite <- app_assoc. unfold Codec.Decode.
    rewrite (ReadFull_app prefix) by (rewrite H12; reflexivity).
    change Codec.GetKeyValueSizes with Data.getKeyValueSizes.
    rewrite Hsz.
    unfold Codec.checksumSize, Codec.KeySize, Codec.ValueSize.
    assert (Hw : wrap_uint64 (len (Key e) + len (Value e) + 4)
                 = len (Key e) + len (Value e) + 4).
    { unfold wrap_uint64. apply Z.mod_small. unfold max_int64 in *. lia. }
    rewrite Hw.
    destruct (Z.ltb_spec max_int64 (len (Key e) + len (Value e) + 4));
      [lia|].
    rewrite (ReadFull_app payload)
      by (rewrite Hpl, !len_app, len_PutUint32; lia).
    f_equal.
    change (Codec.DecodeWithoutPrefix payload (len (Value e)) e0)
      with (Data.decodeWithoutPrefix payload (len (Value e)) e0).
    rewrite Hpl, app_assoc.
    rewrite <- (take_drop (length (Value e)) (Key e ++ Value e)) at 1.
    rewrite <- app_assoc.
    assert (Hlen : len (Value e)
                   = len (take (length (Value e)) (Key e ++ Value e))).
    { unfold len. rewrite length_take, length_app. lia. }
    rewrite Hlen at 1.
    rewrite (decodeWithoutPrefix_payload _ _ (Checksum e) 0 e0) by assumption.
    cbn [mbind result_bind]. do 3 f_equal.
    replace (4 + 8 + len (Key e) + len (Value e) + 4)
      with (16 + len (Key e) + len (Value e)) by lia.
    unfold wrap_uint64. rewrite Z.mod_small by (unfold max_int64 in *; lia).
    apply wrap_int64_small. unfold max_int64 in *. lia.
  - split.
    + intros Heq. apply (f_equal length) in Heq.
      rewrite length_take, length_app in Heq. unfold len. lia.
    + intros Heq. unfold len in Heq.
      assert (length (Value e) = length (Key e)) as -> by lia.
      apply take_app_length.
Qed.

Lemma Codec_Decode_splits_at_the_value_size_witness :
  Codec.Decode ((Codec.Encode [] sample_entry).1 ++ key_b) zero_entry
  = (key_b,
     Ok ({| Checksum := Checksum sample_entry;
            Key := [Byte.x61; Byte.x31]; EOffset := 0;
            Value := [Byte.x32] |}, 19)).
Proof.
  refine (proj1 (Codec_Decode_splits_at_the_value_size
                   sample_entry zero_entry key_b _ _ _)).
  - vm_compute. reflexivity.
  - vm_compute. split; [discriminate | reflexivity].
  - vm_compute. discriminate.
Defined.

(** A frame that was cut: either inside the length prefixes, or after
    them with a payload that is too short. *)
Lemma torn_frame (e : Entry) (n : Z) :
  len (Key e) < 2 ^ 32 -> 16 + len (Key e) + len (Value e) <= max_int64 ->
  0 < n < len (Data.frame e) ->
  let p := take (Z.to_nat n) (Data.frame e) in
  (n < 12 /\ len p < 12 /\ p <> [])
  \/ (12 <= n
      /\ exists prefix r1,
           p = prefix ++ r1 /\ len prefix = 12
           /\ Data.getKeyValueSizes prefix = Ok (len (Key e), len (Value e))
           /\ len r1 < len (Key e) + len (Value e) + 4).
Proof.
  intros Hk Hfit Hn p.
  pose proof (len_nonneg (Key e)). pose proof (len_nonneg (Value e)).
  assert (Hv : len (Value e) < 2 ^ 64) by (unfold max_int64 in *; lia).
  assert (Hp : len p = n) by (apply len_take_le; lia).
  pose proof (len_frame e) as Hlenf.
  destruct (Z.lt_ge_cases n 12) as [Hlt|Hge].
  - left. split; [lia|]. split; [lia|]. intros Hnil. rewrite Hnil in Hp.
    change (len []) with 0 in Hp. lia.
  - right. split; [lia|].
    destruct (frame_prefix e) as (prefix & payload & Hf & H12 & Hpl & Hsz).
    exists prefix, (take (Z.to_nat n - length prefix) payload).
    split_all.
    + subst p. rewrite Hf. apply take_app_ge. unfold len in *. lia.
    + exact H12.
    + exact (Hsz Hk Hv).
    + assert (Hn' : n < 16 + len (Key e) + len (Value e)) by lia.
      unfold len in *. rewrite length_take. lia.
Qed.

Lemma Data_decode_cut (e e0 : Entry) (n : Z) :
  len (Key e) < 2 ^ 32 -> 16 + len (Key e) + len (Value e) <= max_int64 ->
  0 < n < len (Data.frame e) ->
  (Data.decode (take (Z.to_nat n) (Data.frame e)) e0).2 = Err (cut_error n).
Proof.
  intros Hk Hfit Hn.
  pose proof (len_nonneg (Key e)). pose proof (len_nonneg (Value e)).
  unfold Data.decode, Data.keySize, Data.valueSize, Data.checksumSize.
  unfold cut_error.
  destruct (torn_frame e n Hk Hfit Hn)
    as [(Hn12 & Hlt & Hne)|(Hn12 & prefix & r1 & -> & H12 & Hsz & Hr1)].
  - destruct (Z.ltb_spec n 12); [|lia].
    rewrite ReadFull_short by (change (4 + 8) with 12; lia).
    rewrite decide_False by exact Hne. reflexivity.
  - destruct (Z.ltb_spec n 12); [lia|].
    rewrite (ReadFull_app prefix) by (rewrite H12; reflexivity).
    rewrite Hsz.
    assert (Hw : wrap_uint64 (len (Key e) + len (Value e) + 4)
                 = len (Key e) + len (Value e) + 4).
    { unfold wrap_uint64. apply Z.mod_small. unfold max_int64 in *. lia. }
    rewrite Hw.
    destruct (Z.ltb_spec max_int64 (len (Key e) + len (Value e) + 4)); [lia|].
    rewrite ReadFull_short by lia.
    case_decide; reflexivity.
Qed.

(** X2. The segment decoder [decoder.decode] of the [data] package fails
    on a frame that was cut anywhere before its last byte: a cut inside
    the twelve bytes of the length prefixes gives [io.ErrUnexpectedEOF]
    itself; a cut after them gives [io.ErrUnexpectedEOF] wrapped by
    [errors.Wrap] with the message "failed reading saved data" (an
    [io.EOF] of the payload read is translated first), a value that is
    equal to no sentinel.  On an empty input it returns [io.EOF]
    itself. *)
Theorem Data_decode_torn_frame (e e0 : Entry) (n : Z) :
  len (Key e) < 2 ^ 32 -> 16 + len (Key e) + len (Value e) <= max_int64 ->
  0 < n < len (Data.frame e) ->
  (Data.decode (take (Z.to_nat n) (Data.frame e)) e0).2
  = Err (if n <? 12 then ErrUnexpectedEOF
         else Wrap ErrUnexpectedEOF FailedReadingSavedData)
  /\ (Data.decode [] e0).2 = Err EOF.
Proof.
  intros Hk Hfit Hn. split; [by apply Data_decode_cut|reflexivity].
Qed.

Lemma Data_decode_torn_frame_witness :
  (Data.decode (take (Z.to_nat 18) (Data.frame sample_entry)) zero_entry).2
  = Err (Wrap ErrUnexpectedEOF FailedReadingSavedData)
  /\ (Data.decode [] zero_entry).2 = Err EOF.
Proof.
  apply (Data_decode_torn_frame sample_entry zero_entry 18).
  - vm_compute. reflexivity.
  - vm_compute. discriminate.
  - vm_compute. split; reflexivity.
Defined.

(** X3. [Decoder.Decode] of [internal/codec] fails on an encoded entry
    that was cut anywhere before its last byte: a cut inside the twelve
    bytes of the length prefixes gives [io.ErrUnexpectedEOF] itself; a
    cut after them gives [io.ErrUnexpectedEOF] wrapped by [errors.Wrap]
    with the message "failed reading saved data" (an [io.EOF] of the
    payload read is translated first).  On an empty input it returns
    [io.EOF] itself. *)
Theorem Codec_Decode_torn_frame (e e0 : Entry) (n : Z) :
  len (Key e) < 2 ^ 32 -> 16 + len (Key e) + len (Value e) <= max_int64 ->
  0 < n < len (Codec.Encode [] e).1 ->
  (Codec.Decode (take (Z.to_nat n) (Codec.Encode [] e).1) e0).2
  = Err (if n <? 12 then ErrUnexpectedEOF
         else Wrap ErrUnexpectedEOF FailedReadingSavedData)
  /\ (Codec.Decode [] e0).2 = Err EOF.
Proof.
  rewrite Codec_Encode_frame. cbn [app].
  intros Hk Hfit Hn. split; [|reflexivity].
  pose proof (len_nonneg (Key e)). pose proof (len_nonneg (Value e)).
  unfold Codec.Decode, Codec.KeySize, Codec.ValueSize, Codec.checksumSize.
  unfold cut_error.
  destruct (torn_frame e n Hk Hfit Hn)
    as [(Hn12 & Hlt & Hne)|(Hn12 & prefix & r1 & -> & H12 & Hsz & Hr1)].
  - destruct (Z.ltb_spec n 12); [|lia].
    rewrite ReadFull_short by (change (4 + 8) with 12; lia).
    rewrite decide_False by exact Hne. reflexivity.
  - destruct (Z.ltb_spec n 12); [lia|].
    rewrite (ReadFull_app prefix) by (rewrite H12; reflexivity).
    change Codec.GetKeyValueSizes with Data.getKeyValueSizes.
    rewrite Hsz.
    assert (Hw : wrap_uint64 (len (Key e) + len (Value e) + 4)
                 = len (Key e) + len (Value e) + 4).
    { unfold wrap_uint64. apply Z.mod_small. unfold max_int64 in *. lia. }
    rewrite Hw.
    destruct (Z.ltb_spec max_int64 (len (Key e) + len (Value e) + 4)); [lia|].
    rewrite ReadFull_short by lia.
    case_decide; reflexivity.
Qed.

Lemma Codec_Decode_torn_frame_witness :
  (Codec.Decode (take (Z.to_nat 15) (Codec.Encode [] sample_entry).1)
                zero_entry).2
  = Err (Wrap ErrUnexpectedEOF FailedReadingSavedData)
  /\ (Codec.Decode [] zero_entry).2 = Err EOF.
Proof.
  apply (Codec_Decode_torn_frame sample_entry zero_entry 15).
  - vm_compute. reflexivity.
  - vm_compute. discriminate.
  - vm_compute. split; reflexivity.
Defined.

(** ** The datafile: what was written can be read *)

Lemma ReadAt_frame (df : Data.datafile) (fs : gmap Z bytes) (pre rest : bytes)
    (e : Entry) :
  fs !! Data.id df = Some (pre ++ Data.frame e ++ rest) ->
  len (Key e) < 2 ^ 32 -> len (Value e) < 2 ^ 64 ->
  0 <= Checksum e < 2 ^ 32 ->
  Data.ReadAt df fs (len pre) (len (Data.frame e))
  = Ok {| Checksum := Checksum e; Key := Key e; EOffset := 0;
          Value := Value e |}.
Proof.
  intros Hc Hk Hv Hsum. unfold Data.ReadAt. rewrite Hc.
  pose proof (len_frame e) as Hlen.
  pose proof (len_nonneg (Key e)). pose proof (len_nonneg (Value e)).
  pose proof (len_nonneg pre). pose proof (len_nonneg rest).
  destruct (Z.ltb_spec (len (Data.frame e)) 0); [lia|].
  destruct (Z.ltb_spec (len pre) 0); [lia|].
  rewrite !len_app.
  destruct (Z.ltb_spec (len pre + (len (Data.frame e) + len rest))
                       (len pre + len (Data.frame e))); [lia|].
  assert (Hb : take (Z.to_nat (len (Data.frame e)))
                 (drop (Z.to_nat (len pre)) (pre ++ Data.frame e ++ rest))
               = Data.frame e).
  { unfold len. rewrite !Nat2Z.id, drop_app_length, take_app_length.
    reflexivity. }
  rewrite Hb. unfold Data.frame.
  rewrite getKeyValueSizes_record by assumption.
  cbn [mbind result_bind].
  rewrite (app_assoc (Binary.PutUint32 _) (Binary.PutUint64 _)).
  rewrite slice_app_snd.
  - cbn [mbind result_bind].
    apply (decodeWithoutPrefix_payload (Key e) (Value e) _ 0
             (mkEntry 0 [] 0 [])).
    exact Hsum.
  - rewrite len_app, len_PutUint32, len_PutUint64. reflexivity.
  - rewrite !len_app, len_PutUint32, len_PutUint64. lia.
Qed.

(** X4. [Write] on a writable datafile whose tail is the end of its
    file appends the frame of the entry, returns the old tail as offset
    and the frame length as size, and moves the tail by that length;
    [ReadAt] with that offset and size then returns the key, the value
    and the checksum that were written. *)
Theorem Write_then_ReadAt (df : Data.datafile) (fs : gmap Z bytes)
    (c : bytes) (e : Entry) :
  Data.w df = true ->
  fs !! Data.id df = Some c -> Data.offset df = len c ->
  len (Key e) < 2 ^ 32 -> 0 <= Checksum e < 2 ^ 32 ->
  len c + len (Data.frame e) <= max_int64 ->
  exists df' fs',
    Data.Write df fs e = (df', fs', Ok (len c, len (Data.frame e)))
    /\ fs' = <[Data.id df := c ++ Data.frame e]> fs
    /\ Data.Size df' = len c + len (Data.frame e)
    /\ Data.ReadAt df' fs' (len c) (len (Data.frame e))
       = Ok {| Checksum := Checksum e; Key := Key e; EOffset := 0;
               Value := Value e |}.
Proof.
  intros Hw Hc Hoff Hk Hsum Hfit.
  pose proof (len_frame e) as Hlen.
  pose proof (len_nonneg (Key e)). pose proof (len_nonneg (Value e)).
  pose proof (len_nonneg c).
  assert (Hv : len (Value e) < 2 ^ 64) by (unfold max_int64 in *; lia).
  destruct (Data.Write df fs e) as [[df' fs'] r] eqn:HW.
  pose proof HW as Hspec. apply Write_spec in Hspec as (Hid & _ & _ & _ & Hr).
  unfold Data.Write in HW. rewrite Hw, Hc in HW. cbn [negb] in HW.
  unfold Data.encode in HW.
  change (Data.frame {| Checksum := Checksum e; Key := Key e;
                        EOffset := Data.offset df; Value := Value e |})
    with (Data.frame e) in HW.
  destruct (Z.ltb_spec max_int64 (len c + len (Data.frame e))); [lia|].
  cbn [Key Value EOffset] in HW.
  assert (Hn : wrap_int64 (Data.keySize + Data.valueSize + len (Key e)
                           + len (Value e) + Data.checksumSize)
               = len (Data.frame e)).
  { unfold Data.keySize, Data.valueSize, Data.checksumSize.
    rewrite wrap_int64_small by (unfold max_int64 in *; lia). lia. }
  rewrite Hn, Hoff in HW.
  injection HW as <- <- <-.
  eexists _, _. split_all.
  - reflexivity.
  - reflexivity.
  - unfold Data.Size. cbn [Data.offset].
    apply wrap_int64_small. unfold max_int64 in *. lia.
  - apply (ReadAt_frame _ _ c [] e); try assumption.
    cbn [Data.id]. rewrite lookup_insert_eq, app_nil_r. reflexivity.
Qed.

Lemma Write_then_ReadAt_witness :
  exists df' fs',
    Data.Write (curr fresh_db) (files (dir fresh_db)) sample_entry
    = (df', fs', Ok (0, 19))
    /\ Data.ReadAt df' fs' 0 19 = Ok sample_entry.
Proof.
  destruct (Write_then_ReadAt (curr fresh_db) (files (dir fresh_db)) []
              sample_entry) as (df' & fs' & HW & _ & _ & HR).
  - reflexivity.
  - reflexivity.
  - reflexivity.
  - vm_compute. reflexivity.
  - vm_compute. split; [discriminate|reflexivity].
  - vm_compute. discriminate.
  - exists df', fs'. split; [exact HW | exact HR].
Defined.

Lemma Read_frame (df : Data.datafile)
    (fs : gmap Z bytes) (pre rest : bytes) (e : Entry) :
  fs !! Data.id df = Some (pre ++ Data.frame e ++ rest) ->
  Data.rpos df = len pre ->
  len (Key e) < 2 ^ 32 -> 0 <= Checksum e < 2 ^ 32 ->
  len (Data.frame e) <= max_int64 ->
  Data.Read df fs
  = ({| Data.id := Data.id df; Data.w := Data.w df;
        Data.offset := Data.offset df;
        Data.rpos := len pre + len (Data.frame e) |},
     Ok ({| Checksum := Checksum e; Key := Key e; EOffset := 0;
            Value := Value e |}, len (Data.frame e))).
Proof.
  intros Hc Hpos Hk Hsum Hfit. unfold Data.Read. rewrite Hc, Hpos.
  unfold len at 1. rewrite Nat2Z.id, drop_app_length.
  rewrite (Data_decode_frame e (mkEntry 0 [] 0 []) rest) by assumption.
  cbn [EOffset]. do 2 f_equal. rewrite !len_app. lia.
Qed.

Lemma Read_eof (df : Data.datafile) (fs : gmap Z bytes)
    (c : bytes) :
  fs !! Data.id df = Some c -> Data.rpos df = len c ->
  Data.Read df fs = (df, Err EOF).
Proof.
  intros Hc Hpos. unfold Data.Read. rewrite Hc, Hpos.
  unfold len at 1. rewrite Nat2Z.id, drop_all.
  change (Data.decode [] (mkEntry 0 [] 0 []))
    with (@nil byte, @Err (Entry * Z) EOF).
  cbv iota beta. change (len []) with 0.
  rewrite Z.sub_0_r, <- Hpos. destruct df; reflexivity.
Qed.

(** X5. [Read] on a datafile whose read position is at the start of a
    frame returns the entry of the frame and its length, and advances
    the read position by that length; when the frame was the last one of
    the file, the next [Read] returns [io.EOF] and moves nothing. *)
Theorem Read_decodes_the_next_record (df : Data.datafile)
    (fs : gmap Z bytes) (pre rest : bytes) (e : Entry) :
  fs !! Data.id df = Some (pre ++ Data.frame e ++ rest) ->
  Data.rpos df = len pre ->
  len (Key e) < 2 ^ 32 -> 0 <= Checksum e < 2 ^ 32 ->
  len (Data.frame e) <= max_int64 ->
  let df1 := {| Data.id := Data.id df; Data.w := Data.w df;
                Data.offset := Data.offset df;
                Data.rpos := len pre + len (Data.frame e) |} in
  Data.Read df fs
  = (df1, Ok ({| Checksum := Checksum e; Key := Key e; EOffset := 0;
                 Value := Value e |}, len (Data.frame e)))
  /\ (rest = [] -> Data.Read df1 fs = (df1, Err EOF)).
Proof.
  intros Hc Hpos Hk Hsum Hfit df1.
  split; [apply (Read_frame df fs pre rest e); assumption|].
  intros ->. apply (Read_eof df1 fs (pre ++ Data.frame e ++ [])).
  - exact Hc.
  - cbn [df1 Data.rpos]. rewrite app_nil_r, len_app. reflexivity.
Qed.

Lemma Read_decodes_the_next_record_witness :
  Data.Read (curr fresh_db) {[ 0 := Data.frame sample_entry ]}
  = ({| Data.id := 0; Data.w := true; Data.offset := 0; Data.rpos := 19 |},
     Ok (sample_entry, 19)).
Proof.
  refine (proj1 (Read_decodes_the_next_record (curr fresh_db)
                   {[ 0 := Data.frame sample_entry ]} [] [] sample_entry
                   _ _ _ _ _)).
  - reflexivity.
  - reflexivity.
  - vm_compute. reflexivity.
  - vm_compute. split; [discriminate|reflexivity].
  - vm_compute. discriminate.
Defined.

(** ** The index codec *)

(** X6. [ReadBytes] reads back the byte string [WriteBytes] wrote, and
    leaves the reader at the byte after it, for every string shorter
    than 2^32 bytes. *)
Theorem ReadBytes_WriteBytes (b w rest : bytes) :
  len b < 2 ^ 32 ->
  Internal.ReadBytes (drop (length w) (Internal.WriteBytes b w) ++ rest)
  = (rest, Ok b).
Proof.
  intros Hb. unfold Internal.WriteBytes.
  rewrite drop_app_length, <- app_assoc.
  apply ReadBytes_binding. exact Hb.
Qed.

Lemma ReadBytes_WriteBytes_witness :
  Internal.ReadBytes (drop (length val_1) (Internal.WriteBytes key_a val_1)
                      ++ key_b)
  = (key_b, Ok key_a).
Proof.
  apply (ReadBytes_WriteBytes key_a val_1 key_b). vm_compute. reflexivity.
Defined.

(** X7. [ReadItem] reads back the offset and the size [WriteItem] wrote,
    for all 64-bit values; the file id comes back reduced modulo 2^32,
    since it is written as a [uint32]. *)
Theorem ReadItem_WriteItem (item : Item) (w rest : bytes) :
  - 2 ^ 63 <= Offset item < 2 ^ 63 ->
  - 2 ^ 63 <= Size item < 2 ^ 63 ->
  Internal.ReadItem (drop (length w) (Internal.WriteItem item w) ++ rest)
  = (rest, Ok {| FileID := FileID item mod 2 ^ 32; Offset := Offset item;
                 Size := Size item |}).
Proof.
  intros Ho Hs. unfold Internal.WriteItem.
  rewrite drop_app_length, <- !app_assoc.
  pose proof (Z.mod_pos_bound (FileID item) (2 ^ 32) ltac:(lia)) as Hf.
  pose proof (ReadItem_binding
                {| FileID := FileID item mod 2 ^ 32; Offset := Offset item;
                   Size := Size item |} rest Hf Ho Hs) as H.
  cbn [FileID Offset Size] in H. unfold wrap_uint32 in *.
  rewrite Z.mod_mod in H by lia. exact H.
Qed.

Lemma ReadItem_WriteItem_witness :
  Internal.ReadItem
    (drop (length key_a)
       (Internal.WriteItem {| FileID := -1; Offset := 5; Size := 19 |} key_a)
     ++ key_b)
  = (key_b, Ok {| FileID := 2 ^ 32 - 1; Offset := 5; Size := 19 |}).
Proof.
  apply (ReadItem_WriteItem {| FileID := -1; Offset := 5; Size := 19 |}
           key_a key_b); cbn [Offset Size]; lia.
Defined.

Lemma ReadIndex_loop_bindings (l : list (bytes * Item)) (tail : bytes) :
  forall (fuel : nat) (t : gmap bytes Item),
    Forall fits_index l ->
    (length l < fuel)%nat ->
    Internal.ReadIndex_loop fuel (concat (map binding l) ++ tail) t
    = Internal.ReadIndex_loop (fuel - length l) tail
        (fold_left (fun m node => <[node.1 := node.2]> m) l t).
Proof.
  induction l as [|node l IH]; intros fuel t Hok Hfuel.
  - cbn [map concat fold_left app length]. by rewrite Nat.sub_0_r.
  - destruct fuel as [|fuel]; [simpl in Hfuel; lia|].
    inversion Hok as [|? ? (Hk & Hf & Ho & Hs) Hok']; subst.
    cbn [map concat fold_left Internal.ReadIndex_loop length].
    unfold binding at 1. rewrite <- !app_assoc.
    rewrite ReadBytes_binding by assumption.
    rewrite ReadItem_binding by assumption.
    rewrite IH by (try assumption; simpl in Hfuel; lia).
    reflexivity.
Qed.

Lemma bindings_length (l : list (bytes * Item)) :
  (length l <= length (concat (map binding l)))%nat.
Proof.
  induction l as [|node l IH]; [simpl; lia|].
  cbn [map concat]. rewrite length_app.
  pose proof (binding_nonempty node).
  destruct (binding node); [congruence|]. simpl. lia.
Qed.

(** X8. [ReadIndex] on what [WriteIndex] wrote for a tree adds the
    bindings of that tree to the tree it is given, the written ones
    winning, provided the keys are shorter than 2^32 bytes, the file ids
    fit 32 bits and the offsets and sizes 64 bits. *)
Theorem ReadIndex_WriteIndex (t t0 : gmap bytes Item) :
  (forall key item, t !! key = Some item -> fits_index (key, item)) ->
  Internal.ReadIndex (Internal.WriteIndex t []) t0 = Ok (t ∪ t0).
Proof.
  intros Hok. unfold Internal.ReadIndex, Internal.WriteIndex.
  rewrite WriteIndex_fold. cbn [app].
  rewrite <- (app_nil_r (concat _)) at 2.
  rewrite ReadIndex_loop_bindings.
  - pose proof (bindings_length (map_to_list t)).
    destruct (S (length (concat (map binding (map_to_list t))))
              - length (map_to_list t))%nat as [|fuel] eqn:E; [lia|].
    cbn [Internal.ReadIndex_loop]. cbn.
    rewrite fold_insert_list_to_map by apply NoDup_fst_map_to_list.
    rewrite list_to_map_to_list. reflexivity.
  - apply Forall_forall. intros [k it] Hin.
    apply Hok. by apply elem_of_map_to_list.
  - pose proof (bindings_length (map_to_list t)). lia.
Qed.

Lemma ReadIndex_WriteIndex_witness :
  Internal.ReadIndex (Internal.WriteIndex (trie tiny_db_a) []) ∅
  = Ok (trie tiny_db_a ∪ ∅).
Proof.
  apply (ReadIndex_WriteIndex (trie tiny_db_a) ∅).
  intros key item Hl.
  assert (Hm : trie tiny_db_a
               = {[ key_a := {| FileID := 0; Offset := 0; Size := 18 |} ]})
    by (vm_compute; reflexivity).
  rewrite Hm in Hl. apply lookup_singleton_Some in Hl as [<- <-].
  unfold fits_index. cbn [fst snd FileID Offset Size].
  split_all; try lia; vm_compute; reflexivity.
Defined.

Lemma ReadIndex_cut_after_key (t t0 : gmap bytes Item)
    (key cut : bytes) :
  (forall key item, t !! key = Some item -> fits_index (key, item)) ->
  len key < 2 ^ 32 -> len cut < 20 ->
  Internal.ReadIndex
    (Internal.WriteIndex t [] ++ Internal.WriteBytes key [] ++ cut) t0
  = Err (if decide (cut = []) then EOF else ErrUnexpectedEOF).
Proof.
  intros Hok Hk Hcut. unfold Internal.ReadIndex, Internal.WriteIndex.
  rewrite WriteIndex_fold. cbn [app].
  pose proof (bindings_length (map_to_list t)) as Hlen.
  rewrite ReadIndex_loop_bindings.
  - rewrite length_app in *.
    destruct (S (length (concat (map binding (map_to_list t)))
                 + length (Internal.WriteBytes key [] ++ cut))
              - length (map_to_list t))%nat as [|fuel] eqn:E; [lia|].
    cbn [Internal.ReadIndex_loop]. unfold Internal.WriteBytes. cbn [app].
    rewrite <- app_assoc.
    rewrite ReadBytes_binding by assumption.
    unfold Internal.ReadItem.
    rewrite ReadFull_short
      by (unfold Internal.fileIDSize, Internal.offsetSize, Internal.sizeSize,
          Internal.int32Size, Internal.int64Size; lia).
    cbn [mbind result_bind]. case_decide; reflexivity.
  - apply Forall_forall. intros [k it] Hin.
    apply Hok. by apply elem_of_map_to_list.
  - rewrite length_app. lia.
Qed.

Lemma ReadIndex_cut_after_length (t t0 : gmap bytes Item) (key : bytes) :
  (forall key item, t !! key = Some item -> fits_index (key, item)) ->
  len key < 2 ^ 32 -> key <> [] ->
  Internal.ReadIndex
    (Internal.WriteIndex t [] ++ Binary.PutUint32 (wrap_uint32 (len key))) t0
  = Ok (t ∪ t0).
Proof.
  intros Hok Hk Hne. unfold Internal.ReadIndex, Internal.WriteIndex.
  rewrite WriteIndex_fold. cbn [app].
  pose proof (bindings_length (map_to_list t)) as Hlen.
  rewrite ReadIndex_loop_bindings.
  - rewrite length_app in *.
    destruct (S (length (concat (map binding (map_to_list t)))
                 + length (Binary.PutUint32 (wrap_uint32 (len key))))
              - length (map_to_list t))%nat as [|fuel] eqn:E; [lia|].
    cbn [Internal.ReadIndex_loop]. unfold Internal.ReadBytes.
    rewrite <- (app_nil_r (Binary.PutUint32 _)).
    rewrite ReadFull_app by (rewrite len_PutUint32; reflexivity).
    pose proof (len_nonneg key).
    assert (Hpos : 0 < len key).
    { destruct key; [congruence|]. unfold len. simpl. lia. }
    unfold wrap_uint32. rewrite Z.mod_small by lia.
    rewrite Uint32_PutUint32 by lia.
    rewrite ReadFull_short by (change (len []) with 0; lia).
    rewrite decide_True by reflexivity.
    rewrite fold_insert_list_to_map by apply NoDup_fst_map_to_list.
    rewrite list_to_map_to_list. reflexivity.
  - apply Forall_forall. intros [k it] Hin.
    apply Hok. by apply elem_of_map_to_list.
  - rewrite length_app. lia.
Qed.

(** X9. [ReadIndex] on an index that ends inside a binding.  When the
    index ends after the key of a binding, [ReadIndex] fails: with
    [io.EOF] when not one byte of the item follows the key, with
    [io.ErrUnexpectedEOF] when fewer than the twenty bytes of an item
    follow.  When the index ends right after the four-byte length of a
    key that is not empty, [ReadBytes] returns the [io.EOF] of its second
    read and [ReadIndex] ends without error, returning the bindings read
    before the cut. *)
Theorem ReadIndex_cut_inside_a_binding (t t0 : gmap bytes Item)
    (key cut : bytes) :
  (forall key item, t !! key = Some item -> fits_index (key, item)) ->
  len key < 2 ^ 32 -> len cut < 20 ->
  Internal.ReadIndex
    (Internal.WriteIndex t [] ++ Internal.WriteBytes key [] ++ cut) t0
  = Err (if decide (cut = []) then EOF else ErrUnexpectedEOF)
  /\ (key <> [] ->
      Internal.ReadIndex
        (Internal.WriteIndex t []
         ++ Binary.PutUint32 (wrap_uint32 (len key))) t0
      = Ok (t ∪ t0)).
Proof.
  intros Hok Hk Hcut. split.
  - by apply ReadIndex_cut_after_key.
  - intros Hne. by apply ReadIndex_cut_after_length.
Qed.

Lemma ReadIndex_cut_inside_a_binding_witness :
  Internal.ReadIndex
    (Internal.WriteIndex ∅ [] ++ Internal.WriteBytes key_a [] ++ []) ∅
  = Err EOF
  /\ Internal.ReadIndex
       (Internal.WriteIndex ∅ [] ++ Binary.PutUint32 (wrap_uint32 (len key_a)))
       ∅
     = Ok (∅ ∪ ∅).
Proof.
  destruct (ReadIndex_cut_inside_a_binding ∅ ∅ key_a []) as [H1 H2].
  - intros key item Hl. by rewrite lookup_empty in Hl.
  - vm_compute. reflexivity.
  - vm_compute. reflexivity.
  - split; [exact H1|]. apply H2. discriminate.
Defined.

(** ** The key directory of internal/keydir.go *)


(** X10. After [Add] of a key to a [Keydir], [Get] of that key returns
    the item added and [true], [Get] of any other key is unchanged, and
    [Len] has grown by one exactly when the key was not there. *)
Theorem Keydir_Add_then_Get (k : Keydir.Keydir) (key key' : bytes)
    (fileid offset size : Z) :
  let k' := (Keydir.Add k key fileid offset size).1 in
  Keydir.Get k' key'
  = (if decide (key = key')
     then ({| FileID := fileid; Offset := offset; Size := size |}, true)
     else Keydir.Get k key')
  /\ Keydir.Len k'
     = Keydir.Len k + (if (Keydir.Get k key).2 then 0 else 1).
Proof.
  cbv zeta. unfold Keydir.Add, Keydir.Get, Keydir.Len. cbn [fst Keydir.kv].
  split.
  - destruct (decide (key = key')) as [->|Hne].
    + by rewrite lookup_insert_eq.
    + by rewrite lookup_insert_ne.
  - destruct (Keydir.kv k !! key) as [item|] eqn:E; cbn [snd].
    + rewrite map_size_insert_Some by eauto. lia.
    + rewrite map_size_insert_None by assumption. lia.
Qed.

(** X11. After [Delete] of a key from a [Keydir], [Get] of that key
    returns the zero item and [false], [Get] of any other key is
    unchanged, and [Len] has shrunk by one exactly when the key was
    there. *)
Theorem Keydir_Delete_then_Get (k : Keydir.Keydir) (key key' : bytes) :
  Keydir.Get (Keydir.Delete k key) key'
  = (if decide (key = key')
     then ({| FileID := 0; Offset := 0; Size := 0 |}, false)
     else Keydir.Get k key')
  /\ Keydir.Len (Keydir.Delete k key)
     = Keydir.Len k - (if (Keydir.Get k key).2 then 1 else 0).
Proof.
  unfold Keydir.Delete, Keydir.Get, Keydir.Len. cbn [Keydir.kv].
  split.
  - destruct (decide (key = key')) as [->|Hne].
    + by rewrite lookup_delete_eq.
    + by rewrite lookup_delete_ne.
  - destruct (Keydir.kv k !! key) as [item|] eqn:E; cbn [snd].
    + rewrite map_size_delete_Some by eauto.
      assert (size (Keydir.kv k) <> 0%nat).
      { intros Hz. apply map_size_empty_inv in Hz. rewrite Hz in E.
        by rewrite lookup_empty in E. }
      lia.
    + rewrite map_size_delete_None by assumption. lia.
Qed.

(** X12. [Keys] of a [Keydir] sends every key of the map exactly once,
    whatever the order in which the run time ranges over the map: the
    keys sent are distinct, as many as [Len], and a key is sent exactly
    when [Get] finds it. *)
Theorem Keydir_Keys_sends_every_key_once (iter : list bytes -> list bytes)
    (k : Keydir.Keydir) :
  (forall l, iter l ≡ₚ l) ->
  NoDup (Keydir.Keys iter k)
  /\ Z.of_nat (length (Keydir.Keys iter k)) = Keydir.Len k
  /\ forall key, key ∈ Keydir.Keys iter k <-> (Keydir.Get k key).2 = true.
Proof.
  intros Hiter. unfold Keydir.Keys, Keydir.Len, Keydir.Get.
  split_all.
  - rewrite Hiter. apply NoDup_fst_map_to_list.
  - rewrite Hiter, length_map, length_map_to_list. reflexivity.
  - intros key. rewrite Hiter, list_elem_of_fmap. split.
    + intros ([key1 item] & -> & Hin). apply elem_of_map_to_list in Hin.
      cbn [fst]. by rewrite Hin.
    + destruct (Keydir.kv k !! key) as [item|] eqn:E; [|discriminate].
      intros _. exists (key, item). split; [reflexivity|].
      by apply elem_of_map_to_list.
Qed.

Lemma Keydir_Keys_sends_every_key_once_witness :
  NoDup (Keydir.Keys (@rev bytes) (Keydir.Add Keydir.NewKeydir key_a 0 0 18).1).
Proof.
  refine (proj1 (Keydir_Keys_sends_every_key_once (@rev bytes)
                   (Keydir.Add Keydir.NewKeydir key_a 0 0 18).1 _)).
  intros l. symmetry. apply Permutation_rev.
Defined.

(** ** Get, Has and Len *)

Lemma ReadAt_errors (df : Data.datafile) (fs : gmap Z bytes) (index size : Z)
    (e : error) :
  Data.ReadAt df fs index size = Err e -> e = ENOENT \/ e = EINVAL \/ e = EOF.
Proof.
  unfold Data.ReadAt, Data.getKeyValueSizes, Data.decodeWithoutPrefix, slice.
  intros H.
  repeat (case_match; cbn [mbind result_bind] in H; try discriminate;
          try (injection H as <-; auto)).
Qed.

(** X13. [Get] returns [ErrKeyNotFound] exactly for the keys for which
    [Has] returns [false]: no read or checksum failure is reported as a
    missing key. *)
Theorem Get_reports_a_missing_key_iff_not_Has (b : Bitcask) (key : bytes) :
  Get b key = Err ErrKeyNotFound <-> Has b key = false.
Proof.
  unfold Get, Has. destruct (trie b !! key) as [item|] eqn:E.
  - split.
    + intros H. exfalso.
      destruct (if FileID item =? Data.FileID (curr b) then Some (curr b)
                else datafiles b !! FileID item) as [df|]; [|discriminate].
      destruct (Data.ReadAt df (files (dir b)) (Offset item) (Size item))
        as [en|e|] eqn:HR; cbn [mbind result_bind] in H.
      * destruct (Crc32.ChecksumIEEE (Value en) =? Checksum en);
          discriminate.
      * injection H as ->. apply ReadAt_errors in HR.
        destruct HR as [?|[?|?]]; discriminate.
      * discriminate.
    + intros H. apply bool_decide_eq_false in H. exfalso. apply H. eauto.
  - split; [|reflexivity]. intros _. apply bool_decide_eq_false.
    intros [x Hx]. discriminate.
Qed.

(** X14. After a [Put] that returned no error, [Has] of the key is
    [true], [Len] has grown by one when the key was new and is unchanged
    when it was there, and [Has] of every other key is unchanged. *)
Theorem Put_counts_a_new_key_once (b b' : Bitcask) (key value : bytes) :
  Put b key value = (b', Ok tt) ->
  Has b' key = true
  /\ Len b' = Len b + (if Has b key then 0 else 1)
  /\ forall key', key' <> key -> Has b' key' = Has b key'.
Proof.
  unfold Put. intros H.
  destruct (maxKeySize (config b) <? len key); [discriminate|].
  destruct (maxValueSize (config b) <? len value); [discriminate|].
  destruct (put b key value) as [b1 [[off n]|e|]] eqn:Hput;
    [|discriminate|discriminate].
  apply put_keeps in Hput as (Ht & _).
  destruct (if sync (config b1) then Data.Sync (curr b1) else Ok tt);
    [|discriminate|discriminate].
  injection H as <-. unfold Has, Len. cbn [trie set_trie]. rewrite Ht.
  split_all.
  - apply bool_decide_eq_true. rewrite lookup_insert_eq. eauto.
  - destruct (trie b !! key) as [item|] eqn:E.
    + rewrite map_size_insert_Some by eauto.
      rewrite bool_decide_eq_true_2 by eauto. lia.
    + rewrite map_size_insert_None by assumption.
      rewrite bool_decide_eq_false_2 by (intros [x Hx]; discriminate). lia.
  - intros key' Hne. by rewrite lookup_insert_ne.
Qed.

Lemma Put_counts_a_new_key_once_witness :
  Has tiny_db_a key_a = true /\ Len tiny_db_a = 1.
Proof.
  destruct (Put_counts_a_new_key_once tiny_db tiny_db_a key_a val_1)
    as (HH & HL & _).
  - vm_compute. reflexivity.
  - split; [exact HH|]. rewrite HL. vm_compute. reflexivity.
Defined.

(** X15. [Delete] checks neither that the key is in the index nor its
    size: on a database whose active segment is below the maximum
    datafile size and has room for the record, it returns no error for
    any key, appends a record of the key with an empty value to the
    active segment and removes the key from the index; for a key that was
    not there, [Len] is unchanged. *)
Theorem Delete_of_any_key_appends_a_tombstone (b : Bitcask) (key c : bytes) :
  curr_ok b ->
  files (dir b) !! Data.id (curr b) = Some c ->
  Data.Size (curr b) < maxDatafileSize (config b) ->
  len c + 16 + len key <= max_int64 ->
  exists b',
    Delete b key = (b', Ok tt)
    /\ trie b' = delete key (trie b)
    /\ files (dir b')
       = <[Data.id (curr b) := c ++ record key []]> (files (dir b))
    /\ (Has b key = false -> Len b' = Len b).
Proof.
  intros Hc Hfile Hsize Hfit.
  pose proof (put_exact b key [] c Hc Hfile) as Hput. cbv zeta in Hput.
  destruct (Z.leb_spec (maxDatafileSize (config b)) (Data.Size (curr b)));
    [lia|].
  destruct Hput as (b1 & Hput & Ht & _ & _ & Hfs & _ & _).
  - discriminate.
  - rewrite len_record. change (len []) with 0. lia.
  - exists (set_trie b1 (delete key (trie b1))).
    unfold Delete. rewrite Hput. cbn [trie set_trie dir]. rewrite Ht.
    split_all; try reflexivity.
    + exact Hfs.
    + intros HH. unfold Has in HH. apply bool_decide_eq_false in HH.
      unfold Len. cbn [trie].
      rewrite delete_id; [reflexivity|].
      destruct (trie b !! key) eqn:E; [|reflexivity].
      exfalso. apply HH. eauto.
Qed.

Lemma Delete_of_any_key_appends_a_tombstone_witness :
  exists b',
    Delete fresh_db key_a = (b', Ok tt) /\ Len b' = Len fresh_db
    /\ files (dir b') = {[ 0 := record key_a [] ]}.
Proof.
  destruct (Delete_of_any_key_appends_a_tombstone fresh_db key_a [])
    as (b' & HD & _ & Hfs & HL).
  - exact fresh_db_curr_ok.
  - reflexivity.
  - vm_compute. reflexivity.
  - vm_compute. discriminate.
  - exists b'. split; [exact HD|]. split; [apply HL; reflexivity|].
    rewrite Hfs. cbn [app]. apply (insert_singleton_eq (M := gmap Z)).
Defined.

(** X16. Whatever they return, [Put] and [Delete] only append: every
    segment file that was there is still there with its old bytes as a
    prefix, and the index and configuration files are untouched. *)
Theorem Put_and_Delete_only_append (b : Bitcask) (key value : bytes) :
  let only_appends (b' : Bitcask) :=
    grows (files (dir b)) (files (dir b'))
    /\ index_file (dir b') = index_file (dir b)
    /\ config_file (dir b') = config_file (dir b) in
  only_appends (Put b key value).1 /\ only_appends (Delete b key).1.
Proof.
  cbv zeta. split.
  - unfold Put.
    destruct (maxKeySize (config b) <? len key);
      [cbn [fst]; split_all; auto using grows_refl|].
    destruct (maxValueSize (config b) <? len value);
      [cbn [fst]; split_all; auto using grows_refl|].
    destruct (put b key value) as [b1 r] eqn:Hput.
    apply put_keeps in Hput as (_ & _ & _ & Hi & Hcf & _ & Hg & _).
    assert (Hall : grows (files (dir b)) (files (dir b1))
                   /\ index_file (dir b1) = index_file (dir b)
                   /\ config_file (dir b1) = config_file (dir b))
      by (split_all; assumption).
    destruct r as [[off n]|e|]; [|exact Hall|exact Hall].
    destruct (if sync (config b1) then Data.Sync (curr b1) else Ok tt);
      exact Hall.
  - unfold Delete.
    destruct (put b key []) as [b1 r] eqn:Hput.
    apply put_keeps in Hput as (_ & _ & _ & Hi & Hcf & _ & Hg & _).
    destruct r as [[off n]|e|]; cbn [fst set_trie dir]; split_all; assumption.
Qed.

(** ** Scan, Fold and Keys *)

Lemma filter_fst_nodes (P : bytes -> Prop) `{forall key, Decision (P key)}
    (nodes : list (bytes * Item)) :
  map fst (filter (fun node => P node.1) nodes) = filter P (map fst nodes).
Proof.
  induction nodes as [|node nodes IH]; [reflexivity|].
  cbn [map]. rewrite !filter_cons. cbn [fst].
  destruct (decide (P node.1)); cbn [map]; by rewrite IH.
Qed.

Lemma Scan_loop {S : Type} (f : bytes -> S -> S * result unit)
    (nodes : list (bytes * Item)) :
  forall s : S,
    (let '((s', err), r) :=
       ForEach nodes
         (fun node '(s, err) =>
            if len node.1 =? 0 then ((s, err), Ok true)
            else
              match f node.1 s with
              | (s', Ok _) => ((s', Ok tt), Ok true)
              | (s', Err e) => ((s', Err e), Ok false)
              | (s', Panic) => ((s', err), Panic)
              end)
         (s, Ok tt) in
     (s', _ ← r; err))
    = visit (filter (fun key => len key <> 0) (map fst nodes)) f s.
Proof.
  induction nodes as [|node nodes IH]; intros s; [reflexivity|].
  cbn [ForEach map]. rewrite filter_cons.
  destruct (Z.eqb_spec (len node.1) 0) as [E|NE].
  - rewrite decide_False by lia. apply IH.
  - rewrite decide_True by exact NE. cbn [visit].
    destruct (f node.1 s) as [s' [[]|e|]]; [apply IH|reflexivity|reflexivity].
Qed.

Lemma elem_of_tree_keys (b : Bitcask) (key : bytes) :
  key ∈ tree_keys b <-> Has b key = true.
Proof.
  unfold tree_keys, Has. rewrite list_elem_of_fmap, bool_decide_eq_true.
  split.
  - intros ([k item] & -> & Hin). apply elem_of_map_to_list in Hin. eauto.
  - intros [item Hitem]. exists (key, item). split; [reflexivity|].
    by apply elem_of_map_to_list.
Qed.

Lemma len_zero_iff (key : bytes) : len key = 0 <-> key = [].
Proof.
  split; [|intros ->; reflexivity].
  destruct key; [reflexivity|]. unfold len. simpl. lia.
Qed.

(** X18. [Scan] calls the visitor on the keys of the index that have the
    prefix, each once, in the order of the tree, the key of length zero
    left out; it stops at the first call that returns an error and returns
    that error, and returns no error when no call fails. *)
Theorem Scan_visits_the_keys_with_the_prefix {S : Type} (b : Bitcask)
    (prefix : bytes) (f : bytes -> S -> S * result unit) (s : S) :
  Scan b prefix f s = visit (scanned b prefix) f s
  /\ NoDup (scanned b prefix)
  /\ forall key,
       key ∈ scanned b prefix
       <-> Has b key = true /\ key <> []
           /\ take (length prefix) key = prefix.
Proof.
  split_all.
  - unfold Scan, ForEachPrefix, scanned, tree_keys.
    rewrite <- (filter_fst_nodes (fun key => has_prefix prefix key = true)).
    apply Scan_loop.
  - unfold scanned, tree_keys. do 2 apply NoDup_filter.
    apply NoDup_fst_map_to_list.
  - intros key. unfold scanned.
    rewrite !list_elem_of_filter, elem_of_tree_keys, len_zero_iff.
    unfold has_prefix. rewrite bool_decide_eq_true. tauto.
Qed.

Lemma Fold_loop {S : Type} (f : bytes -> S -> S * result unit)
    (nodes : list (bytes * Item)) :
  forall s : S,
    (let '(s', r) :=
       ForEach nodes
         (fun node s =>
            match f node.1 s with
            | (s', Ok _) => (s', Ok true)
            | (s', Err e) => (s', Ok false)
            | (s', Panic) => (s', Panic)
            end) s in
     (s', _ ← r; Ok tt))
    = (let '(s', r) := visit (map fst nodes) f s in
       (s', match r with Panic => Panic | _ => Ok tt end)).
Proof.
  induction nodes as [|node nodes IH]; intros s; [reflexivity|].
  cbn [ForEach map visit].
  destruct (f node.1 s) as [s' [[]|e|]]; [apply IH|reflexivity|reflexivity].
Qed.

(** X19. [Fold] calls the visitor on every key of the index, each once,
    in the order of the tree, and stops after the first call that returns
    an error; the state the visitor has built up to there is kept, and the
    result is no error (a panic of the visitor apart). *)
Theorem Fold_visits_up_to_the_first_error {S : Type} (b : Bitcask)
    (f : bytes -> S -> S * result unit) (s : S) :
  Fold b f s
  = (let '(s', r) := visit (tree_keys b) f s in
     (s', match r with Panic => Panic | _ => Ok tt end))
  /\ NoDup (tree_keys b)
  /\ forall key, key ∈ tree_keys b <-> Has b key = true.
Proof.
  split_all.
  - apply Fold_loop.
  - apply NoDup_fst_map_to_list.
  - apply elem_of_tree_keys.
Qed.

(** X20. [Keys] sends every key of the index exactly once, except the
    key of length zero, which it never sends; these are the keys [Scan]
    visits for the empty prefix. *)
Theorem Keys_sends_every_key_but_the_empty_one (b : Bitcask) :
  NoDup (Keys b)
  /\ (forall key, key ∈ Keys b <-> Has b key = true /\ key <> [])
  /\ Keys b = scanned b [].
Proof.
  split_all.
  - unfold Keys. apply NoDup_filter, NoDup_fst_map_to_list.
  - intros key. unfold Keys.
    rewrite list_elem_of_filter, len_zero_iff.
    fold (tree_keys b). rewrite elem_of_tree_keys. tauto.
  - unfold Keys, scanned. fold (tree_keys b). f_equal.
    symmetry. induction (tree_keys b) as [|key l IH]; [reflexivity|].
    rewrite filter_cons, decide_True, IH; [reflexivity|].
    unfold has_prefix. by apply bool_decide_eq_true.
Qed.

(** ** Databases built from an empty directory *)

(** X21. On a database opened on an empty directory, with limits that
    leave room for a record, and then written by any sequence of [Put]
    and [Delete] calls (failed ones included), [Get] of a key either
    reports that the key is not found, when [Has] is [false], or returns
    a value: it never fails with a read or a checksum error. *)
Theorem Get_reads_every_key_of_a_built_database (mapiter : mapiterT)
    (opts : list Option) (d : Dir) (b : Bitcask) (ops : list op)
    (key : bytes) :
  Open mapiter empty_dir opts = (d, Ok b) ->
  config_sane (config b) ->
  let b' := run ops b in
  (Has b' key = false /\ Get b' key = Err ErrKeyNotFound)
  \/ (Has b' key = true /\ exists value, Get b' key = Ok value).
Proof.
  intros HO Hsane. cbv zeta.
  assert (Hopts : exists cfg, apply_options opts newDefaultConfig = (cfg, Ok tt)).
  { unfold Open in HO. cbn [getConfig config_file empty_dir] in HO.
    destruct (apply_options opts newDefaultConfig) as [cfg [[]|e|]];
      [eauto|discriminate|discriminate]. }
  destruct Hopts as [cfg Hcfg].
  rewrite (Open_empty_dir mapiter opts cfg Hcfg) in HO.
  injection HO as _ <-.
  assert (Hwf : wf (run ops (empty_db cfg opts)))
    by (apply run_wf, wf_empty_db; assumption).
  destruct (Has (run ops (empty_db cfg opts)) key) eqn:HH.
  - right. split; [reflexivity|].
    unfold Has in HH. apply bool_decide_eq_true in HH as [item Hitem].
    destruct (wf_key _ _ _ Hwf Hitem) as (value & HG & _). eauto.
  - left. split; [reflexivity|].
    by apply Get_reports_a_missing_key_iff_not_Has.
Qed.

Lemma Get_reads_every_key_of_a_built_database_witness :
  exists value,
    Get (run [OpPut key_a val_1; OpDelete key_b; OpPut key_a val_2] fresh_db)
        key_a = Ok value.
Proof.
  destruct (Get_reads_every_key_of_a_built_database asc [] (dir fresh_db)
              fresh_db [OpPut key_a val_1; OpDelete key_b; OpPut key_a val_2]
              key_a) as [[HH _]|[_ HG]].
  - exact fresh_db_is_Open.
  - exact newDefaultConfig_sane.
  - vm_compute in HH. discriminate.
  - exact HG.
Defined.

(** ** The lock *)

Lemma reopen_keeps_the_rest (mapiter : mapiterT) (b b' : Bitcask) :
  reopen mapiter b = (b', Ok tt) ->
  lock_file (dir b') = lock_file (dir b)
  /\ index_file (dir b') = index_file (dir b)
  /\ config_file (dir b') = config_file (dir b)
  /\ config b' = config b /\ options b' = options b.
Proof.
  unfold reopen. intros H.
  repeat (case_match; try discriminate).
  all: injection H as <-; cbn; auto.
Qed.

(** X22. A successful [Open] found the directory unlocked and leaves it
    locked: a second [Open] of the same directory, with options that are
    accepted, fails with [ErrDatabaseLocked] and changes nothing; [Close]
    releases the lock. *)
Theorem Open_holds_the_lock_until_Close (mapiter : mapiterT) (d d' : Dir)
    (opts : list Option) (b : Bitcask) :
  Open mapiter d opts = (d', Ok b) ->
  lock_file d = false /\ lock_file d' = true /\ dir b = d'
  /\ (forall mapiter' opts' cfg',
        apply_options opts'
          (match getConfig d' with Ok cfg => cfg | _ => newDefaultConfig end)
        = (cfg', Ok tt) ->
        Open mapiter' d' opts' = (d', Err ErrDatabaseLocked))
  /\ lock_file (dir (Close b).1) = false.
Proof.
  unfold Open at 1. intros H.
  destruct (apply_options opts _) as [cfg [[]|e|]];
    [|discriminate|discriminate].
  destruct (lock_file d) eqn:Hl; [discriminate|].
  destruct (reopen mapiter _) as [b1 [[]|e|]] eqn:Hre;
    [|discriminate|discriminate].
  injection H as <- <-.
  apply reopen_keeps_the_rest in Hre as (Hlock & _).
  cbn [dir lock_file] in Hlock.
  split_all; try reflexivity.
  - exact Hlock.
  - intros mapiter' opts' cfg' Hopts. unfold Open.
    rewrite Hopts, Hlock. reflexivity.
Qed.

Lemma Open_holds_the_lock_until_Close_witness :
  Open desc (dir fresh_db) [WithMaxKeySize 8]
  = (dir fresh_db, Err ErrDatabaseLocked).
Proof.
  destruct (Open_holds_the_lock_until_Close asc empty_dir (dir fresh_db) []
              fresh_db fresh_db_is_Open) as (_ & _ & _ & HO & _).
  eapply HO. reflexivity.
Defined.

(** ** Close, then Open *)

(** X23. [Close] followed by [Open] on the same directory gives back the
    database: for a database that satisfies the store's invariant, whose
    segment ids fit the 32 bits of the index codec, and an [Open] whose
    options lead to the same configuration, [Open] succeeds, [Get]
    returns the same result for every key, and [Len] and the segment
    files are unchanged.  The index is read from the [index] file [Close]
    wrote, whatever the order of the map range. *)
Theorem Close_then_Open_keeps_every_key (mapiter : mapiterT) (b : Bitcask)
    (opts : list Option) :
  wf b -> segments_fit b ->
  let d := dir (Close b).1 in
  apply_options opts
    (match getConfig d with Ok cfg => cfg | _ => newDefaultConfig end)
  = (config b, Ok tt) ->
  exists b',
    Open mapiter d opts = (dir b', Ok b')
    /\ (forall key, Get b' key = Get b key)
    /\ Len b' = Len b
    /\ files (dir b') = files (dir b).
Proof.
  intros Hwf Hfit d Hopts.
  pose proof Hwf as (Hc & Hkeys & _ & (Hmk & Hroom) & _).
  unfold Open. rewrite Hopts.
  change (lock_file d) with false. cbv iota.
  set (b0 := {| config := config b; options := opts;
                dir := {| files := files d; index_file := index_file d;
                          config_file := Some (config b);
                          lock_file := true |};
                curr := nil_datafile; datafiles := ∅; trie := ∅ |}).
  assert (Hread : Index.ReadFromFile (Some (WriteIndex (trie b) []))
                    (maxKeySize (config b0)) (maxValueSize (config b0))
                  = Ok (trie b, true)).
  { apply ReadFromFile_WriteIndex. intros k it Hk.
    destruct (Hkeys k it Hk) as (v & _ & Hrec & Hkl & Hvl).
    destruct Hrec as (c & Hfile & Hoff & Hsize & Hend & _).
    destruct (Hfit _ _ Hfile) as [Hfid Hclen].
    pose proof (len_record k v) as Hlr.
    pose proof (len_nonneg k). pose proof (len_nonneg v).
    unfold binding_ok. cbn [fst snd config b0].
    unfold max_int64 in *. split_all; lia. }
  destruct (reopen_with_index mapiter b0 _ (trie b) eq_refl Hread)
    as (b' & Hre & Ht & Hcfg' & Hopt' & Hdir & Hc' & Hhandles).
  { cbn [dir b0 files]. destruct Hc as (_ & c & Hfile & _). intros E.
    change (files d) with (files (dir b)) in E.
    rewrite E, lookup_empty in Hfile. discriminate. }
  rewrite Hre. exists b'. split; [reflexivity|].
  assert (Hfs : files (dir b') = files (dir b)) by (rewrite Hdir; reflexivity).
  split_all.
  - intros key. destruct (trie b !! key) as [it|] eqn:Hk.
    + destruct (wf_key _ _ _ Hwf Hk) as (v & HG & _ & Hkl & Hvl).
      destruct (Hkeys key it Hk) as (v' & _ & Hrec & _ & Hvl').
      pose proof Hrec as (c & Hfile & _).
      rewrite HG.
      assert (Hlive : live b key v').
      { exists it. split_all; try assumption.
        - by destruct (Hkeys key it Hk) as (? & ? & _).
        - lia.
        - pose proof (len_nonneg key). unfold max_int64 in *. lia. }
      pose proof (Get_live _ _ _ Hlive) as HG'.
      assert (v' = v) as -> by congruence.
      apply Get_live. exists it. rewrite Ht, Hfs.
      split_all; try assumption.
      * destruct (Hhandles (FileID it)) as [E|Hdf]; [eauto| |].
        -- left. exact E.
        -- right. exact Hdf.
      * lia.
      * pose proof (len_nonneg key). unfold max_int64 in *. lia.
    + unfold Get. rewrite Ht, Hk. reflexivity.
  - unfold Len. rewrite Ht. reflexivity.
  - exact Hfs.
Qed.

Lemma Close_then_Open_keeps_every_key_witness :
  exists b',
    Open desc (dir (Close tiny_db_a2).1) [WithMaxDatafileSize 1]
    = (dir b', Ok b')
    /\ (forall key, Get b' key = Get tiny_db_a2 key)
    /\ Len b' = Len tiny_db_a2.
Proof.
  destruct (Close_then_Open_keeps_every_key desc tiny_db_a2
              [WithMaxDatafileSize 1]) as (b' & HO & HG & HL & _).
  - apply (run_wf [OpPut key_a val_1; OpPut key_a val_2] tiny_db).
    apply wf_empty_db; [|reflexivity].
    split; vm_compute; [reflexivity|discriminate].
  - intros i c Hi.
    assert (Hfs : files (dir tiny_db_a2)
                  = {[ 0 := record key_a val_1; 1 := record key_a val_2 ]})
      by (vm_compute; reflexivity).
    rewrite Hfs in Hi.
    apply lookup_insert_Some in Hi as [[<- <-]|[_ Hi]].
    + split; [lia|]. vm_compute. discriminate.
    + apply lookup_singleton_Some in Hi as [<- <-].
      split; [lia|]. vm_compute. discriminate.
  - reflexivity.
  - exists b'. split; [exact HO|]. split; [exact HG|exact HL].
Defined.

(** ** dtypes.go: unsigned integers with the top bit set *)

(** X24. [GetUint] returns the value [PutUint] stored when the value
    has its top bit set (2^63 and above): its unsigned varint takes all
    of the ten bytes stored. *)
Theorem GetUint_returns_ten_byte_varints (b b' : Bitcask) (key : bytes)
    (v : Z) :
  curr_ok b -> maxKeySize (config b) < 2 ^ 32 ->
  2 ^ 63 <= v < 2 ^ 64 ->
  PutUint b key v = (b', Ok tt) ->
  GetUint b' key = Ok v.
Proof.
  intros Hc Hmax Hv Hput.
  destruct (PutUvarint_zeros v) as (buf & n & Hbuf & Hlen & Hn & Hshort & Hu);
    [lia|].
  unfold PutUint in Hput. rewrite Hbuf in Hput.
  pose proof (Put_ok_key_size _ _ _ _ Hput) as Hk.
  unfold GetUint.
  rewrite (Get_live b' key buf)
    by (eapply Put_live; [exact Hc|lia|exact Hput]).
  cbn [mbind result_bind]. rewrite Hu, Hlen.
  assert (n = 10) as -> by lia. reflexivity.
Qed.

Lemma GetUint_returns_ten_byte_varints_witness :
  GetUint (PutUint fresh_db key_a (2 ^ 63)).1 key_a = Ok (2 ^ 63).
Proof.
  apply (GetUint_returns_ten_byte_varints fresh_db _ key_a (2 ^ 63)).
  - exact fresh_db_curr_ok.
  - vm_compute. reflexivity.
  - split; [vm_compute; discriminate | vm_compute; reflexivity].
  - vm_compute. reflexivity.
Defined.

(** ** Writes as appends to the logs *)


Lemma encode_log_app (r1 r2 : list (bytes * bytes)) :
  encode_log (r1 ++ r2) = encode_log r1 ++ encode_log r2.
Proof. unfold encode_log. by rewrite map_app, concat_app. Qed.

Lemma encode_log_snoc (recs : list (bytes * bytes)) (k v : bytes) :
  encode_log (recs ++ [(k, v)]) = encode_log recs ++ record k v.
Proof. rewrite encode_log_app. unfold encode_log. cbn. by rewrite app_nil_r. Qed.

Lemma index_segment_snoc (i : Z) (recs : list (bytes * bytes)) (r : bytes * bytes) :
  forall off t,
    index_segment i (recs ++ [r]) off t
    = index_record i (off + len (encode_log recs)) r (index_segment i recs off t).
Proof.
  induction recs as [|r0 recs IH]; intros off t.
  - cbn. change (len (encode_log [])) with 0. by rewrite Z.add_0_r.
  - cbn [app index_segment]. rewrite IH. f_equal.
    change (encode_log (r0 :: recs)) with (record r0.1 r0.2 ++ encode_log recs).
    rewrite len_app. lia.
Qed.

Lemma index_from_app (l1 l2 : list (list (bytes * bytes))) :
  forall i t,
    index_from i (l1 ++ l2) t
    = index_from (i + Z.of_nat (length l1)) l2 (index_from i l1 t).
Proof.
  induction l1 as [|recs l1 IH]; intros i t.
  - cbn. by rewrite Z.add_0_r.
  - cbn [app index_from length]. rewrite IH. f_equal. lia.
Qed.

Lemma index_from_snoc_record (prev : list (list (bytes * bytes)))
    (last : list (bytes * bytes)) (r : bytes * bytes) :
  index_from 0 (prev ++ [last ++ [r]]) ∅
  = index_record (Z.of_nat (length prev)) (len (encode_log last)) r
      (index_from 0 (prev ++ [last]) ∅).
Proof.
  rewrite !index_from_app. cbn [index_from].
  rewrite index_segment_snoc. reflexivity.
Qed.

Lemma index_from_snoc_empty (logs : list (list (bytes * bytes))) :
  index_from 0 (logs ++ [[]]) ∅ = index_from 0 logs ∅.
Proof. rewrite index_from_app. reflexivity. Qed.

(** The exact effect of the rotation step. *)
Lemma rotate_exact (b : Bitcask) (c : bytes) :
  Data.w (curr b) = true ->
  files (dir b) !! Data.id (curr b) = Some c ->
  files (dir b) !! (Data.id (curr b) + 1) = None ->
  - 2 ^ 63 <= Data.id (curr b) < max_int64 ->
  rotate b
  = if maxDatafileSize (config b) <=? Data.Size (curr b) then
      ({| config := config b; options := options b;
          dir := set_files (dir b)
                   (<[Data.id (curr b) + 1 := []]> (files (dir b)));
          curr := {| Data.id := Data.id (curr b) + 1; Data.w := true;
                     Data.offset := 0; Data.rpos := 0 |};
          datafiles := <[Data.id (curr b) :=
                           {| Data.id := Data.id (curr b); Data.w := false;
                              Data.offset := len c; Data.rpos := 0 |}]>
                         (datafiles b);
          trie := trie b |}, Ok tt)
    else (b, Ok tt).
Proof.
  intros Hw Hc Hnone Hid. unfold rotate, Data.FileID.
  destruct (maxDatafileSize (config b) <=? Data.Size (curr b)); [|reflexivity].
  unfold Data.NewDatafile at 1. rewrite Hc. cbn [negb].
  rewrite wrap_int64_small by (unfold max_int64 in *; lia).
  unfold Data.NewDatafile. rewrite Hnone. reflexivity.
Qed.

Lemma seg_inv_curr_file (b : Bitcask) (prev : list (list (bytes * bytes)))
    (last : list (bytes * bytes)) :
  seg_inv b (prev ++ [last]) ->
  Data.id (curr b) = Z.of_nat (length prev)
  /\ files (dir b) !! Data.id (curr b) = Some (encode_log last).
Proof.
  intros (_ & Hlen & Hfs & _).
  rewrite length_app in Hlen. cbn [length] in Hlen.
  assert (Hid : Data.id (curr b) = Z.of_nat (length prev)) by lia.
  split; [exact Hid|].
  rewrite Hfs, Hid, lookup_map_seqZ_0 by lia.
  rewrite Nat2Z.id, fmap_app. cbn [fmap list_fmap].
  rewrite lookup_app_r by (rewrite length_fmap; lia).
  rewrite length_fmap, Nat.sub_diag. reflexivity.
Qed.

Lemma seg_inv_nonempty (b : Bitcask) (logs : list (list (bytes * bytes))) :
  seg_inv b logs -> exists prev last, logs = prev ++ [last].
Proof.
  intros ((_ & c & Hc & _) & Hlen & Hfs & _).
  destruct (exists_last (l := logs)) as (prev & last & ->).
  - intros ->. rewrite Hfs in Hc. cbn in Hc. by rewrite lookup_empty in Hc.
  - eauto.
Qed.

Lemma rotate_seg (b : Bitcask) (logs : list (list (bytes * bytes))) :
  seg_inv b logs -> Z.of_nat (length logs) < max_int64 ->
  exists b1 logs1,
    rotate b = (b1, Ok tt) /\ seg_inv b1 logs1
    /\ (logs1 = logs \/ logs1 = logs ++ [[]])
    /\ trie b1 = trie b /\ config b1 = config b /\ options b1 = options b
    /\ index_file (dir b1) = index_file (dir b)
    /\ config_file (dir b1) = config_file (dir b)
    /\ lock_file (dir b1) = lock_file (dir b).
Proof.
  intros Hinv Hmax.
  pose proof Hinv as ((Hw & c & Hc & Hoff) & Hlen & Hfs & Hdf & Hkeys & Hsz).
  assert (Hid0 : 0 <= Data.id (curr b)).
  { rewrite Hfs in Hc. apply lookup_map_seqZ_Some in Hc. lia. }
  assert (Hnone : files (dir b) !! (Data.id (curr b) + 1) = None).
  { rewrite Hfs. apply lookup_map_seqZ_None. right. rewrite length_fmap. lia. }
  rewrite (rotate_exact b c Hw Hc Hnone) by (unfold max_int64 in *; lia).
  destruct (maxDatafileSize (config b) <=? Data.Size (curr b)).
  - eexists _, (logs ++ [[]]). split; [reflexivity|].
    cbn [trie config options dir set_files files index_file config_file
         lock_file].
    split_all; auto.
    unfold seg_inv. cbn [curr dir set_files files datafiles Data.id].
    split_all.
    + split; [reflexivity|]. exists [].
      cbn [curr dir set_files files Data.id Data.offset].
      rewrite lookup_insert_eq. auto.
    + rewrite length_app. cbn [length]. lia.
    + rewrite Hfs, fmap_app. cbn [fmap list_fmap].
      rewrite map_seqZ_snoc, length_fmap. f_equal. lia.
    + intros i Hi. destruct (decide (i = Data.id (curr b))) as [->|Hne].
      * rewrite lookup_insert_eq. eexists. split; reflexivity.
      * rewrite lookup_insert_ne by congruence. apply Hdf. lia.
    + apply Forall_app. split; [exact Hkeys|]. repeat constructor.
    + apply Forall_app. split; [exact Hsz|]. repeat constructor.
      change (len (encode_log [])) with 0. unfold max_int64. lia.
  - exists b, logs. split_all; auto.
Qed.

Lemma write_seg (b1 : Bitcask) (prev : list (list (bytes * bytes)))
    (last : list (bytes * bytes)) (k v : bytes) curr' fs' r :
  seg_inv b1 (prev ++ [last]) -> len k < 2 ^ 32 ->
  Data.Write (curr b1) (files (dir b1)) (NewEntry k v) = (curr', fs', r) ->
  Data.id curr' = Z.of_nat (length prev)
  /\ match r with
     | Ok (off, n) =>
         seg_inv {| config := config b1; options := options b1;
                    dir := set_files (dir b1) fs'; curr := curr';
                    datafiles := datafiles b1; trie := trie b1 |}
                 (prev ++ [last ++ [(k, v)]])
         /\ off = len (encode_log last) /\ n = len (record k v)
     | Err _ =>
         seg_inv {| config := config b1; options := options b1;
                    dir := set_files (dir b1) fs'; curr := curr';
                    datafiles := datafiles b1; trie := trie b1 |}
                 (prev ++ [last])
     | Panic => False
     end.
Proof.
  intros Hinv Hk Hw.
  destruct (seg_inv_curr_file _ _ _ Hinv) as [Hid Hfile].
  pose proof Hinv as ((Hww & c & Hc & Hoff) & Hlen & Hfs & Hdf & Hkeys & Hsz).
  assert (c = encode_log last) as -> by congruence.
  apply Write_spec in Hw as (Hid' & Hw' & _ & _ & Hr).
  split; [congruence|].
  destruct r as [[off n]|e|]; [| |exact Hr].
  - destruct Hr as (_ & -> & -> & c' & Hc' & -> & Hfit & Hoff').
    assert (c' = encode_log last) as -> by congruence.
    change (Data.frame (NewEntry k v)) with (record k v) in *.
    split; [|split; [exact Hoff|reflexivity]].
    unfold seg_inv. cbn [curr dir set_files files datafiles].
    rewrite Hid'. split_all.
    + unfold curr_ok. cbn [curr dir set_files files].
      split; [congruence|]. exists (encode_log last ++ record k v).
      rewrite Hid', lookup_insert_eq.
      split; [reflexivity|]. rewrite Hoff', Hoff, len_app.
      pose proof (len_nonneg (encode_log last)).
      pose proof (len_nonneg (record k v)).
      apply wrap_int64_small. unfold max_int64 in *. lia.
    + rewrite !length_app in *. exact Hlen.
    + rewrite Hfs, !fmap_app. cbn [fmap list_fmap].
      rewrite !map_seqZ_snoc, length_fmap, Z.add_0_l, Hid.
      rewrite insert_insert_eq, encode_log_snoc. reflexivity.
    + exact Hdf.
    + apply Forall_app in Hkeys as [Hp Hl]. apply Forall_app. split; [exact Hp|].
      apply Forall_singleton. apply (proj1 (Forall_singleton _ _)) in Hl.
      apply Forall_app. split; [exact Hl|]. by apply Forall_singleton.
    + apply Forall_app in Hsz as [Hp Hl]. apply Forall_app. split; [exact Hp|].
      apply Forall_singleton. rewrite encode_log_snoc, len_app. exact Hfit.
  - destruct Hr as [-> Hsame].
    assert (fs' = files (dir b1)) as -> by (apply map_eq; exact Hsame).
    unfold seg_inv. cbn [curr dir set_files files datafiles].
    split_all; auto.
    unfold curr_ok. cbn [curr dir set_files files].
    split; [exact Hww|]. exists (encode_log last). auto.
Qed.

(** The segments after a [put], whatever its outcome. *)
Lemma put_seg (b b' : Bitcask) (logs : list (list (bytes * bytes)))
    (k v : bytes) (r : result (Z * Z)) :
  seg_inv b logs -> Z.of_nat (length logs) < max_int64 -> len k < 2 ^ 32 ->
  put b k v = (b', r) ->
  trie b' = trie b
  /\ exists prev last,
       (prev ++ [last] = logs \/ prev ++ [last] = logs ++ [[]])
       /\ Data.id (curr b') = Z.of_nat (length prev)
       /\ match r with
          | Ok (off, n) =>
              seg_inv b' (prev ++ [last ++ [(k, v)]])
              /\ off = len (encode_log last) /\ n = len (record k v)
          | Err _ => seg_inv b' (prev ++ [last])
          | Panic => False
          end.
Proof.
  intros Hinv Hmax Hk. rewrite put_rotate.
  destruct (rotate_seg b logs Hinv Hmax)
    as (b1 & logs1 & -> & Hinv1 & Hlogs1 & Ht & _).
  destruct (seg_inv_nonempty _ _ Hinv1) as (prev & last & ->).
  destruct (Data.Write (curr b1) (files (dir b1)) (NewEntry k v))
    as [[curr' fs'] r'] eqn:Hw.
  intros [= <- <-]. cbn [trie]. split; [exact Ht|].
  exists prev, last. split; [exact Hlogs1|].
  apply (write_seg _ _ _ _ _ _ _ _ Hinv1 Hk) in Hw as [Hid Hr].
  split; [exact Hid|]. exact Hr.
Qed.

Lemma seg_inv_set_trie (b : Bitcask) (t : gmap bytes Item)
    (logs : list (list (bytes * bytes))) :
  seg_inv b logs -> seg_inv (set_trie b t) logs.
Proof. intros H. exact H. Qed.

Lemma put_logged (b b' : Bitcask) (logs : list (list (bytes * bytes)))
    (k v : bytes) (r : result (Z * Z)) :
  logged b logs -> Z.of_nat (length logs) < max_int64 -> len k < 2 ^ 32 ->
  put b k v = (b', r) ->
  r <> Panic
  /\ exists logs',
       (length logs' <= S (length logs))%nat
       /\ seg_inv b' logs'
       /\ (forall k' it, trie b !! k' = Some it ->
           0 <= FileID it < Z.of_nat (length logs'))
       /\ 0 <= Data.id (curr b') < Z.of_nat (length logs')
       /\ match r with
          | Ok (off, n) =>
              index_from 0 logs' ∅
              = index_record (Data.id (curr b')) off (k, v) (trie b)
              /\ n = len (record k v)
          | _ => index_from 0 logs' ∅ = trie b
          end.
Proof.
  intros (Hinv & Ht & Hids) Hmax Hk Hput.
  destruct (put_seg b b' logs k v r Hinv Hmax Hk Hput)
    as (Ht' & prev & last & Hlogs & Hid & Hr).
  assert (Hlen : (length logs <= length (prev ++ [last]) <= S (length logs))%nat).
  { destruct Hlogs as [->| ->]; [lia|]. rewrite length_app. cbn. lia. }
  assert (Hidx : index_from 0 (prev ++ [last]) ∅ = trie b).
  { destruct Hlogs as [->| ->]; [by rewrite Ht|].
    by rewrite index_from_snoc_empty, Ht. }
  rewrite length_app in Hlen. cbn [length] in Hlen.
  destruct r as [[off n]|e|]; [| |contradiction].
  - destruct Hr as (Hinv' & -> & ->). split; [discriminate|].
    exists (prev ++ [last ++ [(k, v)]]).
    rewrite length_app. cbn [length].
    split_all; try lia; try assumption.
    + intros k' it Hit. apply Hids in Hit. lia.
    + rewrite index_from_snoc_record, Hidx, Hid. reflexivity.
  - split; [discriminate|]. exists (prev ++ [last]).
    rewrite length_app. cbn [length].
    split_all; try lia; try assumption.
    intros k' it Hit. apply Hids in Hit. lia.
Qed.

Lemma Put_logged (b b' : Bitcask) (logs : list (list (bytes * bytes)))
    (k v : bytes) (r : result unit) :
  logged b logs -> Z.of_nat (length logs) < max_int64 ->
  len k < 2 ^ 32 -> v <> [] ->
  Put b k v = (b', r) ->
  exists logs', (length logs' <= S (length logs))%nat /\ logged b' logs'.
Proof.
  intros Hlog Hmax Hk Hv. unfold Put.
  destruct (maxKeySize (config b) <? len k);
    [intros [= <- <-]; exists logs; split; [lia|assumption]|].
  destruct (maxValueSize (config b) <? len v);
    [intros [= <- <-]; exists logs; split; [lia|assumption]|].
  destruct (put b k v) as [b1 r1] eqn:Hput.
  pose proof (put_keeps _ _ _ _ _ Hput) as (Ht1 & _).
  destruct (put_logged _ _ _ _ _ _ Hlog Hmax Hk Hput)
    as (Hnp & logs' & Hlen & Hinv & Hids & Hcur & Hr).
  destruct r1 as [[off n]|e|]; [| |contradiction].
  - assert (Hs : (if sync (config b1) then Data.Sync (curr b1) else Ok tt)
                 = Ok tt) by (destruct (sync (config b1)); reflexivity).
    rewrite Hs. intros [= <- <-]. exists logs'. split; [exact Hlen|].
    destruct Hr as [Hidx ->].
    unfold index_record in Hidx. cbn [fst snd] in Hidx.
    assert (Hlv : (len v =? 0) = false).
    { apply Z.eqb_neq. destruct v; [congruence|]. unfold len. simpl. lia. }
    rewrite Hlv in Hidx.
    unfold logged. split_all.
    + apply seg_inv_set_trie. exact Hinv.
    + cbn [trie set_trie]. rewrite Ht1, Hidx. reflexivity.
    + cbn [trie set_trie]. intros k' it.
      rewrite lookup_insert. case_decide.
      * intros [= <-]. cbn [FileID]. exact Hcur.
      * rewrite Ht1. apply Hids.
  - intros [= <- <-]. exists logs'. split; [exact Hlen|].
    unfold logged. split_all; [exact Hinv|by rewrite Ht1|].
    rewrite Ht1. exact Hids.
Qed.

Lemma Delete_logged (b b' : Bitcask) (logs : list (list (bytes * bytes)))
    (k : bytes) (r : result unit) :
  logged b logs -> Z.of_nat (length logs) < max_int64 ->
  len k < 2 ^ 32 ->
  Delete b k = (b', r) ->
  exists logs', (length logs' <= S (length logs))%nat /\ logged b' logs'.
Proof.
  intros Hlog Hmax Hk. unfold Delete.
  destruct (put b k []) as [b1 r1] eqn:Hput.
  pose proof (put_keeps _ _ _ _ _ Hput) as (Ht1 & _).
  destruct (put_logged _ _ _ _ _ _ Hlog Hmax Hk Hput)
    as (Hnp & logs' & Hlen & Hinv & Hids & Hcur & Hr).
  destruct r1 as [[off n]|e|]; [| |contradiction].
  - intros [= <- <-]. exists logs'. split; [exact Hlen|].
    destruct Hr as [Hidx ->].
    unfold index_record in Hidx. cbn [fst snd] in Hidx.
    change (len [] =? 0) with true in Hidx. cbv iota in Hidx.
    unfold logged. split_all.
    + apply seg_inv_set_trie. exact Hinv.
    + cbn [trie set_trie]. rewrite Ht1, Hidx. reflexivity.
    + cbn [trie set_trie]. intros k' it Hit.
      apply lookup_delete_Some in Hit as [_ Hit].
      rewrite Ht1 in Hit. by apply Hids in Hit.
  - intros [= <- <-]. exists logs'. split; [exact Hlen|].
    unfold logged. split_all; [exact Hinv|by rewrite Ht1|].
    rewrite Ht1. exact Hids.
Qed.

Lemma run_logged (ops : list op) :
  forall (b : Bitcask) (logs : list (list (bytes * bytes))),
    logged b logs -> Forall op_ok ops ->
    Z.of_nat (length logs) + Z.of_nat (length ops) <= max_int64 ->
    exists logs', logged (run ops b) logs'.
Proof.
  induction ops as [|o ops IH]; intros b logs Hlog Hok Hmax.
  - exists logs. exact Hlog.
  - inversion Hok as [|? ? Ho Hok']; subst. cbn [length] in Hmax.
    assert (Hstep : exists logs',
               (length logs' <= S (length logs))%nat
               /\ logged (apply_op b o) logs').
    { destruct o as [k v|k]; cbn [op_ok apply_op] in *.
      - destruct Ho as [Hk Hv].
        destruct (Put b k v) as [b' r] eqn:HP.
        eapply Put_logged; [exact Hlog|lia|exact Hk|exact Hv|exact HP].
      - destruct (Delete b k) as [b' r] eqn:HD.
        eapply Delete_logged; [exact Hlog|lia|exact Ho|exact HD]. }
    destruct Hstep as (logs' & Hlen & Hlog').
    change (run (o :: ops) b) with (run ops (apply_op b o)).
    apply (IH _ logs' Hlog' Hok'). lia.
Qed.

Lemma logged_empty_db (cfg : configT) (opts : list Option) :
  logged (empty_db cfg opts) [[]].
Proof.
  unfold logged. split_all.
  - unfold seg_inv. split_all.
    + split; [reflexivity|]. exists []. split; reflexivity.
    + reflexivity.
    + reflexivity.
    + cbn [curr empty_db Data.id]. intros i Hi. lia.
    + repeat constructor.
    + repeat constructor. change (len (encode_log [])) with 0.
      unfold max_int64. lia.
  - reflexivity.
  - intros k it Hit. cbn in Hit. by rewrite lookup_empty in Hit.
Qed.

(** ** Replay of the segments *)

Lemma encode_log_length (recs : list (bytes * bytes)) :
  (length recs <= length (encode_log recs))%nat.
Proof.
  induction recs as [|[k v] recs IH]; [simpl; lia|].
  change (encode_log ((k, v) :: recs)) with (record k v ++ encode_log recs).
  rewrite length_app. pose proof (len_record k v) as Hl.
  pose proof (len_nonneg k). pose proof (len_nonneg v).
  unfold len in *. simpl. lia.
Qed.

(** The replay of a segment that starts with the records [recs]: the
    loop indexes them and goes on with what follows. *)
Lemma replay_records (ids : list Z) (i fileID : Z) (fs : gmap Z bytes)
    (recs : list (bytes * bytes)) (tail : bytes) :
  forall (fuel : nat) (df : Data.datafile) (pre : bytes)
         (t : gmap bytes Item),
    0 <= i -> ids !! Z.to_nat i = Some fileID ->
    fs !! Data.id df = Some (pre ++ encode_log recs ++ tail) ->
    Data.rpos df = len pre ->
    Forall (fun r : bytes * bytes => len r.1 < 2 ^ 32) recs ->
    len (pre ++ encode_log recs) <= max_int64 ->
    (length recs < fuel)%nat ->
    exists df1,
      Data.id df1 = Data.id df
      /\ Data.rpos df1 = len (pre ++ encode_log recs)
      /\ replay fuel ids i df fs (len pre) t
         = replay (fuel - length recs) ids i df1 fs
             (len (pre ++ encode_log recs))
             (index_segment fileID recs (len pre) t).
Proof.
  induction recs as [|[k v] recs IH];
    intros fuel df pre t Hi Hids Hc Hpos Hkeys Hfit Hfuel.
  - exists df. change (encode_log []) with (@nil byte).
    rewrite app_nil_r, Nat.sub_0_r. cbn [index_segment]. auto.
  - destruct fuel as [|fuel]; [simpl in Hfuel; lia|].
    inversion Hkeys as [|? ? Hk Hkeys']; subst. cbn [fst] in Hk.
    change (encode_log ((k, v) :: recs))
      with (record k v ++ encode_log recs) in *.
    rewrite !len_app in Hfit.
    pose proof (len_nonneg pre). pose proof (len_nonneg (encode_log recs)).
    pose proof (len_record k v) as Hlr.
    pose proof (len_nonneg k). pose proof (len_nonneg v).
    cbn [replay index_segment length]. cbn [Nat.sub].
    rewrite <- app_assoc in Hc.
    rewrite (Read_frame df fs pre (encode_log recs ++ tail) (NewEntry k v));
      [|exact Hc|exact Hpos|exact Hk|apply ChecksumIEEE_range
       |change (Data.frame (NewEntry k v)) with (record k v); lia].
    change (Data.frame (NewEntry k v)) with (record k v).
    cbn [Value Key NewEntry].
    set (df1 := {| Data.id := Data.id df; Data.w := Data.w df;
                   Data.offset := Data.offset df;
                   Data.rpos := len pre + len (record k v) |}).
    assert (Hw : wrap_int64 (len pre + len (record k v))
                 = len pre + len (record k v)).
    { apply wrap_int64_small. unfold max_int64 in *. lia. }
    destruct (IH fuel df1 (pre ++ record k v)
                (index_record fileID (len pre) (k, v) t))
      as (df2 & Hid2 & Hpos2 & Hre); try assumption.
    { cbn [df1 Data.id]. rewrite <- app_assoc. exact Hc. }
    { cbn [df1 Data.rpos]. rewrite len_app. reflexivity. }
    { rewrite <- app_assoc, !len_app. lia. }
    { simpl in Hfuel. lia. }
    rewrite <- !app_assoc in Hpos2, Hre.
    rewrite (len_app pre (record k v)) in Hre.
    exists df2. split; [exact Hid2|]. split; [exact Hpos2|].
    cbn [fst snd]. rewrite <- Hre.
    unfold index_record. cbn [fst snd].
    destruct (len v =? 0).
    + rewrite Hw. reflexivity.
    + destruct (Z.ltb_spec i 0); [lia|]. rewrite Hids.
      rewrite Hw. reflexivity.
Qed.

Lemma replay_segment (ids : list Z) (i fileID : Z) (fs : gmap Z bytes)
    (recs : list (bytes * bytes)) (fuel : nat) (df : Data.datafile)
    (t : gmap bytes Item) :
  0 <= i -> ids !! Z.to_nat i = Some fileID ->
  fs !! Data.id df = Some (encode_log recs) ->
  Data.rpos df = 0 ->
  Forall (fun r : bytes * bytes => len r.1 < 2 ^ 32) recs ->
  len (encode_log recs) <= max_int64 ->
  (length recs < fuel)%nat ->
  exists df',
    replay fuel ids i df fs 0 t = (df', Ok (index_segment fileID recs 0 t))
    /\ Data.id df' = Data.id df.
Proof.
  intros Hi Hids Hc Hpos Hkeys Hfit Hfuel.
  destruct (replay_records ids i fileID fs recs [] fuel df [] t)
    as (df1 & Hid1 & Hpos1 & Hre); try assumption.
  { rewrite app_nil_r. exact Hc. }
  cbn [app] in Hpos1, Hre. change (len []) with 0 in Hre. rewrite Hre.
  destruct (fuel - length recs)%nat as [|fuel'] eqn:E; [lia|].
  cbn [replay].
  rewrite (Read_eof df1 fs (encode_log recs)); [eauto|congruence|exact Hpos1].
Qed.

(** The replay of the segments [k], [k + 1], ... whose records are
    [rest], followed by the segments [more]. *)
Lemma replay_all_prefix (ids : list Z) (fs : gmap Z bytes)
    (more : list Z) (rest : list (list (bytes * bytes))) :
  forall (k : Z) (dfs : gmap Z Data.datafile) (t : gmap bytes Item),
    0 <= k ->
    (forall (j : nat) recs, rest !! j = Some recs ->
       fs !! (k + Z.of_nat j) = Some (encode_log recs)
       /\ Forall (fun r : bytes * bytes => len r.1 < 2 ^ 32) recs
       /\ len (encode_log recs) <= max_int64
       /\ ids !! Z.to_nat (k + Z.of_nat j) = Some (k + Z.of_nat j)) ->
    (forall j : nat, (j < length rest)%nat ->
       exists df, dfs !! (k + Z.of_nat j) = Some df
                  /\ Data.id df = k + Z.of_nat j /\ Data.rpos df = 0) ->
    exists dfs',
      replay_all (seqZ k (Z.of_nat (length rest)) ++ more) ids dfs fs t
      = replay_all more ids dfs' fs (index_from k rest t)
      /\ (forall i df, dfs !! i = Some df ->
          exists df', dfs' !! i = Some df' /\ Data.id df' = Data.id df)
      /\ (forall i, ~ k <= i < k + Z.of_nat (length rest) ->
          dfs' !! i = dfs !! i).
Proof.
  induction rest as [|recs rest IH]; intros k dfs t Hk Hfs Hdfs.
  - exists dfs. split_all; [reflexivity|eauto|reflexivity].
  - rewrite seqZ_cons by (cbn [length]; lia).
    replace (Z.pred (Z.of_nat (length (recs :: rest))))
      with (Z.of_nat (length rest)) by (cbn [length]; lia).
    cbn [replay_all index_from app].
    destruct (Hdfs 0%nat) as (df & Hdf & Hid & Hpos); [cbn; lia|].
    rewrite Z.add_0_r in Hdf, Hid. rewrite Hdf.
    destruct (Hfs 0%nat recs eq_refl) as (Hfile & Hkeys & Hfit & Hids).
    rewrite Z.add_0_r in Hfile, Hids.
    rewrite Hid, Hfile. cbn [default from_option Datatypes.id].
    destruct (replay_segment ids k k fs recs
                (S (length (encode_log recs))) df t)
      as (df1 & Hre & Hid1); try assumption.
    { rewrite Hid. exact Hfile. }
    { pose proof (encode_log_length recs). lia. }
    rewrite Hre.
    destruct (IH (Z.succ k) (<[k := df1]> dfs) (index_segment k recs 0 t))
      as (dfs' & Hall & Hkeep & Hout).
    { lia. }
    { intros j recs' Hj.
      replace (Z.succ k + Z.of_nat j) with (k + Z.of_nat (S j)) by lia.
      apply Hfs. exact Hj. }
    { intros j Hj.
      replace (Z.succ k + Z.of_nat j) with (k + Z.of_nat (S j)) by lia.
      rewrite lookup_insert_ne by lia. apply Hdfs. cbn [length]. lia. }
    replace (k + 1) with (Z.succ k) by lia.
    rewrite Hall. exists dfs'. split; [reflexivity|]. split.
    + intros i df0 Hdf0. destruct (decide (i = k)) as [->|Hne].
      * destruct (Hkeep k df1) as (df' & Hdf' & Hid');
          [by rewrite lookup_insert_eq|].
        exists df'. split; [exact Hdf'|]. congruence.
      * apply Hkeep. by rewrite lookup_insert_ne.
    + intros i Hi. cbn [length] in Hi.
      rewrite Hout by lia. apply lookup_insert_ne. lia.
Qed.

Lemma replay_all_segments (ids : list Z) (fs : gmap Z bytes)
    (rest : list (list (bytes * bytes))) (k : Z)
    (dfs : gmap Z Data.datafile) (t : gmap bytes Item) :
  0 <= k ->
  (forall (j : nat) recs, rest !! j = Some recs ->
     fs !! (k + Z.of_nat j) = Some (encode_log recs)
     /\ Forall (fun r : bytes * bytes => len r.1 < 2 ^ 32) recs
     /\ len (encode_log recs) <= max_int64
     /\ ids !! Z.to_nat (k + Z.of_nat j) = Some (k + Z.of_nat j)) ->
  (forall j : nat, (j < length rest)%nat ->
     exists df, dfs !! (k + Z.of_nat j) = Some df
                /\ Data.id df = k + Z.of_nat j /\ Data.rpos df = 0) ->
  exists dfs',
    replay_all (seqZ k (Z.of_nat (length rest))) ids dfs fs t
    = (dfs', Ok (index_from k rest t))
    /\ (forall i df, dfs !! i = Some df ->
        exists df', dfs' !! i = Some df' /\ Data.id df' = Data.id df).
Proof.
  intros Hk Hfs Hdfs.
  destruct (replay_all_prefix ids fs [] rest k dfs t Hk Hfs Hdfs)
    as (dfs' & Hall & Hkeep & _).
  rewrite app_nil_r in Hall. exists dfs'. split; [exact Hall|exact Hkeep].
Qed.

Lemma ParseIds_seq (d : Dir) (xs : list bytes) :
  files d = map_seqZ 0 xs -> ParseIds d = seqZ 0 (Z.of_nat (length xs)).
Proof.
  intros Hfs. unfold ParseIds.
  apply (Sorted_unique Z.le).
  - apply Sorted_merge_sort. intros x y. lia.
  - apply StronglySorted_Sorted.
    assert (Hs : forall (n : nat) m, StronglySorted Z.le (seqZ m (Z.of_nat n))).
    { induction n as [|n IHn]; intros m.
      - cbn. constructor.
      - rewrite seqZ_cons by lia.
        replace (Z.pred (Z.of_nat (S n))) with (Z.of_nat n) by lia.
        constructor; [apply IHn|].
        apply Forall_seqZ. intros. lia. }
    apply Hs.
  - rewrite merge_sort_Permutation, Hfs, map_to_list_seqZ.
    rewrite fst_zip; [reflexivity|].
    rewrite length_seqZ. lia.
Qed.

Lemma open_sealed_exact (fs : gmap Z bytes) (ids : list Z) :
  forall (acc : gmap Z Data.datafile),
    (forall i, i ∈ ids -> is_Some (fs !! i)) ->
    exists dfs,
      open_sealed ids fs acc = Ok dfs
      /\ (forall i, i ∈ ids ->
          exists df, dfs !! i = Some df /\ Data.id df = i
                     /\ Data.rpos df = 0)
      /\ (forall i, i ∉ ids -> dfs !! i = acc !! i).
Proof.
  induction ids as [|id ids IH]; intros acc Hfs.
  - exists acc. split_all; [reflexivity| |reflexivity].
    intros i Hi. by apply elem_of_nil in Hi.
  - cbn [open_sealed]. unfold Data.NewDatafile.
    destruct (Hfs id) as [c Hc]; [left|]. rewrite Hc.
    destruct (IH (<[id := {| Data.id := id; Data.w := negb true;
                             Data.offset := len c; Data.rpos := 0 |}]> acc))
      as (dfs & Hopen & Hin & Hout).
    { intros i Hi. apply Hfs. by right. }
    exists dfs. split_all; [exact Hopen| |].
    + intros i Hi. destruct (decide (i ∈ ids)) as [Hi'|Hi'].
      * by apply Hin.
      * apply elem_of_cons in Hi as [->|Hi]; [|contradiction].
        rewrite Hout by assumption. rewrite lookup_insert_eq.
        eexists. split_all; reflexivity.
    + intros i Hi. apply not_elem_of_cons in Hi as [Hne Hi].
      rewrite Hout by assumption. by rewrite lookup_insert_ne.
Qed.

Lemma ReadAt_by_id (df df' : Data.datafile) (fs : gmap Z bytes)
    (index size : Z) :
  Data.id df = Data.id df' ->
  Data.ReadAt df fs index size = Data.ReadAt df' fs index size.
Proof. intros E. unfold Data.ReadAt. by rewrite E. Qed.

(** [Get] depends on the handles only through the segment they name. *)
Lemma Get_by_handles (b1 b2 : Bitcask) (key : bytes) :
  trie b1 = trie b2 -> files (dir b1) = files (dir b2) ->
  (forall it, trie b1 !! key = Some it -> handle_for b1 it /\ handle_for b2 it) ->
  Get b1 key = Get b2 key.
Proof.
  intros Ht Hfs Hh. unfold Get. rewrite <- Ht, <- Hfs.
  destruct (trie b1 !! key) as [it|] eqn:E; [|reflexivity].
  destruct (Hh it eq_refl) as [H1 H2].
  assert (Hpick : forall b, handle_for b it ->
            exists df,
              (if FileID it =? Data.FileID (curr b) then Some (curr b)
               else datafiles b !! FileID it) = Some df
              /\ Data.id df = FileID it).
  { intros b Hb. unfold Data.FileID.
    destruct (Z.eqb_spec (FileID it) (Data.id (curr b))) as [Eq|NE].
    - eexists; split; [reflexivity|]. symmetry; exact Eq.
    - destruct Hb as [Eq|(df & Hdf & Hid)]; [contradiction|].
      exists df. split; assumption. }
  destruct (Hpick b1 H1) as (df1 & -> & Hid1).
  destruct (Hpick b2 H2) as (df2 & -> & Hid2).
  rewrite (ReadAt_by_id df1 df2) by congruence. reflexivity.
Qed.

Lemma reopen_replays (mapiter : mapiterT) (b0 : Bitcask)
    (logs : list (list (bytes * bytes))) :
  files (dir b0) = map_seqZ 0 (encode_log <$> logs) -> logs <> [] ->
  index_file (dir b0) = None ->
  Forall (Forall (fun r : bytes * bytes => len r.1 < 2 ^ 32)) logs ->
  Forall (fun recs => len (encode_log recs) <= max_int64) logs ->
  mapiter (ParseIds (dir b0)) = ParseIds (dir b0) ->
  exists b',
    reopen mapiter b0 = (b', Ok tt)
    /\ trie b' = index_from 0 logs ∅
    /\ dir b' = dir b0
    /\ (forall i, 0 <= i < Z.of_nat (length logs) ->
        exists df, datafiles b' !! i = Some df /\ Data.id df = i).
Proof.
  intros Hfs Hne Hidx Hkeys Hfit Hiter. unfold reopen.
  rewrite Hiter, Hidx.
  pose proof (ParseIds_seq (dir b0) _ Hfs) as Hids.
  rewrite length_fmap in Hids. rewrite Hids.
  assert (Hfile : forall (j : nat) recs, logs !! j = Some recs ->
            files (dir b0) !! Z.of_nat j = Some (encode_log recs)).
  { intros j recs Hj. rewrite Hfs, lookup_map_seqZ_0 by lia.
    rewrite Nat2Z.id, list_lookup_fmap, Hj. reflexivity. }
  destruct (open_sealed_exact (files (dir b0))
              (seqZ 0 (Z.of_nat (length logs))) ∅)
    as (dfs0 & -> & Hin & _).
  { intros i Hi. apply elem_of_seqZ in Hi.
    destruct (lookup_lt_is_Some_2 logs (Z.to_nat i)) as [recs Hrecs]; [lia|].
    exists (encode_log recs). rewrite <- (Z2Nat.id i) by lia.
    by apply Hfile. }
  cbn [Index.ReadFromFile].
  destruct (replay_all_segments (seqZ 0 (Z.of_nat (length logs)))
              (files (dir b0)) logs 0 dfs0 ∅)
    as (dfs1 & Hall & Hkeep).
  { lia. }
  { intros j recs Hj. rewrite Z.add_0_l.
    pose proof (lookup_lt_Some _ _ _ Hj) as Hlt.
    split_all.
    - by apply Hfile.
    - by apply (Forall_lookup_1 _ _ _ _ Hkeys Hj).
    - by apply (Forall_lookup_1 _ _ _ _ Hfit Hj).
    - rewrite Nat2Z.id, lookup_seqZ_lt by lia. reflexivity. }
  { intros j Hj. rewrite Z.add_0_l. apply Hin. apply elem_of_seqZ. lia. }
  rewrite Hall.
  set (ids := seqZ 0 (Z.of_nat (length logs))) in *.
  assert (Hids' : ids <> []).
  { subst ids. destruct logs; [congruence|].
    rewrite seqZ_cons by (cbn [length]; lia). discriminate. }
  set (id := match ids with [] => 0 | _ => List.last ids 0 end).
  assert (Hid : id ∈ ids).
  { subst id. destruct ids eqn:E; [congruence|].
    rewrite <- E. apply last_elem_of. congruence. }
  subst ids. apply elem_of_seqZ in Hid.
  destruct (lookup_lt_is_Some_2 logs (Z.to_nat id)) as [recs Hrecs]; [lia|].
  apply Hfile in Hrecs. rewrite Z2Nat.id in Hrecs by lia.
  unfold Data.NewDatafile. rewrite Hrecs. cbn [negb].
  eexists. split; [reflexivity|].
  cbn [trie dir datafiles]. rewrite set_files_same.
  split_all.
  - reflexivity.
  - reflexivity.
  - intros i Hi.
    destruct (Hin i) as (df0 & Hdf0 & Hid0 & _); [apply elem_of_seqZ; lia|].
    destruct (Hkeep i df0 Hdf0) as (df' & Hdf' & Hid').
    exists df'. split; [exact Hdf'|congruence].
Qed.

(** X25. Recovery from the segments.  A database opened on an empty
    directory is written by [Put] calls with values that are not empty
    and by [Delete] calls, the keys shorter than 2^32 bytes, and closed,
    and its [index] file is removed.  When the map range of [reopen]
    visits the segments in ascending id order, [Open] on that directory
    succeeds and the database it returns has the same [Get] result for
    every key and the same [Len]. *)
Theorem Open_without_index_replays_the_segments (mapiter : mapiterT)
    (cfg cfg2 : configT) (opts opts2 : list Option) (ops : list op) :
  Forall op_ok ops -> Z.of_nat (length ops) < max_int64 ->
  let b := run ops (empty_db cfg opts) in
  let d := remove_index (dir (Close b).1) in
  mapiter (ParseIds d) = ParseIds d ->
  apply_options opts2
    (match getConfig d with Ok c => c | _ => newDefaultConfig end)
  = (cfg2, Ok tt) ->
  exists b',
    Open mapiter d opts2 = (dir b', Ok b')
    /\ (forall key, Get b' key = Get b key)
    /\ Len b' = Len b.
Proof.
  intros Hok Hmax b d Hiter Hopts.
  destruct (run_logged ops (empty_db cfg opts) [[]]
              (logged_empty_db cfg opts) Hok)
    as (logs & (Hinv & Ht & Hfid)); [cbn [length]; lia|].
  fold b in Hinv, Ht, Hfid.
  pose proof Hinv as (Hc & Hlen & Hfs & Hdfs & Hkeys & Hfit).
  unfold Open. rewrite Hopts. change (lock_file d) with false. cbv iota.
  set (b0 := {| config := cfg2; options := opts2;
                dir := {| files := files d; index_file := index_file d;
                          config_file := Some cfg2; lock_file := true |};
                curr := nil_datafile; datafiles := ∅; trie := ∅ |}).
  destruct (reopen_replays mapiter b0 logs)
    as (b' & Hre & Ht' & Hdir & Hhandles); try assumption.
  { destruct Hc as (_ & c & Hfile & _). intros ->.
    rewrite Hfs in Hfile. cbn in Hfile. by rewrite lookup_empty in Hfile. }
  { reflexivity. }
  rewrite Hre. exists b'. split; [reflexivity|].
  assert (Htrie : trie b' = trie b) by congruence.
  split.
  - intros key. apply Get_by_handles.
    + exact Htrie.
    + rewrite Hdir. reflexivity.
    + intros it Hit. rewrite Htrie in Hit. apply Hfid in Hit.
      split.
      * right. apply Hhandles. exact Hit.
      * destruct (decide (FileID it = Data.id (curr b))) as [E|NE];
          [by left|right]. apply Hdfs. lia.
  - unfold Len. by rewrite Htrie.
Qed.

Lemma Open_without_index_replays_the_segments_witness :
  exists b',
    Open asc
      (remove_index
         (dir (Close (run [OpPut key_a val_1; OpPut key_a val_2;
                           OpDelete key_b] tiny_db)).1))
      [] = (dir b', Ok b')
    /\ (forall key,
          Get b' key
          = Get (run [OpPut key_a val_1; OpPut key_a val_2; OpDelete key_b]
                     tiny_db) key)
    /\ Len b'
       = Len (run [OpPut key_a val_1; OpPut key_a val_2; OpDelete key_b]
                  tiny_db).
Proof.
  eapply (Open_without_index_replays_the_segments asc
            (WithMaxDatafileSize 1 newDefaultConfig).1 _
            [WithMaxDatafileSize 1] []
            [OpPut key_a val_1; OpPut key_a val_2; OpDelete key_b]).
  - repeat constructor; cbn; try discriminate; vm_compute; reflexivity.
  - vm_compute. reflexivity.
  - reflexivity.
  - reflexivity.
Defined.

(** ** What Merge leaves on disk *)

(** X26. After [Merge], on a database that satisfies the store's
    invariant and has fewer than 2^32 keys, the segment files hold the
    records the index points to and not one byte more, their total being
    the total size of the records the index pointed to before; the
    directory holds the [index] file of the merged index. *)
Theorem Merge_leaves_one_record_per_key (mapiter : mapiterT) (b : Bitcask) :
  wf b -> Len b < 2 ^ 32 ->
  exists b',
    Merge mapiter b = (b', Ok tt)
    /\ data_bytes (dir b') = live_bytes (trie b')
    /\ live_bytes (trie b') = live_bytes (trie b)
    /\ index_file (dir b') = Some (WriteIndex (trie b') []).
Proof.
  intros Hwf Hlen.
  pose proof Hwf as (_ & _ & Hlive & (Hmk & Hroom) & Hopts).
  unfold Merge. rewrite (Open_empty_dir _ _ _ Hopts), Merge_fold.
  destruct (merge_loop b (map_to_list (trie b)) Hwf []
              (empty_db (config b) (options b)))
    as (mdb & Hloop & Hinv).
  { cbn [app]. apply NoDup_fst_map_to_list. }
  { intros [k it] Hin. by apply elem_of_map_to_list. }
  { apply merge_inv_empty_db. }
  { cbn [length]. unfold Len in Hlen.
    rewrite <- length_map_to_list in Hlen. lia. }
  rewrite Hloop. cbn [mbind result_bind]. unfold Close at 1 2.
  cbn [app] in Hinv.
  destruct Hinv as (Hcfg & Hc & Hid & Hfiles & Hbytes & Hdom & Hkeys).
  set (closed := {| files := files (dir mdb);
                    index_file := Some (WriteIndex (trie mdb) []);
                    config_file := config_file (dir mdb);
                    lock_file := false |}).
  set (b1 := set_dir (set_dir b _) (dir (set_dir mdb closed))).
  assert (Hread : Index.ReadFromFile (Some (WriteIndex (trie mdb) []))
                    (maxKeySize (config b1)) (maxValueSize (config b1))
                  = Ok (trie mdb, true)).
  { apply ReadFromFile_WriteIndex. intros k it Hk.
    destruct (Hkeys k it Hk) as (v & itb & Hb & Hsz & Hget & Hrec & Hkl & Hvl).
    destruct Hrec as (c & Hfile & Hoff & Hsize & Hend & _).
    destruct (Hfiles _ _ Hfile) as [Hfid Hclen].
    pose proof (len_record k v) as Hlr.
    pose proof (len_nonneg k). pose proof (len_nonneg v).
    assert (Hkeylen : Z.of_nat (length (map_to_list (trie b)).*1) < 2 ^ 32).
    { rewrite length_fmap, length_map_to_list. exact Hlen. }
    unfold binding_ok. cbn [fst snd config b1 set_dir].
    unfold max_int64 in *. split_all; lia. }
  destruct (reopen_with_index mapiter b1 _ (trie mdb) eq_refl Hread)
    as (b' & Hre & Ht & _ & _ & Hdir & _).
  { subst b1. cbn [dir set_dir files closed].
    destruct Hc as (_ & c & Hfile & _). intros E.
    rewrite E, lookup_empty in Hfile. discriminate. }
  exists b'. split; [exact Hre|].
  assert (Hsame : forall k, is_Some (trie mdb !! k) <-> is_Some (trie b !! k)).
  { intros k. rewrite Hdom. split.
    - intros Hin. apply list_elem_of_fmap in Hin as ([k' it] & -> & Hin).
      apply elem_of_map_to_list in Hin. cbn. eauto.
    - intros [it Hit]. apply list_elem_of_fmap. exists (k, it).
      split; [reflexivity|]. by apply elem_of_map_to_list. }
  rewrite Ht, Hdir. subst b1. cbn [dir set_dir index_file closed].
  change (data_bytes closed) with (data_bytes (dir mdb)).
  split_all.
  - exact Hbytes.
  - unfold live_bytes. apply sum_map_ext. intros k.
    destruct (trie mdb !! k) as [it|] eqn:Hk.
    + destruct (Hkeys k it Hk) as (v & itb & Hb & Hsz & _).
      rewrite Hb. cbn. congruence.
    + assert (Hb : trie b !! k = None).
      { destruct (trie b !! k) eqn:E; [|reflexivity].
        assert (Hs : is_Some (trie mdb !! k)) by (apply Hsame; eauto).
        rewrite Hk in Hs. by destruct Hs. }
      rewrite Hb. reflexivity.
  - reflexivity.
Qed.

Lemma Merge_leaves_one_record_per_key_witness :
  exists b',
    Merge asc (run [OpPut key_a val_1; OpPut key_a val_2; OpDelete key_b]
                   fresh_db) = (b', Ok tt)
    /\ data_bytes (dir b') = live_bytes (trie b').
Proof.
  destruct (Merge_leaves_one_record_per_key asc
              (run [OpPut key_a val_1; OpPut key_a val_2; OpDelete key_b]
                   fresh_db)) as (b' & HM & Hb & _).
  - apply run_wf, fresh_db_wf.
  - vm_compute. reflexivity.
  - exists b'. split; [exact HM|exact Hb].
Defined.

(** ** A segment that ends inside a record *)

Lemma replay_torn (ids : list Z) (i fileID : Z) (fs : gmap Z bytes)
    (recs : list (bytes * bytes)) (key value : bytes) (n : Z) (fuel : nat)
    (df : Data.datafile) (t : gmap bytes Item) :
  0 <= i -> ids !! Z.to_nat i = Some fileID ->
  fs !! Data.id df
  = Some (encode_log recs ++ take (Z.to_nat n) (record key value)) ->
  Data.rpos df = 0 ->
  Forall (fun r : bytes * bytes => len r.1 < 2 ^ 32) recs ->
  len key < 2 ^ 32 ->
  len (encode_log recs) + len (record key value) <= max_int64 ->
  0 < n < len (record key value) ->
  (length recs < fuel)%nat ->
  exists df', replay fuel ids i df fs 0 t = (df', Err (cut_error n)).
Proof.
  intros Hi Hids Hc Hpos Hkeys Hk Hfit Hn Hfuel.
  pose proof (len_nonneg (encode_log recs)).
  pose proof (len_record key value) as Hlr.
  pose proof (len_nonneg key). pose proof (len_nonneg value).
  destruct (replay_records ids i fileID fs recs
              (take (Z.to_nat n) (record key value)) fuel df [] t)
    as (df1 & Hid1 & Hpos1 & Hre); try assumption.
  { cbn [app]. lia. }
  cbn [app] in Hpos1, Hre. change (len []) with 0 in Hre. rewrite Hre.
  destruct (fuel - length recs)%nat as [|fuel'] eqn:E; [lia|].
  cbn [replay]. unfold Data.Read. rewrite Hid1, Hc, Hpos1.
  unfold len at 1. rewrite Nat2Z.id, drop_app_length.
  pose proof (Data_decode_cut (NewEntry key value) (mkEntry 0 [] 0 []) n)
    as Hcut.
  change (Data.frame (NewEntry key value)) with (record key value) in Hcut.
  cbn [Key Value NewEntry] in Hcut.
  destruct (Data.decode (take (Z.to_nat n) (record key value))
                        (mkEntry 0 [] 0 [])) as [rest r].
  cbn [snd] in Hcut. rewrite Hcut by lia.
  unfold cut_error. destruct (n <? 12); eauto.
Qed.

(** X27. A segment that ends inside a record stops recovery.  When the
    active segment of a database built as for X25 ends with a proper,
    non-empty prefix of one more record, and there is no [index] file,
    [Open] (ranging over the segments in ascending id order) fails with
    the error of the segment decoder, which [reopen] returns as it is:
    [io.ErrUnexpectedEOF] itself when fewer than the twelve bytes of the
    length prefixes are there, and [io.ErrUnexpectedEOF] wrapped by
    [errors.Wrap] with the message "failed reading saved data" when the
    cut is after them. *)
Theorem Open_fails_on_a_torn_record (mapiter : mapiterT)
    (cfg cfg2 : configT) (opts opts2 : list Option) (ops : list op)
    (key value c : bytes) (n : Z) :
  Forall op_ok ops -> Z.of_nat (length ops) < max_int64 ->
  let b := run ops (empty_db cfg opts) in
  files (dir b) !! Data.id (curr b) = Some c ->
  len key < 2 ^ 32 -> len c + len (record key value) <= max_int64 ->
  0 < n < len (record key value) ->
  let d := {| files := <[Data.id (curr b) :=
                           c ++ take (Z.to_nat n) (record key value)]>
                         (files (dir b));
              index_file := None; config_file := config_file (dir b);
              lock_file := false |} in
  mapiter (ParseIds d) = ParseIds d ->
  apply_options opts2
    (match getConfig d with Ok c => c | _ => newDefaultConfig end)
  = (cfg2, Ok tt) ->
  (Open mapiter d opts2).2
  = Err (if n <? 12 then ErrUnexpectedEOF
         else Wrap ErrUnexpectedEOF FailedReadingSavedData).
Proof.
  intros Hok Hmax b Hc Hk Hfit Hn d Hiter Hopts.
  destruct (run_logged ops (empty_db cfg opts) [[]]
              (logged_empty_db cfg opts) Hok)
    as (logs & (Hinv & _)); [cbn [length]; lia|].
  fold b in Hinv.
  destruct (seg_inv_nonempty _ _ Hinv) as (prev & last & ->).
  destruct (seg_inv_curr_file _ _ _ Hinv) as [Hid Hfile].
  assert (c = encode_log last) as -> by congruence.
  pose proof Hinv as (_ & _ & Hfs & _ & Hkeys & Hsizes).
  apply Forall_app in Hkeys as [Hkp Hkl].
  apply (proj1 (Forall_singleton _ _)) in Hkl.
  apply Forall_app in Hsizes as [Hsp _].
  set (torn := take (Z.to_nat n) (record key value)) in *.
  assert (Hfd : files d
                = map_seqZ 0 ((encode_log <$> prev)
                              ++ [encode_log last ++ torn])).
  { cbn [d files]. rewrite Hfs, Hid, fmap_app. cbn [fmap list_fmap].
    rewrite !map_seqZ_snoc, length_fmap, Z.add_0_l.
    apply insert_insert_eq. }
  pose proof (ParseIds_seq d _ Hfd) as Hids.
  rewrite length_app, length_fmap in Hids. cbn [length] in Hids.
  replace (length prev + 1)%nat with (S (length prev)) in Hids by lia.
  assert (Hidx : index_file d = None) by reflexivity.
  assert (Hlock : lock_file d = false) by reflexivity.
  clearbody d.
  unfold Open. rewrite Hopts, Hlock.
  set (b0 := {| config := cfg2; options := opts2;
                dir := {| files := files d; index_file := index_file d;
                          config_file := Some cfg2; lock_file := true |};
                curr := nil_datafile; datafiles := ∅; trie := ∅ |}).
  assert (Hre0 : reopen mapiter b0 = (b0, Err (cut_error n)));
    [|by rewrite Hre0].
  unfold reopen.
  change (ParseIds (dir b0)) with (ParseIds d).
  change (files (dir b0)) with (files d).
  change (index_file (dir b0)) with (index_file d).
  rewrite Hidx, Hiter, Hids.
  assert (Hprev : forall (j : nat) recs, prev !! j = Some recs ->
            files d !! Z.of_nat j = Some (encode_log recs)).
  { intros j recs Hj. rewrite Hfd, lookup_map_seqZ_0 by lia.
    rewrite Nat2Z.id, lookup_app_l
      by (rewrite length_fmap; by eapply lookup_lt_Some).
    rewrite list_lookup_fmap, Hj. reflexivity. }
  assert (Hlast : files d !! Z.of_nat (length prev)
                  = Some (encode_log last ++ torn)).
  { rewrite Hfd, lookup_map_seqZ_0 by lia.
    rewrite Nat2Z.id, lookup_app_r by (rewrite length_fmap; lia).
    rewrite length_fmap, Nat.sub_diag. reflexivity. }
  destruct (open_sealed_exact (files d)
              (seqZ 0 (Z.of_nat (S (length prev)))) ∅)
    as (dfs0 & -> & Hin & _).
  { intros i Hi. apply elem_of_seqZ in Hi.
    destruct (decide (i = Z.of_nat (length prev))) as [->|Hne]; [eauto|].
    destruct (lookup_lt_is_Some_2 prev (Z.to_nat i)) as [recs Hrecs]; [lia|].
    exists (encode_log recs). rewrite <- (Z2Nat.id i) by lia.
    by apply Hprev. }
  cbn [Index.ReadFromFile]. rewrite seqZ_S.
  destruct (replay_all_prefix (seqZ 0 (Z.of_nat (length prev))
                               ++ [0 + Z.of_nat (length prev)])
              (files d) [0 + Z.of_nat (length prev)] prev 0 dfs0 ∅)
    as (dfs1 & Hall & _ & Hout).
  { lia. }
  { intros j recs Hj. rewrite Z.add_0_l.
    pose proof (lookup_lt_Some _ _ _ Hj) as Hlt.
    split_all.
    - by apply Hprev.
    - by apply (Forall_lookup_1 _ _ _ _ Hkp Hj).
    - by apply (Forall_lookup_1 _ _ _ _ Hsp Hj).
    - rewrite Nat2Z.id, <- seqZ_S, lookup_seqZ_lt by lia. reflexivity. }
  { intros j Hj. rewrite Z.add_0_l. apply Hin. apply elem_of_seqZ. lia. }
  rewrite Hall. rewrite Z.add_0_l. cbn [replay_all].
  destruct (Hin (Z.of_nat (length prev))) as (df & Hdf & Hdid & Hpos);
    [apply elem_of_seqZ; lia|].
  rewrite Hout by lia. rewrite Hdf, Hdid, Hlast.
  cbn [default from_option Datatypes.id].
  destruct (replay_torn (seqZ 0 (Z.of_nat (length prev))
                         ++ [Z.of_nat (length prev)])
              (Z.of_nat (length prev)) (Z.of_nat (length prev))
              (files d)
              last key value n (S (length (encode_log last ++ torn))) df
              (index_from 0 prev ∅)) as (df' & Hre); try assumption; try lia.
  { rewrite Nat2Z.id.
    rewrite lookup_app_r by (rewrite length_seqZ; lia).
    rewrite length_seqZ, Nat2Z.id, Nat.sub_diag. reflexivity. }
  { rewrite Hdid. exact Hlast. }
  { pose proof (encode_log_length last). rewrite length_app. lia. }
  rewrite Hre. reflexivity.
Qed.

Lemma Open_fails_on_a_torn_record_witness :
  (Open asc
     {| files := {[ 0 := record key_a val_1
                         ++ take (Z.to_nat 15) (record key_b val_2) ]};
        index_file := None; config_file := Some newDefaultConfig;
        lock_file := false |} []).2
  = Err (Wrap ErrUnexpectedEOF FailedReadingSavedData).
Proof.
  apply (Open_fails_on_a_torn_record asc newDefaultConfig newDefaultConfig
           [] [] [OpPut key_a val_1] key_b val_2 (record key_a val_1) 15).
  - repeat constructor; cbn; try discriminate; vm_compute; reflexivity.
  - vm_compute. reflexivity.
  - vm_compute. reflexivity.
  - vm_compute. reflexivity.
  - vm_compute. discriminate.
  - vm_compute. split; reflexivity.
  - reflexivity.
  - reflexivity.
Defined.
